(** * chess-arena: the move-selection core

    A shallow embedding of [engine/agents/minimax_agent.py] and
    [engine/agents/mcts_agent.py].

    The rules of chess are not part of the repository: both agents consume
    the [chess.Board] object of the python-chess package.  That object is
    the class [PositionOracle] below; a value of the carrier type is the
    state of one board object, and the methods that mutate the object
    ([push], [pop]) are functions from state to state. *)

From Stdlib Require Import ZArith Lia Bool List Permutation Sorted Floats Uint63.
From stdpp Require Import base list strings gmap.
Import ListNotations.
Local Open Scope Z_scope.
Set Warnings "-inexact-float".

(** ** Pieces, colours, squares, moves *)

Inductive PieceType := PAWN | KNIGHT | BISHOP | ROOK | QUEEN | KING.

(** [chess.WHITE] is [True] and [chess.BLACK] is [False]. *)
Inductive Color := WHITE | BLACK.

Record Piece := mkPiece { piece_type : PieceType; color : Color }.

(** Squares are the integers 0..63, a1 = 0, h8 = 63. *)
Definition Square := nat.

Definition SQUARES : list Square := seq 0 64.

Record Move := mkMove {
  from_square : Square;
  to_square : Square;
  promotion : option PieceType
}.
Arguments mkMove (from_square to_square)%_nat promotion.

#[global] Instance PieceType_eq_dec : EqDecision PieceType.
Proof. solve_decision. Defined.

#[global] Instance Color_eq_dec : EqDecision Color.
Proof. solve_decision. Defined.

#[global] Instance Move_eq_dec : EqDecision Move.
Proof. solve_decision. Defined.

(** The outcome string of [Board.result()]. *)
Inductive GameResult := WhiteWins | BlackWins | Draw | Unfinished.

(** ** The position oracle (python-chess [Board]) *)

Class PositionOracle (Board : Type) := {
  legal_moves : Board -> list Move;
  push : Board -> Move -> Board;
  pop : Board -> Board;
  piece_at : Board -> Square -> option Piece;
  turn : Board -> Color;
  is_checkmate : Board -> bool;
  is_stalemate : Board -> bool;
  is_insufficient_material : Board -> bool;
  can_claim_draw : Board -> bool;
  is_game_over : Board -> bool;
  is_check : Board -> bool;
  is_capture : Board -> Move -> bool;
  result : Board -> GameResult
}.

(** ** Piece values and piece-square tables *)

Definition PIECE_VALUES (pt : PieceType) : Z :=
  match pt with
  | PAWN => 100
  | KNIGHT => 320
  | BISHOP => 330
  | ROOK => 500
  | QUEEN => 900
  | KING => 0
  end.

Definition PAWN_TABLE : list Z := [
     0;  0;  0;  0;  0;  0;  0;  0;
    50; 50; 50; 50; 50; 50; 50; 50;
    10; 10; 20; 30; 30; 20; 10; 10;
     5;  5; 10; 25; 25; 10;  5;  5;
     0;  0;  0; 20; 20;  0;  0;  0;
     5; -5;-10;  0;  0;-10; -5;  5;
     5; 10; 10;-20;-20; 10; 10;  5;
     0;  0;  0;  0;  0;  0;  0;  0
].

Definition KNIGHT_TABLE : list Z := [
    -50;-40;-30;-30;-30;-30;-40;-50;
    -40;-20;  0;  0;  0;  0;-20;-40;
    -30;  0; 10; 15; 15; 10;  0;-30;
    -30;  5; 15; 20; 20; 15;  5;-30;
    -30;  0; 15; 20; 20; 15;  0;-30;
    -30;  5; 10; 15; 15; 10;  5;-30;
    -40;-20;  0;  5;  5;  0;-20;-40;
    -50;-40;-30;-30;-30;-30;-40;-50
].

Definition BISHOP_TABLE : list Z := [
    -20;-10;-10;-10;-10;-10;-10;-20;
    -10;  0;  0;  0;  0;  0;  0;-10;
    -10;  0; 10; 10; 10; 10;  0;-10;
    -10;  5;  5; 10; 10;  5;  5;-10;
    -10;  0;  5; 10; 10;  5;  0;-10;
    -10; 10; 10; 10; 10; 10; 10;-10;
    -10;  5;  0;  0;  0;  0;  5;-10;
    -20;-10;-10;-10;-10;-10;-10;-20
].

Definition ROOK_TABLE : list Z := [
     0;  0;  0;  0;  0;  0;  0;  0;
     5; 10; 10; 10; 10; 10; 10;  5;
    -5;  0;  0;  0;  0;  0;  0; -5;
    -5;  0;  0;  0;  0;  0;  0; -5;
    -5;  0;  0;  0;  0;  0;  0; -5;
    -5;  0;  0;  0;  0;  0;  0; -5;
    -5;  0;  0;  0;  0;  0;  0; -5;
     0;  0;  0;  5;  5;  0;  0;  0
].

Definition QUEEN_TABLE : list Z := [
    -20;-10;-10; -5; -5;-10;-10;-20;
    -10;  0;  0;  0;  0;  0;  0;-10;
    -10;  0;  5;  5;  5;  5;  0;-10;
     -5;  0;  5;  5;  5;  5;  0; -5;
      0;  0;  5;  5;  5;  5;  0; -5;
    -10;  5;  5;  5;  5;  5;  0;-10;
    -10;  0;  5;  0;  0;  0;  0;-10;
    -20;-10;-10; -5; -5;-10;-10;-20
].

Definition KING_TABLE_MIDDLEGAME : list Z := [
    -30;-40;-40;-50;-50;-40;-40;-30;
    -30;-40;-40;-50;-50;-40;-40;-30;
    -30;-40;-40;-50;-50;-40;-40;-30;
    -30;-40;-40;-50;-50;-40;-40;-30;
    -20;-30;-30;-40;-40;-30;-30;-20;
    -10;-20;-20;-20;-20;-20;-20;-10;
     20; 20;  0;  0;  0;  0; 20; 20;
     20; 30; 10;  0;  0; 10; 30; 20
].

Definition PST (pt : PieceType) : list Z :=
  match pt with
  | PAWN => PAWN_TABLE
  | KNIGHT => KNIGHT_TABLE
  | BISHOP => BISHOP_TABLE
  | ROOK => ROOK_TABLE
  | QUEEN => QUEEN_TABLE
  | KING => KING_TABLE_MIDDLEGAME
  end.

(** [tbl[i]] on a Python list; every index used below is in range. *)
Definition idx {A} (d : A) (l : list A) (i : nat) : A := nth i l d.

(** [for _r in range(8): for _f in range(8): _MIRROR.append((7 - _r) * 8 + _f)] *)
Definition _MIRROR : list nat :=
  flat_map (fun _r => map (fun _f => ((7 - _r) * 8 + _f)%nat) (seq 0 8)) (seq 0 8).

(** [white_tbl[sq] = _table[_MIRROR[sq]]] for [sq in range(64)]. *)
Definition PST_WHITE (pt : PieceType) : list Z :=
  map (fun sq => idx 0 (PST pt) (idx 0%nat _MIRROR sq)) (seq 0 64).

(** [black_tbl[sq] = _table[sq]] for [sq in range(64)]. *)
Definition PST_BLACK (pt : PieceType) : list Z :=
  map (fun sq => idx 0 (PST pt) sq) (seq 0 64).

Definition CHECKMATE_SCORE : Z := 100000.

(** ** Evaluation *)

Section Evaluation.
Context {Board : Type} `{PositionOracle Board}.

(** One pass of the body of [for sq in chess.SQUARES]. *)
Definition evaluate_step (board : Board) (score : Z) (sq : Square) : Z :=
  match piece_at board sq with
  | None => score
  | Some piece =>
      let value := PIECE_VALUES (piece_type piece) in
      match color piece with
      | WHITE =>
          let value := value + idx 0 (PST_WHITE (piece_type piece)) sq in
          score + value
      | BLACK =>
          let value := value + idx 0 (PST_BLACK (piece_type piece)) sq in
          score - value
      end
  end.

Definition evaluate (board : Board) : Z :=
  if is_checkmate board then - CHECKMATE_SCORE
  else if is_stalemate board || is_insufficient_material board
          || can_claim_draw board then 0
  else
    let score := fold_left (evaluate_step board) SQUARES 0 in
    match turn board with
    | BLACK => - score
    | WHITE => score
    end.

(** *** The evaluation as the specification words it *)

Definition piece_base_value (k : PieceType) : Z := PIECE_VALUES k.

(** The bonus of a piece kind on a square for a colour: the White-oriented
    table for White, the Black-oriented one for Black. *)
Definition positional_table_bonus (k : PieceType) (sq : Square) (c : Color) : Z :=
  match c with
  | WHITE => idx 0 (PST_WHITE k) sq
  | BLACK => idx 0 (PST_BLACK k) sq
  end.

Definition occupied (board : Board) (sq : Square) : bool :=
  match piece_at board sq with Some _ => true | None => false end.

(** Contribution of one occupied square: added for White, subtracted for
    Black. *)
Definition square_term (board : Board) (sq : Square) : Z :=
  match piece_at board sq with
  | None => 0
  | Some p =>
      let v := piece_base_value (piece_type p)
               + positional_table_bonus (piece_type p) sq (color p) in
      match color p with WHITE => v | BLACK => - v end
  end.

Definition sumZ (l : list Z) : Z := fold_right Z.add 0 l.

Definition board_total (board : Board) : Z :=
  sumZ (map (square_term board) (filter (fun sq => occupied board sq = true) SQUARES)).

Definition evaluate_spec (board : Board) : Z :=
  if is_checkmate board then -100000
  else if is_stalemate board then 0
  else if is_insufficient_material board then 0
  else if can_claim_draw board then 0
  else match turn board with
       | BLACK => - board_total board
       | WHITE => board_total board
       end.
End Evaluation.

(** ** Outcomes of a call

    A call returns a value, raises, or runs out of the recursion budget the
    model gives it.  The board state left behind is part of the first two. *)

Inductive PyError := ValueError | IndexError | ZeroDivisionError.

Inductive outcome (S A : Type) :=
  | Ok (a : A) (s : S)
  | Raise (e : PyError) (s : S)
  | OutOfFuel.
Arguments Ok {S A} a s.
Arguments Raise {S A} e s.
Arguments OutOfFuel {S A}.

(** ** [list.sort(key=...)]

    CPython computes the key of every element once, in list order, and then
    sorts the decorated list; the sort is stable.  A stable sort has one
    possible result, which insertion from the right computes. *)

Fixpoint insert_by_key {A} (x : Z * A) (l : list (Z * A)) : list (Z * A) :=
  match l with
  | [] => [x]
  | y :: l' => if fst x <=? fst y then x :: y :: l' else y :: insert_by_key x l'
  end.

Fixpoint sort_by_key {A} (l : list (Z * A)) : list (Z * A) :=
  match l with
  | [] => []
  | x :: l' => insert_by_key x (sort_by_key l')
  end.

Definition key_le {A} (x y : Z * A) : Prop := fst x <= fst y.

(** The elements of key [k], in list order. *)
Definition with_key {A} (k : Z) (l : list (Z * A)) : list (Z * A) :=
  List.filter (fun x => fst x =? k) l.

(** ** Move ordering *)

Section MoveOrdering.
Context {Board : Type} `{PositionOracle Board}.

Definition _move_order_key (board : Board) (move : Move) : Z * Board :=
  let '(score, board) :=
    if is_capture board move then
      let victim_sq := to_square move in
      let victim := piece_at board victim_sq in
      let victim_val :=
        match victim with
        | Some v => PIECE_VALUES (piece_type v)
        | None => PIECE_VALUES PAWN
        end in
      let aggressor := piece_at board (from_square move) in
      let aggressor_val :=
        match aggressor with
        | Some a => PIECE_VALUES (piece_type a)
        | None => 0
        end in
      (- (10 * victim_val - aggressor_val) - 20000, board)
    else
      let board := push board move in
      let is_check := is_check board in
      let board := pop board in
      (if is_check then -10000 else 0, board) in
  let score :=
    match promotion move with
    | Some p => score - PIECE_VALUES p
    | None => score
    end in
  (score, board).

(** The keys of [moves], computed left to right on the one board object. *)
Fixpoint decorate (board : Board) (moves : list Move) : list (Z * Move) * Board :=
  match moves with
  | [] => ([], board)
  | m :: rest =>
      let '(k, board) := _move_order_key board m in
      let '(keyed, board) := decorate board rest in
      ((k, m) :: keyed, board)
  end.

Definition _ordered_moves (board : Board) : list Move * Board :=
  let moves := legal_moves board in
  let '(keyed, board) := decorate board moves in
  (map snd (sort_by_key keyed), board).

(** *** The vocabulary of the ordering heuristic *)

(** The oracle's contract for apply and undo: [pop] undoes the last [push]. *)
Definition undo_law : Prop := forall (b : Board) (m : Move), pop (push b m) = b.

Definition promotion_bonus (move : Move) : Z :=
  match promotion move with
  | Some p => PIECE_VALUES p
  | None => 0
  end.

(** The captured piece's value; an empty destination square is an en-passant
    capture, whose victim is a pawn. *)
Definition victim_value (board : Board) (move : Move) : Z :=
  match piece_at board (to_square move) with
  | Some v => PIECE_VALUES (piece_type v)
  | None => PIECE_VALUES PAWN
  end.

Definition aggressor_value (board : Board) (move : Move) : Z :=
  match piece_at board (from_square move) with
  | Some a => PIECE_VALUES (piece_type a)
  | None => 0
  end.

Definition gives_check (board : Board) (move : Move) : bool :=
  is_check (push board move).
(** The key as the heuristic states it: captures by ten times the victim's
    value less the aggressor's, then checks, then the rest, each lowered by
    the value of a promotion piece. *)
Definition heuristic_key (board : Board) (move : Move) : Z :=
  (if is_capture board move
   then - (10 * victim_value board move - aggressor_value board move) - 20000
   else if gives_check board move then -10000 else 0)
  - promotion_bonus move.

Definition value_difference (board : Board) (move : Move) : Z :=
  victim_value board move - aggressor_value board move.

(** Captures in the order of victim value minus aggressor value: of two
    plain captures, the one with the larger difference stands first. *)
Definition ranked_by_value_difference (board : Board) (l : list Move) : Prop :=
  forall (i j : nat) (m1 m2 : Move),
    l !! i = Some m1 -> l !! j = Some m2 ->
    is_capture board m1 = true -> is_capture board m2 = true ->
    promotion m1 = None -> promotion m2 = None ->
    value_difference board m1 > value_difference board m2 ->
    (i < j)%nat.
End MoveOrdering.

(** ** Negamax with alpha-beta pruning

    [depth] is a Python [int]; only [depth == 0] stops the recursion, so a
    negative depth recurses until the game is over.  [fuel] bounds the
    nesting of calls; [None] means the bound was reached. *)

Section Negamax.
Context {Board : Type} `{PositionOracle Board}.

(** The [for move in ...] loop of [_negamax]; [rec] is the recursive call. *)
Fixpoint negamax_loop (rec : Board -> Z -> Z -> Z -> option (Z * Board))
    (moves : list Move) (depth beta best alpha : Z) (board : Board)
    : option (Z * Board) :=
  match moves with
  | [] => Some (best, board)
  | move :: rest =>
      let board := push board move in
      match rec board (depth - 1) (- beta) (- alpha) with
      | None => None
      | Some (r, board) =>
          let score := - r in
          let board := pop board in
          let best := if score >? best then score else best in
          let alpha := if best >? alpha then best else alpha in
          if alpha >=? beta then Some (best, board)
          else negamax_loop rec rest depth beta best alpha board
      end
  end.

Fixpoint _negamax (fuel : nat) (board : Board) (depth alpha beta : Z)
    : option (Z * Board) :=
  match fuel with
  | O => None
  | S fuel' =>
      if (depth =? 0) || is_game_over board then Some (evaluate board, board)
      else
        let best := - CHECKMATE_SCORE - 1 in
        let '(moves, board) := _ordered_moves board in
        negamax_loop (_negamax fuel') moves depth beta best alpha board
  end.

(** The [for move in moves] loop of [_search_root]. *)
Fixpoint search_root_loop (rec : Board -> Z -> Z -> Z -> option (Z * Board))
    (moves : list Move) (depth beta : Z) (best_move : Move)
    (best_score alpha : Z) (board : Board) : option (Move * Z * Board) :=
  match moves with
  | [] => Some (best_move, best_score, board)
  | move :: rest =>
      let board := push board move in
      match rec board (depth - 1) (- beta) (- alpha) with
      | None => None
      | Some (r, board) =>
          let score := - r in
          let board := pop board in
          let '(best_score, best_move) :=
            if score >? best_score then (score, move)
            else (best_score, best_move) in
          let alpha := if score >? alpha then score else alpha in
          search_root_loop rec rest depth beta best_move best_score alpha board
      end
  end.

(** [_search_root] up to its [return]: the best move together with the
    local [best_score] it was chosen for. *)
Definition search_root_scored (fuel : nat) (board : Board) (depth : Z)
    : outcome Board (Move * Z) :=
  let '(moves, board) := _ordered_moves board in
  match moves with
  | [] => Raise ValueError board
  | m0 :: _ =>
      let best_move := m0 in
      let best_score := - CHECKMATE_SCORE - 1 in
      let alpha := - CHECKMATE_SCORE - 1 in
      let beta := CHECKMATE_SCORE + 1 in
      match search_root_loop (_negamax fuel) moves depth beta
              best_move best_score alpha board with
      | None => OutOfFuel
      | Some (best_move, best_score, board) => Ok (best_move, best_score) board
      end
  end.

Definition _search_root (fuel : nat) (board : Board) (depth : Z)
    : outcome Board Move :=
  match search_root_scored fuel board depth with
  | Ok (best_move, _) board => Ok best_move board
  | Raise e board => Raise e board
  | OutOfFuel => OutOfFuel
  end.

(** *** The unpruned reference search

    Exhaustive negamax: the value of a node is the static evaluation at
    depth 0 or at a finished game, and otherwise the largest negated value
    of a successor; no window, no cutoff.  The running maximum starts at the
    same floor as in [_negamax]. *)

Definition key_of (board : Board) (move : Move) : Z := fst (_move_order_key board move).

Definition ordered (board : Board) : list Move :=
  map snd (sort_by_key (map (fun m => (key_of board m, m)) (legal_moves board))).

(** One move of the reference search: the running maximum against the
    negated value of the successor. *)
Definition max_step (value : Board -> Z) (board : Board) (best : Z) (move : Move) : Z :=
  Z.max best (- value (push board move)).

Fixpoint exhaustive_negamax (depth : nat) (board : Board) : Z :=
  match depth with
  | O => evaluate board
  | S d =>
      if is_game_over board then evaluate board
      else fold_left (max_step (exhaustive_negamax d) board)
             (ordered board) (- CHECKMATE_SCORE - 1)
  end.

(** The root of the reference search: the first move, in the orderer's
    order, whose score is the largest. *)
Definition exhaustive_root_step (d : nat) (board : Board)
    (acc : Move * Z) (move : Move) : Move * Z :=
  let score := - exhaustive_negamax d (push board move) in
  if score >? snd acc then (move, score) else acc.

Definition exhaustive_root (depth : nat) (board : Board) : option (Move * Z) :=
  match ordered board with
  | [] => None
  | m0 :: _ =>
      Some (fold_left (exhaustive_root_step (depth - 1) board) (ordered board)
              (m0, - CHECKMATE_SCORE - 1))
  end.

(** The lowest value the running maximum of a node can have. *)
Definition SCORE_FLOOR : Z := - CHECKMATE_SCORE - 1.

(** What a fail-soft window search may return for a node of exact value [e]:
    an upper bound of [e] at or below the window, [e] itself inside it, a
    lower bound of [e] at or above it. *)
Definition fail_soft (v e alpha beta : Z) : Prop :=
  (v <= alpha -> e <= v) /\ (alpha < v < beta -> v = e) /\ (beta <= v -> v <= e).

(** What the loops assume of the recursive call on a successor. *)
Definition rec_sound (rec : Board -> Z -> Z -> Z -> option (Z * Board))
    (d : nat) (board : Board) (depth : Z) : Prop :=
  forall (m : Move) (a b : Z),
    exists v, rec (push board m) (depth - 1) a b = Some (v, push board m)
              /\ SCORE_FLOOR <= v
              /\ (a < b -> fail_soft v (exhaustive_negamax d (push board m)) a b).

(** The root search returns the only legal move without entering
    [_negamax]: it returns with a budget of no nested call at all. *)
Definition shortcut_without_search (board : Board) (depth : Z) : Prop :=
  forall m, legal_moves board = [m] ->
    exists b', _search_root 0 board depth = Ok m b'.
End Negamax.

(** * Monte Carlo tree search

    Python's [float] is IEEE binary64, which is the kernel's [float].  The
    functions of the C library that IEEE does not fix ([math.log],
    [math.tanh]), the random generator and the clock are parameters. *)

Class MathLib := {
  math_log_float : float -> float;
  math_tanh : float -> float
}.

(** [random.shuffle] and [random.choice] over an explicit generator state.
    [choice] is only consulted for a non-empty list. *)
Class RandomSource (Rng : Type) := {
  shuffle : Rng -> list Move -> list Move * Rng;
  choice : Rng -> list Move -> Move * Rng
}.

(** [time.monotonic()]: each reading advances the clock's state. *)
Class MonotonicClock (Clk : Type) := {
  monotonic : Clk -> float * Clk
}.

(** The result of a call that mutates nothing the caller can see: a value,
    a Python exception, or [Stuck], which stands for what no run of the
    Python code does: the recursion budget of the model is used up, or an
    index of the node arena designates no node. *)
Inductive res (A : Type) :=
  | Ret (a : A)
  | Err (e : PyError)
  | Stuck.
Arguments Ret {A} a.
Arguments Err {A} e.
Arguments Stuck {A}.

#[global] Instance res_ret : MRet res := fun A a => Ret a.
#[global] Instance res_bind : MBind res := fun A B f x =>
  match x with
  | Ret a => f a
  | Err e => Err e
  | Stuck => Stuck
  end.

(** [float(n)] for the integers the engine converts (below 2^63 in
    absolute value). *)
Definition float_of_Z (z : Z) : float :=
  if z <? 0 then PrimFloat.opp (PrimFloat.of_uint63 (Uint63.of_Z (- z)))
  else PrimFloat.of_uint63 (Uint63.of_Z z).

(** [x / n] with [x] a float and [n] an int. *)
Definition float_div_int (x : float) (n : Z) : res float :=
  if n =? 0 then Err ZeroDivisionError
  else Ret (PrimFloat.div x (float_of_Z n)).

(** [math.log(n)] on an int: a domain error unless [n] is positive. *)
Definition math_log `{MathLib} (n : Z) : res float :=
  if n <=? 0 then Err ValueError else Ret (math_log_float (float_of_Z n)).

(** [math.sqrt(x)]: a domain error on a negative argument. *)
Definition math_sqrt (x : float) : res float :=
  if PrimFloat.ltb x 0%float then Err ValueError else Ret (PrimFloat.sqrt x).

(** [max(items, key=key)]: the first item whose key no later key exceeds;
    [ValueError] on an empty sequence.  Keys are computed once, in order. *)
Fixpoint max_loop {A K} (key : A -> res K) (gt : K -> K -> bool)
    (items : list A) (best : A) (best_key : K) : res A :=
  match items with
  | [] => Ret best
  | x :: rest =>
      k ← key x;
      if gt k best_key then max_loop key gt rest x k
      else max_loop key gt rest best best_key
  end.

Definition py_max {A K} (key : A -> res K) (gt : K -> K -> bool)
    (items : list A) : res A :=
  match items with
  | [] => Err ValueError
  | x :: rest => k ← key x; max_loop key gt rest x k
  end.

(** [l.pop()]: the last element and the list without it. *)
Definition list_pop {A} (l : list A) : res (A * list A) :=
  match rev l with
  | [] => Err IndexError
  | x :: r => Ret (x, rev r)
  end.

Definition float_gt (a b : float) : bool := PrimFloat.ltb b a.

Section MCTS.
Context {Board : Type} `{PositionOracle Board} `{MathLib}.
Context {Rng : Type} `{RandomSource Rng} {Clk : Type} `{MonotonicClock Clk}.

Definition _PIECE_VALUES (pt : PieceType) : Z :=
  match pt with
  | PAWN => 100
  | KNIGHT => 320
  | BISHOP => 330
  | ROOK => 500
  | QUEEN => 900
  | KING => 0
  end.

Definition material_step (board : Board) (score : Z) (sq : Square) : Z :=
  match piece_at board sq with
  | None => score
  | Some piece =>
      let val := _PIECE_VALUES (piece_type piece) in
      match color piece with
      | WHITE => score + val
      | BLACK => score - val
      end
  end.

Definition _material_eval (board : Board) : float :=
  let score := fold_left (material_step board) SQUARES 0 in
  math_tanh (PrimFloat.div (float_of_Z score) 1000%float).

(** A node of the tree.  Nodes live in an arena, a list indexed by node
    identity; [node_parent] and [node_children] hold indices.  The board of
    a node is its own object, never mutated once the node exists. *)
Record Node := mkNode {
  node_board : Board;
  node_parent : option nat;
  node_move : option Move;
  node_children : list nat;
  node_untried_moves : list Move;
  node_visits : Z;
  node_total_value : float
}.

(** [_MCTSNode.__init__] *)
Definition new_node (rng : Rng) (board : Board) (parent : option nat)
    (move : option Move) : Node * Rng :=
  let '(untried, rng) := shuffle rng (legal_moves board) in
  (mkNode board parent move [] untried 0 0%float, rng).

Definition q (node : Node) : res float :=
  if node_visits node =? 0 then Ret 0%float
  else float_div_int (node_total_value node) (node_visits node).

Definition is_fully_expanded (node : Node) : bool :=
  match node_untried_moves node with [] => true | _ => false end.

Definition is_terminal (node : Node) : bool := is_game_over (node_board node).

Definition _UCB1_C : float := 1.41%float.

Definition _ucb1 (node : Node) (parent_visits : Z) : res float :=
  if node_visits node =? 0 then Ret infinity
  else
    exploitation ← q node;
    l ← math_log parent_visits;
    ratio ← float_div_int l (node_visits node);
    root ← math_sqrt ratio;
    Ret (PrimFloat.add exploitation (PrimFloat.mul _UCB1_C root)).

Definition get (arena : list Node) (i : nat) : res Node :=
  match arena !! i with
  | Some n => Ret n
  | None => Stuck
  end.

Fixpoint _select (fuel : nat) (arena : list Node) (node : nat) : res nat :=
  match fuel with
  | O => Stuck
  | S fuel' =>
      n ← get arena node;
      if negb (is_terminal n) && is_fully_expanded n then
        let parent_n := node_visits n in
        child ← py_max (fun c => cn ← get arena c; _ucb1 cn parent_n)
                  float_gt (node_children n);
        _select fuel' arena child
      else Ret node
  end.

Definition _expand (arena : list Node) (rng : Rng) (node : nat)
    : res (nat * list Node * Rng) :=
  n ← get arena node;
  '(move, untried) ← list_pop (node_untried_moves n);
  let child_board := push (node_board n) move in
  let '(child, rng) := new_node rng child_board (Some node) (Some move) in
  let child_id := length arena in
  let n' := mkNode (node_board n) (node_parent n) (node_move n)
              (node_children n ++ [child_id]) untried
              (node_visits n) (node_total_value n) in
  Ret (child_id, <[node := n']> arena ++ [child], rng).

Definition _ROLLOUT_DEPTH : nat := 40.

(** The [while] loop of [_rollout]; [remaining] is [_ROLLOUT_DEPTH - depth]. *)
Fixpoint rollout_loop (remaining : nat) (sim : Board) (rng : Rng)
    : res (Board * Rng) :=
  if is_game_over sim then Ret (sim, rng)
  else
    match remaining with
    | O => Ret (sim, rng)
    | S remaining' =>
        match legal_moves sim with
        | [] => Err IndexError
        | moves =>
            let '(m, rng) := choice rng moves in
            rollout_loop remaining' (push sim m) rng
        end
    end.

Definition _rollout (board : Board) (rng : Rng) : res (float * Rng) :=
  '(sim, rng) ← rollout_loop _ROLLOUT_DEPTH board rng;
  if is_game_over sim then
    match result sim with
    | WhiteWins => Ret (1%float, rng)
    | BlackWins => Ret ((-1)%float, rng)
    | _ => Ret (0%float, rng)
    end
  else Ret (_material_eval sim, rng).

(** One pass of the body of the [while current is not None] loop. *)
Definition backprop_node (n : Node) (result_white : float) : Node :=
  let visits := node_visits n + 1 in
  let total :=
    match turn (node_board n) with
    | BLACK => PrimFloat.add (node_total_value n) result_white
    | WHITE => PrimFloat.sub (node_total_value n) result_white
    end in
  mkNode (node_board n) (node_parent n) (node_move n) (node_children n)
    (node_untried_moves n) visits total.

Fixpoint backprop_loop (fuel : nat) (arena : list Node) (current : option nat)
    (result_white : float) : res (list Node) :=
  match current with
  | None => Ret arena
  | Some c =>
      match fuel with
      | O => Stuck
      | S fuel' =>
          n ← get arena c;
          backprop_loop fuel' (<[c := backprop_node n result_white]> arena)
            (node_parent n) result_white
      end
  end.

Definition _backpropagate (fuel : nat) (arena : list Node) (node : nat)
    (result_white : float) : res (list Node) :=
  backprop_loop fuel arena (Some node) result_white.

(** Steps 3 and 4 of a pass of the loop: the rollout from [node], then the
    backpropagation of its result. *)
Definition simulate_and_update (fuel : nat) (arena : list Node) (rng : Rng)
    (node : nat) : res (list Node * Rng) :=
  n ← get arena node;
  '(result_white, rng) ← _rollout (node_board n) rng;
  arena ← _backpropagate fuel arena node result_white;
  Ret (arena, rng).

(** The body of the [while time.monotonic() < deadline] loop; the root is
    node 0. *)
Definition iteration (fuel : nat) (arena : list Node) (rng : Rng)
    : res (list Node * Rng) :=
  node ← _select fuel arena 0%nat;
  n ← get arena node;
  '(node, arena, rng) ←
    (if negb (is_terminal n) && negb (is_fully_expanded n)
     then _expand arena rng node
     else Ret (node, arena, rng));
  simulate_and_update fuel arena rng node.

(** The [while] loop of [_mcts_search]: [fuel] bounds its passes, [budget]
    the loops of one pass. *)
Fixpoint search_loop (budget fuel : nat) (deadline : float) (arena : list Node)
    (rng : Rng) (clk : Clk) (iterations : Z)
    : res (list Node * Rng * Clk * Z) :=
  match fuel with
  | O => Stuck
  | S fuel' =>
      let '(now, clk) := monotonic clk in
      if PrimFloat.ltb now deadline then
        '(arena, rng) ← iteration budget arena rng;
        search_loop budget fuel' deadline arena rng clk (iterations + 1)
      else Ret (arena, rng, clk, iterations)
  end.

(** The random legal move of the fallback. *)
Definition random_choice (rng : Rng) (l : list Move) : res (Move * Rng) :=
  match l with
  | [] => Err IndexError
  | _ => Ret (choice rng l)
  end.

(** [_mcts_search]; the value returned on the most-visited path is the
    [move] attribute of a node, an [Optional[Move]]. *)
Definition mcts_finish (legal : list Move) (arena : list Node) (rng : Rng)
    : res (option Move * Rng) :=
  root ← get arena 0%nat;
  match node_children root with
  | [] =>
      '(m, rng) ← random_choice rng legal;
      Ret (Some m, rng)
  | _ =>
      best_child ← py_max (fun c => cn ← get arena c; Ret (node_visits cn))
                     Z.gtb (node_children root);
      bc ← get arena best_child;
      Ret (node_move bc, rng)
  end.

Definition _mcts_search (fuel : nat) (board : Board) (time_limit : float)
    (rng : Rng) (clk : Clk) : res (option Move * Rng * Clk) :=
  let legal := legal_moves board in
  match legal with
  | [] => Err ValueError
  | [m] => Ret (Some m, rng, clk)
  | _ =>
      let '(root, rng) := new_node rng board None None in
      let '(t0, clk) := monotonic clk in
      let deadline := PrimFloat.add t0 time_limit in
      '(arena, rng, clk, iterations) ←
        search_loop fuel fuel deadline [root] rng clk 0;
      '(m, rng) ← mcts_finish legal arena rng;
      Ret (m, rng, clk)
  end.

(** The state of the search when the [while] loop has ended: the tree and
    the local [iterations]. *)
Definition mcts_tree (fuel : nat) (board : Board) (time_limit : float)
    (rng : Rng) (clk : Clk) : res (list Node * Z) :=
  let '(root, rng) := new_node rng board None None in
  let '(t0, clk) := monotonic clk in
  let deadline := PrimFloat.add t0 time_limit in
  '(arena, rng, clk, iterations) ←
    search_loop fuel fuel deadline [root] rng clk 0;
  Ret (arena, iterations).

(** *** Vocabulary for the tree *)

(** The colour whose move led to a node: [board.turn] is the side to move
    next, so the side that just moved is the other one. *)
Definition mover (n : Node) : Color :=
  match turn (node_board n) with
  | WHITE => BLACK
  | BLACK => WHITE
  end.

(** The accumulator as [_backpropagate] leaves it: the result is added at a
    node a White move led to and subtracted at one a Black move led to. *)
Definition updated_total (n : Node) (result_white : float) : float :=
  match mover n with
  | WHITE => PrimFloat.add (node_total_value n) result_white
  | BLACK => PrimFloat.sub (node_total_value n) result_white
  end.

(** The accumulator with the signs the other way round: added as it is at
    a node a Black move led to, subtracted at one a White move led to. *)
Definition claimed_total (n : Node) (result_white : float) : float :=
  match mover n with
  | BLACK => PrimFloat.add (node_total_value n) result_white
  | WHITE => PrimFloat.sub (node_total_value n) result_white
  end.

(** The nodes [backprop_loop] walks through, starting at [current]. *)
Fixpoint path_to_root (fuel : nat) (arena : list Node) (current : option nat)
    : list nat :=
  match current with
  | None => []
  | Some c =>
      match fuel with
      | O => []
      | S fuel' =>
          match arena !! c with
          | None => []
          | Some n => c :: path_to_root fuel' arena (node_parent n)
          end
      end
  end.

Definition parents_decrease (arena : list Node) : Prop :=
  forall (i : nat) (n : Node) (p : nat),
    arena !! i = Some n -> node_parent n = Some p -> (p < i)%nat.

Definition visits_at (arena : list Node) (i : nat) : Z :=
  match arena !! i with
  | Some n => node_visits n
  | None => 0
  end.

(** The sum of the visit counts of the nodes [ids]. *)
Definition sum_visits (arena : list Node) (ids : list nat) : Z :=
  sumZ (map (visits_at arena) ids).

(** What holds of the links and counters of the tree between two passes of
    the search loop. *)
Record tree_ok (arena : list Node) : Prop := mk_tree_ok {
  ok_root : exists r, arena !! 0%nat = Some r /\ node_parent r = None;
  ok_parent : forall i n, arena !! i = Some n -> i <> 0%nat ->
    exists p, node_parent n = Some p /\ (p < i)%nat;
  ok_children : forall p n c, arena !! p = Some n ->
    (In c (node_children n) <->
     exists cn, arena !! c = Some cn /\ node_parent cn = Some p);
  ok_nodup : forall p n, arena !! p = Some n -> NoDup (node_children n);
  ok_visits : forall c cn, arena !! c = Some cn -> 0 <= node_visits cn;
  ok_visits_le : forall c cn p pn, arena !! c = Some cn ->
    node_parent cn = Some p -> arena !! p = Some pn ->
    node_visits cn <= node_visits pn
}.

(** What holds of the moves of the tree. *)
Record moves_ok (arena : list Node) : Prop := mk_moves_ok {
  ok_count : forall p n, arena !! p = Some n ->
    (length (node_children n) + length (node_untried_moves n))%nat
    = length (legal_moves (node_board n));
  ok_untried : forall p n m, arena !! p = Some n ->
    In m (node_untried_moves n) -> In m (legal_moves (node_board n));
  ok_moves : forall c cn p pn, arena !! c = Some cn ->
    node_parent cn = Some p -> arena !! p = Some pn ->
    exists m, node_move cn = Some m /\ In m (legal_moves (node_board pn))
}.

(** The visit accounting after [iterations] passes. *)
Definition accounting (arena : list Node) (iterations : Z) : Prop :=
  exists root, arena !! 0%nat = Some root
    /\ node_visits root = iterations
    /\ sum_visits arena (node_children root) = iterations.

(** *** What the engine assumes of its collaborators *)

(** A position that is not over has a legal move. *)
Definition moves_law : Prop :=
  forall b : Board, is_game_over b = false -> legal_moves b <> [].

Definition shuffle_law : Prop :=
  forall (g : Rng) (l : list Move), Permutation (fst (shuffle g l)) l.

Definition choice_law : Prop :=
  forall (g : Rng) (l : list Move), l <> [] -> In (fst (choice g l)) l.

(** The argument of the square root in [_ucb1] is not negative: the
    logarithm of a positive count over a positive count. *)
Definition radicand_law : Prop :=
  forall n v : Z, 1 <= n -> 1 <= v ->
    PrimFloat.ltb (PrimFloat.div (math_log_float (float_of_Z n)) (float_of_Z v))
      0%float = false.

(** The clock reaches the deadline at its [n+1]-th reading at the latest. *)
Fixpoint clock_passes (n : nat) (deadline : float) (clk : Clk) : bool :=
  let '(now, clk) := monotonic clk in
  if PrimFloat.ltb now deadline then
    match n with
    | O => false
    | S n' => clock_passes n' deadline clk
    end
  else true.

(** The position at the root of the tree. *)
Definition root_board (arena : list Node) (b : Board) : Prop :=
  exists r, arena !! 0%nat = Some r /\ node_board r = b.

(** Two arenas that differ in visit counts and accumulators only. *)
Definition same_links (arena arena' : list Node) : Prop :=
  length arena' = length arena
  /\ forall i n, arena !! i = Some n ->
       exists n', arena' !! i = Some n'
         /\ node_board n' = node_board n /\ node_parent n' = node_parent n
         /\ node_move n' = node_move n /\ node_children n' = node_children n
         /\ node_untried_moves n' = node_untried_moves n.

(** The arena after [_expand] at [i]: node [i] with one more child and one
    untried move less, and the child at the end. *)
Definition expanded (arena : list Node) (i : nat) (n : Node)
    (untried : list Move) (child : Node) : list Node :=
  <[i := mkNode (node_board n) (node_parent n) (node_move n)
           (node_children n ++ [length arena]) untried
           (node_visits n) (node_total_value n)]> arena ++ [child].

Definition laws : Prop := moves_law /\ shuffle_law /\ choice_law /\ radicand_law.

(** The clock reaches the deadline of a search of [time_limit] seconds that
    starts now after [n] passes at most. *)
Definition deadline_reached (n : nat) (time_limit : float) (clk : Clk) : bool :=
  let '(t0, clk) := monotonic clk in
  clock_passes n (PrimFloat.add t0 time_limit) clk.
End MCTS.

(** * The agents' [select_move]

    [board.copy()] makes a new board object in the state of the old one.
    The heap is the list of live board objects, a reference is an index.
    The search runs on the copy; [asyncio.to_thread] hands the call to a
    worker thread and the coroutine waits for its result. *)

Section Facade.
Context {Board : Type} `{PositionOracle Board} `{MathLib}.
Context {Rng : Type} `{RandomSource Rng} {Clk : Type} `{MonotonicClock Clk}.

(** [MinimaxAgent.select_move] for an agent of depth [depth]. *)
Definition minimax_select_move (fuel : nat) (depth : Z) (heap : list Board)
    (board : nat) : outcome (list Board) Move :=
  match heap !! board with
  | None => OutOfFuel
  | Some b =>
      let board_copy := length heap in
      let heap := heap ++ [b] in
      match _search_root fuel b depth with
      | Ok m b' => Ok m (<[board_copy := b']> heap)
      | Raise e b' => Raise e (<[board_copy := b']> heap)
      | OutOfFuel => OutOfFuel
      end
  end.

(** [MCTSAgent.select_move] for an agent of time limit [time_limit]: the
    result of the search and the heap it leaves. *)
Definition mcts_select_move (fuel : nat) (time_limit : float) (heap : list Board)
    (board : nat) (rng : Rng) (clk : Clk)
    : res (option Move * Rng * Clk) * list Board :=
  match heap !! board with
  | None => (Stuck, heap)
  | Some b =>
      let heap := heap ++ [b] in
      (_mcts_search fuel b time_limit rng clk, heap)
  end.
End Facade.

(** * Fixtures

    Small positions with a list of moves, as test fixtures for the engines.  A fixture board is the fixture and the moves played on it,
    newest first; the game is declared drawn by stalemate once a move has
    been played, so a fixture is a game tree one ply deep. *)

Record Fixture := mkFixture {
  fx_pieces : list (Square * Piece);
  fx_turn : Color;
  fx_moves : list Move;
  fx_insufficient : bool
}.

Definition FixtureBoard : Type := Fixture * list Move.

Fixpoint fx_lookup (pieces : list (Square * Piece)) (sq : Square) : option Piece :=
  match pieces with
  | [] => None
  | (s, p) :: rest => if Nat.eqb s sq then Some p else fx_lookup rest sq
  end.

(** The occupant of a square after the moves of [hist] (newest first). *)
Fixpoint fx_piece_at (pieces : list (Square * Piece)) (hist : list Move)
    (sq : Square) : option Piece :=
  match hist with
  | [] => fx_lookup pieces sq
  | m :: older =>
      if Nat.eqb sq (to_square m) then
        match fx_piece_at pieces older (from_square m), promotion m with
        | Some p, Some k => Some (mkPiece k (color p))
        | occupant, _ => occupant
        end
      else if Nat.eqb sq (from_square m) then None
      else fx_piece_at pieces older sq
  end.

Definition flip (c : Color) : Color :=
  match c with WHITE => BLACK | BLACK => WHITE end.

Fixpoint fx_turn_after (c : Color) (hist : list Move) : Color :=
  match hist with
  | [] => c
  | _ :: older => flip (fx_turn_after c older)
  end.

Definition fx_played (b : FixtureBoard) : bool :=
  match snd b with [] => false | _ => true end.

(** No move is left: one has been played, or the fixture lists none. *)
Definition fx_stuck (b : FixtureBoard) : bool :=
  fx_played b || match fx_moves (fst b) with [] => true | _ => false end.

#[global] Instance fixture_oracle : PositionOracle FixtureBoard := {|
  legal_moves b := if fx_played b then [] else fx_moves (fst b);
  push b m := (fst b, m :: snd b);
  pop b := (fst b, tl (snd b));
  piece_at b sq := fx_piece_at (fx_pieces (fst b)) (snd b) sq;
  turn b := fx_turn_after (fx_turn (fst b)) (snd b);
  is_checkmate b := false;
  is_stalemate b := fx_stuck b;
  is_insufficient_material b := fx_insufficient (fst b);
  can_claim_draw b := false;
  is_game_over b := fx_stuck b || fx_insufficient (fst b);
  is_check b := false;
  is_capture b m :=
    match fx_piece_at (fx_pieces (fst b)) (snd b) (to_square m) with
    | Some _ => true
    | None => false
    end;
  result b := if fx_stuck b || fx_insufficient (fst b) then Draw else Unfinished
|}.

(** A library whose logarithm is not a number, and a generator that leaves
    the order and picks the first element: enough to run the engine. *)
#[global] Instance fixture_math : MathLib := {|
  math_log_float _ := nan;
  math_tanh x := x
|}.

#[global] Instance fixture_rng : RandomSource unit := {|
  shuffle _ l := (l, tt);
  choice _ l := (hd (mkMove 0 0 None) l, tt)
|}.

(** A clock that advances one second per reading. *)
#[global] Instance fixture_clock : MonotonicClock Z := {|
  monotonic t := (float_of_Z t, t + 1)
|}.

Definition wK := mkPiece KING WHITE.
Definition wN := mkPiece KNIGHT WHITE.
Definition bK := mkPiece KING BLACK.
Definition bN := mkPiece KNIGHT BLACK.
Definition bP := mkPiece PAWN BLACK.
Definition bR := mkPiece ROOK BLACK.

(** White: Ka1, Nh1.  Black: Kh8, pawn a2, Ng3.  White to move; the legal
    moves are Kxa2, Kb2, Nf2 and Nxg3. *)
Definition Kxa2 := mkMove 0 8 None.
Definition Kb2 := mkMove 0 9 None.
Definition Nf2 := mkMove 7 13 None.
Definition Nxg3 := mkMove 7 22 None.

Definition two_captures : FixtureBoard :=
  (mkFixture [(0%nat, wK); (7%nat, wN); (63%nat, bK); (8%nat, bP); (22%nat, bN)]
     WHITE [Kxa2; Kb2; Nf2; Nxg3] false, []).

(** White: Ka1.  Black: Kh8, Rb8.  White to move; Ka2 is the only legal
    move. *)
Definition Ka2 := mkMove 0 8 None.

Definition only_move : FixtureBoard :=
  (mkFixture [(0%nat, wK); (63%nat, bK); (57%nat, bR)] WHITE [Ka2] false, []).

(** White: Ka1.  Black: Kh8.  Bare kings: the game is over by insufficient
    material, and White still has three legal moves. *)
Definition Kb1 := mkMove 0 1 None.

Definition bare_kings : FixtureBoard :=
  (mkFixture [(0%nat, wK); (63%nat, bK)] WHITE [Ka2; Kb1; Kb2] true, []).

(** White: Ka1.  Black: Kh8, pawn a2.  Black to move; the king has three
    moves, Kh7 listed last. *)
Definition black_to_move : FixtureBoard :=
  (mkFixture [(0%nat, wK); (63%nat, bK); (8%nat, bP)] BLACK
     [mkMove 63 54 None; mkMove 63 62 None; mkMove 63 55 None] false, []).

(** The tree of [black_to_move] once its root has been expanded: node 1 is
    the position after Black's Kh7. *)
Definition reply_tree : list (@Node FixtureBoard) :=
  match _expand [fst (new_node tt black_to_move None None)] tt 0%nat with
  | Ret (_, arena, _) => arena
  | _ => []
  end.

(** * Further vocabulary *)

(** The square at the same file on the opposite rank. *)
Definition mirror_square (sq : Square) : Square :=
  ((7 - sq / 8) * 8 + sq mod 8)%nat.

Definition swap_color (p : Piece) : Piece :=
  mkPiece (piece_type p) (flip (color p)).

Section Mirror.
Context {Board : Type} `{PositionOracle Board}.

(** [b'] is [b] seen from the other side: the placement mirrored across the
    board with the colours exchanged, the other side to move, and the same
    verdicts of the oracle. *)
Definition mirrored (b b' : Board) : Prop :=
  (forall sq, (sq < 64)%nat ->
     piece_at b' (mirror_square sq) = option_map swap_color (piece_at b sq))
  /\ turn b' = flip (turn b)
  /\ is_checkmate b' = is_checkmate b
  /\ is_stalemate b' = is_stalemate b
  /\ is_insufficient_material b' = is_insufficient_material b
  /\ can_claim_draw b' = can_claim_draw b.

(** The score the reference search gives a move at the root. *)
Definition root_score (depth : nat) (board : Board) (move : Move) : Z :=
  - exhaustive_negamax (depth - 1) (push board move).
End Mirror.

#[global] Instance Piece_eq_dec : EqDecision Piece.
Proof. solve_decision. Defined.

(** The fixture [two_captures] seen from the other side: Black Ka8, Nh8;
    White Kh1, pawn a7, Ng6; Black to move. *)
Definition two_captures_mirrored : FixtureBoard :=
  (mkFixture [(56%nat, bK); (63%nat, bN); (7%nat, wK);
              (48%nat, mkPiece PAWN WHITE); (46%nat, wN)]
     BLACK [mkMove 56 48 None; mkMove 56 49 None; mkMove 63 53 None;
            mkMove 63 46 None] false, []).

(** White: Ka1, Ra7, Rb6 to move; Black: Kh8.  Rb8 mates; the fixture lists
    it with two other moves of White. *)
Definition wR := mkPiece ROOK WHITE.
Definition Rb8 := mkMove 41 57 None.
Definition Kb1' := mkMove 0 1 None.

(** A fixture like the others whose game is over, by checkmate, exactly after
    the move [fm_mate]. *)
Record MateFixture := mkMateFixture {
  fm_pieces : list (Square * Piece);
  fm_moves : list Move;
  fm_mate : Move
}.

Definition MateBoard : Type := MateFixture * list Move.

Definition fm_mated (b : MateBoard) : bool :=
  match snd b with
  | [m] => bool_decide (m = fm_mate (fst b))
  | _ => false
  end.

Definition fm_stuck (b : MateBoard) : bool :=
  match snd b with
  | [] => match fm_moves (fst b) with [] => true | _ => false end
  | _ => true
  end.

#[global] Instance mate_oracle : PositionOracle MateBoard := {|
  legal_moves b := match snd b with [] => fm_moves (fst b) | _ => [] end;
  push b m := (fst b, m :: snd b);
  pop b := (fst b, tl (snd b));
  piece_at b sq := fx_piece_at (fm_pieces (fst b)) (snd b) sq;
  turn b := fx_turn_after WHITE (snd b);
  is_checkmate b := fm_mated b;
  is_stalemate b := fm_stuck b && negb (fm_mated b);
  is_insufficient_material b := false;
  can_claim_draw b := false;
  is_game_over b := fm_stuck b;
  is_check b := fm_mated b;
  is_capture b m :=
    match fx_piece_at (fm_pieces (fst b)) (snd b) (to_square m) with
    | Some _ => true
    | None => false
    end;
  result b := if fm_mated b then WhiteWins
              else if fm_stuck b then Draw else Unfinished
|}.

Definition back_rank_mate : MateBoard :=
  (mkMateFixture [(0%nat, wK); (48%nat, wR); (41%nat, wR); (63%nat, bK)]
     [Kb1'; mkMove 48 49 None; Rb8] Rb8, []).

Section MctsVocabulary.
Context {Board : Type} `{PositionOracle Board} `{MathLib}.
Context {Rng : Type} `{RandomSource Rng} {Clk : Type} `{MonotonicClock Clk}.

(** A line of play: every move is legal where it is played, and the game
    is not over before it. *)
Fixpoint legal_line (b : Board) (line : list Move) : Prop :=
  match line with
  | [] => True
  | m :: rest =>
      is_game_over b = false /\ In m (legal_moves b)
      /\ legal_line (push b m) rest
  end.

(** The outcome of a rollout that ends in the position [sim]. *)
Definition rollout_value (sim : Board) : float :=
  if is_game_over sim then
    match result sim with
    | WhiteWins => 1%float
    | BlackWins => (-1)%float
    | _ => 0%float
    end
  else _material_eval sim.

(** The number of pieces of a kind and a colour on the board. *)
Definition count_pieces (b : Board) (k : PieceType) (c : Color) (l : list Square) : Z :=
  Z.of_nat (length (List.filter
    (fun sq => bool_decide (piece_at b sq = Some (mkPiece k c))) l)).

Definition PIECE_TYPES : list PieceType := [PAWN; KNIGHT; BISHOP; ROOK; QUEEN; KING].

(** Material by counting: each kind's value times the difference of the two
    sides' counts. *)
Definition material_by_count (b : Board) (l : list Square) : Z :=
  sumZ (map (fun k => _PIECE_VALUES k
                      * (count_pieces b k WHITE l - count_pieces b k BLACK l))
          PIECE_TYPES).

(** The number of consecutive clock readings below the deadline, among the
    first [fuel]. *)
Fixpoint readings_below (fuel : nat) (deadline : float) (clk : Clk) : nat :=
  match fuel with
  | O => O
  | S fuel' =>
      let '(now, clk) := monotonic clk in
      if PrimFloat.ltb now deadline then S (readings_below fuel' deadline clk)
      else O
  end.
(** The position of every child is the position of its parent with the
    child's move played. *)
Definition boards_ok (arena : list (@Node Board)) : Prop :=
  forall c cn p pn, arena !! c = Some cn -> node_parent cn = Some p ->
    arena !! p = Some pn ->
    exists m, node_move cn = Some m /\ node_board cn = push (node_board pn) m.

(** Every child was reached by a legal move of its parent's position. *)
Definition reached_by_legal_moves (arena : list (@Node Board)) : Prop :=
  forall c cn p pn, arena !! c = Some cn -> node_parent cn = Some p ->
    arena !! p = Some pn ->
    exists m, node_move cn = Some m /\ In m (legal_moves (node_board pn))
              /\ node_board cn = push (node_board pn) m.

(** Every node of the tree other than the root has been visited. *)
Definition every_child_visited (arena : list (@Node Board)) : Prop :=
  forall i n, arena !! i = Some n -> i <> 0%nat -> 1 <= node_visits n.
End MctsVocabulary.

(** * The random agent, the game record, the analysis and the service

    [agents/random_agent.py], [engine/game.py], [engine/analysis.py] and the
    move endpoint of [main.py]. *)

(** What these modules ask of python-chess and of Python beyond the search
    core's oracle. *)
Class ServiceOracle (Board : Type) := {
  starting_board : Board;
  (** [board.is_game_over(claim_draw=True)] *)
  is_over_claim : Board -> bool;
  (** [board.outcome(claim_draw=True)]: [None], or an outcome and its
      [winner], itself [None] for a draw *)
  outcome_claim : Board -> option (option Color);
  fen : Board -> string;
  uci : Move -> string;
  (** [round(x, 6)] *)
  round6 : float -> float
}.

Section RandomAgent.
Context {Board : Type} `{PositionOracle Board} {Rng : Type} `{RandomSource Rng}.

(** [RandomAgent.select_move] *)
Definition random_select_move (board : Board) (rng : Rng) : res (Move * Rng) :=
  let legal_moves := legal_moves board in
  match legal_moves with
  | [] => Err ValueError
  | _ => Ret (choice rng legal_moves)
  end.
End RandomAgent.

Section Game.
Context {Board : Type} `{PositionOracle Board} `{ServiceOracle Board}.

Record Game := mkGame {
  game_id : string;
  game_board : Board;
  game_white : string;
  game_black : string;
  game_moves : list string;
  game_timestamps : list float;
  game_result : option string;
  game_created_at : string
}.

(** [Game.__init__]; [created_at] is the time of the call. *)
Definition new_game (id white black created_at : string) : Game :=
  mkGame id starting_board white black [] [] None created_at.

Definition is_over (g : Game) : bool := is_over_claim (game_board g).

Definition get_result (g : Game) : string :=
  if negb (is_over g) then "*"%string
  else
    match outcome_claim (game_board g) with
    | None => "*"%string
    | Some None => "1/2-1/2"%string
    | Some (Some WHITE) => "1-0"%string
    | Some (Some BLACK) => "0-1"%string
    end.

(** [Game.apply_move]: the game as the call leaves it, and whether it raised. *)
Definition apply_move (g : Game) (move : Move) (elapsed : float)
    : outcome Game unit :=
  if negb (bool_decide (move ∈ legal_moves (game_board g))) then
    Raise ValueError g
  else
    let g := mkGame (game_id g) (push (game_board g) move) (game_white g)
               (game_black g) (game_moves g ++ [uci move])
               (game_timestamps g ++ [elapsed]) (game_result g)
               (game_created_at g) in
    if is_over g then
      Ok tt (mkGame (game_id g) (game_board g) (game_white g) (game_black g)
               (game_moves g) (game_timestamps g) (Some (get_result g))
               (game_created_at g))
    else Ok tt g.

(** A game after a series of [apply_move] calls, whatever each one did. *)
Definition after_call (g : Game) (call : Move * float) : Game :=
  match apply_move g (fst call) (snd call) with
  | Ok _ g' => g'
  | Raise _ g' => g'
  | OutOfFuel => g
  end.

Definition after_calls (g : Game) (calls : list (Move * float)) : Game :=
  fold_left after_call calls g.

(** Moves played one after the other, each legal where it is played. *)
Fixpoint playable (b : Board) (line : list Move) : Prop :=
  match line with
  | [] => True
  | m :: rest => In m (legal_moves b) /\ playable (push b m) rest
  end.

(** The calls of a series that [apply_move] accepts, from the position [b]
    on: those whose move is legal in the position the calls accepted before
    it have led to. *)
Fixpoint accepted_calls (b : Board) (calls : list (Move * float))
    : list (Move * float) :=
  match calls with
  | [] => []
  | call :: rest =>
      if bool_decide (fst call ∈ legal_moves b)
      then call :: accepted_calls (push b (fst call)) rest
      else accepted_calls b rest
  end.

(** ** [engine/analysis.py] *)

(** [len(board.pieces(piece_type, color))]: the squares that hold such a
    piece. *)
Definition pieces_count (board : Board) (k : PieceType) (c : Color) : Z :=
  count_pieces board k c SQUARES.

(** The analysis values pieces in pawns and has no entry for the king. *)
Definition ANALYSIS_PIECE_VALUES : list (PieceType * Z) :=
  [(PAWN, 1); (KNIGHT, 3); (BISHOP, 3); (ROOK, 5); (QUEEN, 9)].

Definition analysis_value (k : PieceType) : Z :=
  match k with
  | PAWN => 1
  | KNIGHT => 3
  | BISHOP => 3
  | ROOK => 5
  | QUEEN => 9
  | KING => 0
  end.

Definition _material_sum (board : Board) (c : Color) : Z :=
  fold_left (fun total entry => total + pieces_count board (fst entry) c * snd entry)
    ANALYSIS_PIECE_VALUES 0.

Definition _heavy_material (board : Board) (c : Color) : Z :=
  fold_left (fun total k => total + pieces_count board k c * analysis_value k)
    [KNIGHT; BISHOP; ROOK; QUEEN] 0.

Definition _STARTING_HEAVY_MATERIAL : Z := 31.

(** The classification of a total of non-pawn material. *)
Definition phase_of_total (total_heavy : Z) : string :=
  let max_heavy := _STARTING_HEAVY_MATERIAL * 2 in
  let ratio :=
    if max_heavy =? 0 then 0%float
    else PrimFloat.div (float_of_Z total_heavy) (float_of_Z max_heavy) in
  if PrimFloat.ltb 0.75%float ratio then "opening"%string
  else if PrimFloat.ltb 0.30%float ratio then "middlegame"%string
  else "endgame"%string.

Definition _game_phase (board : Board) : string :=
  let total_heavy := _heavy_material board WHITE + _heavy_material board BLACK in
  phase_of_total total_heavy.

(** The phases in points of non-pawn material. *)
Definition phase_by_points (t : Z) : string :=
  if 47 <=? t then "opening"%string
  else if 19 <=? t then "middlegame"%string
  else "endgame"%string.

(** ** The move endpoint of [main.py] *)

(** What a handler does: it answers, or it fails with a status code, or the
    agent gave no answer within the model's budget. *)
Inductive http (A : Type) :=
  | Respond (a : A)
  | Fail (status : Z)
  | NoAnswer.
#[global] Arguments Respond {A} a.
#[global] Arguments Fail {A} status.
#[global] Arguments NoAnswer {A}.

Record MoveResponse := mkMoveResponse {
  response_move : string;
  response_fen : string;
  response_is_over : bool;
  response_result : option string;
  response_elapsed : float
}.

(** An agent as the service sees it: a position in, a move or an exception
    out. *)
Definition Agent : Type := Board -> res Move.

(** [make_move]: the games as the call leaves them, and its answer.
    [start] and [stop] are the two readings of [time.perf_counter()]. *)
Definition make_move (games : gmap string Game) (agents : gmap string Agent)
    (id : string) (start stop : float)
    : gmap string Game * http MoveResponse :=
  match games !! id with
  | None => (games, Fail 404)
  | Some game =>
      if is_over game then (games, Fail 400)
      else
        let agent_name :=
          match turn (game_board game) with
          | WHITE => game_white game
          | BLACK => game_black game
          end in
        match agents !! agent_name with
        | None => (games, Fail 404)
        | Some agent =>
            match agent (game_board game) with
            | Stuck => (games, NoAnswer)
            | Err ValueError => (games, Fail 400)
            | Err _ => (games, Fail 500)
            | Ret selected_move =>
                let elapsed := PrimFloat.sub stop start in
                if negb (bool_decide (selected_move
                                        ∈ legal_moves (game_board game)))
                then (games, Fail 400)
                else
                  match apply_move game selected_move elapsed with
                  | Ok _ game' =>
                      (<[id := game']> games,
                       Respond (mkMoveResponse (uci selected_move)
                                  (fen (game_board game')) (is_over game')
                                  (game_result game') (round6 elapsed)))
                  | Raise _ game' => (<[id := game']> games, Fail 500)
                  | OutOfFuel => (games, NoAnswer)
                  end
            end
        end
  end.

(** A game that is not over, draws by claim included, has a legal move. *)
Definition running_law : Prop :=
  forall b : Board, is_over_claim b = false -> legal_moves b <> [].
End Game.

Section Service.
Context {Board : Type} `{PositionOracle Board} `{ServiceOracle Board}.
Context {Rng : Type} `{RandomSource Rng}.

(** The random agent as the service calls it, [rng] being the state of
    Python's generator at the call. *)
Definition random_agent (rng : Rng) : @Agent Board :=
  fun board =>
    match random_select_move board rng with
    | Ret (m, _) => Ret m
    | Err e => Err e
    | Stuck => Stuck
    end.

(** [_AGENT_REGISTRY] as [main.py] fills it: [RandomAgent()], under its
    default name. *)
Definition _AGENT_REGISTRY (rng : Rng) : gmap string (@Agent Board) :=
  {[ "random"%string := random_agent rng ]}.

Record NewGameResponse := mkNewGameResponse {
  new_game_id : string;
  new_white : string;
  new_black : string;
  new_fen : string
}.

(** The endpoint [new_game] of [main.py] (the name [new_game] is taken by
    [Game.__init__] above); [game_id] is the identifier drawn by
    [uuid.uuid4()] and [created_at] the time of the call. *)
Definition new_game_endpoint (games : gmap string Game)
    (agents : gmap string (@Agent Board)) (white black game_id created_at : string)
    : gmap string Game * http NewGameResponse :=
  match agents !! white with
  | None => (games, Fail 404)
  | Some _ =>
      match agents !! black with
      | None => (games, Fail 404)
      | Some _ =>
          let game := new_game game_id white black created_at in
          (<[game_id := game]> games,
           Respond (mkNewGameResponse game_id white black
                      (fen (game_board game))))
      end
  end.

(** The stores of games the service can hold: it starts with none, and
    games are created and played through the two endpoints only, each call
    with the registry of [main.py] and some state of the generator. *)
Inductive reachable : gmap string Game -> Prop :=
  | reach_start : reachable ∅
  | reach_new_game games rng white black game_id created_at :
      reachable games ->
      reachable (fst (new_game_endpoint games (_AGENT_REGISTRY rng)
                        white black game_id created_at))
  | reach_make_move games rng id start stop :
      reachable games ->
      reachable (fst (make_move games (_AGENT_REGISTRY rng) id start stop)).
End Service.

#[global] Instance fixture_service : ServiceOracle FixtureBoard := {|
  starting_board := two_captures;
  is_over_claim b := fx_stuck b || fx_insufficient (fst b);
  outcome_claim b :=
    if fx_stuck b || fx_insufficient (fst b) then Some None else None;
  fen b := ""%string;
  uci m := ""%string;
  round6 x := x
|}.

(** A game on a finished position, and the store of a service with one
    running game. *)
Definition finished_game : @Game FixtureBoard :=
  mkGame "g0" bare_kings "random" "random" [] [] None "t0".

Definition fixture_games : gmap string (@Game FixtureBoard) :=
  {[ "g1"%string := new_game "g1" "random" "random" "t0" ]}.

Definition fixture_agents : gmap string (@Agent FixtureBoard) :=
  _AGENT_REGISTRY tt.

(** * Properties *)

(** ** Evaluation *)

Section EvaluationFacts.
Context {Board : Type} `{PositionOracle Board}.

Lemma evaluate_loop_sum (board : Board) (l : list Square) (acc : Z) :
  fold_left (evaluate_step board) l acc = acc + sumZ (map (square_term board) l).
Proof.
  revert acc. induction l as [|sq l IH]; intros acc; simpl.
  - lia.
  - rewrite IH. unfold evaluate_step, square_term, piece_base_value,
      positional_table_bonus.
    destruct (piece_at board sq) as [[k []]|]; simpl; lia.
Qed.

Lemma occupied_filter_sum (board : Board) (l : list Square) :
  sumZ (map (square_term board) (filter (fun sq => occupied board sq = true) l))
  = sumZ (map (square_term board) l).
Proof.
  induction l as [|sq l IH]; [reflexivity|].
  rewrite filter_cons. destruct (decide (occupied board sq = true)) as [Ho|Ho]; simpl.
  - now rewrite IH.
  - rewrite IH. unfold occupied in Ho. unfold square_term.
    destruct (piece_at board sq); [congruence|lia].
Qed.

(** C2: the static evaluation is the mate sentinel negated for a checkmated
    side to move, 0 for a stalemate, insufficient material or a claimable
    draw, and otherwise the signed sum over the occupied squares of base
    value plus table bonus, negated when Black is to move. *)
Theorem evaluate_meets_spec (board : Board) :
  evaluate board = evaluate_spec board.
Proof.
  unfold evaluate, evaluate_spec, board_total, CHECKMATE_SCORE.
  rewrite occupied_filter_sum, evaluate_loop_sum, Z.add_0_l.
  destruct (is_checkmate board); [reflexivity|].
  destruct (is_stalemate board); [reflexivity|].
  destruct (is_insufficient_material board); [reflexivity|].
  destruct (can_claim_draw board); [reflexivity|].
  cbn [orb]. reflexivity.
Qed.

Lemma table_entry_bound (l : list Z) (i : nat) :
  forallb (fun x => (-50 <=? x) && (x <=? 50)) l = true ->
  -50 <= idx 0 l i <= 50.
Proof.
  intros Hall. unfold idx.
  destruct (nth_in_or_default i l 0) as [Hin|Hd].
  - rewrite forallb_forall in Hall. specialize (Hall _ Hin). lia.
  - rewrite Hd. lia.
Qed.

Lemma bonus_bound (k : PieceType) (sq : Square) (c : Color) :
  -50 <= positional_table_bonus k sq c <= 50.
Proof.
  unfold positional_table_bonus.
  destruct c, k; apply table_entry_bound; vm_compute; reflexivity.
Qed.

Lemma square_term_bound (board : Board) (sq : Square) :
  -950 <= square_term board sq <= 950.
Proof.
  unfold square_term.
  destruct (piece_at board sq) as [[k c]|]; simpl; [|lia].
  pose proof (bonus_bound k sq c).
  unfold piece_base_value.
  destruct c, k; simpl PIECE_VALUES; lia.
Qed.

Lemma sum_terms_bound (board : Board) (l : list Square) :
  - (950 * Z.of_nat (length l)) <= sumZ (map (square_term board) l)
    <= 950 * Z.of_nat (length l).
Proof.
  induction l as [|sq l IH]; simpl sumZ; simpl length; [lia|].
  pose proof (square_term_bound board sq). lia.
Qed.

(** The mate sentinel exceeds every attainable material score. *)
Lemma evaluate_bound (board : Board) :
  - CHECKMATE_SCORE <= evaluate board <= CHECKMATE_SCORE.
Proof.
  unfold evaluate, CHECKMATE_SCORE.
  destruct (is_checkmate board); [lia|].
  destruct (_ || _); [lia|].
  cbv zeta. rewrite evaluate_loop_sum.
  pose proof (sum_terms_bound board SQUARES) as Hb.
  change (length SQUARES) with 64%nat in Hb.
  destruct (turn board); lia.
Qed.

(** The Black-oriented table is the White-oriented one mirrored vertically:
    the same file, rank [7 - r]. *)
Lemma pst_black_is_mirrored_white (k : PieceType) (r f : nat) :
  (r < 8)%nat -> (f < 8)%nat ->
  idx 0 (PST_BLACK k) (r * 8 + f) = idx 0 (PST_WHITE k) ((7 - r) * 8 + f).
Proof.
  intros Hr Hf.
  do 8 (destruct r as [|r]; [do 8 (destruct f as [|f]; [destruct k; reflexivity|]); lia|]).
  lia.
Qed.
End EvaluationFacts.

(** ** The stable sort *)

Section StableSort.
Context {A : Type}.
Implicit Types (x : Z * A) (l : list (Z * A)).

Lemma insert_by_key_perm x l : Permutation (insert_by_key x l) (x :: l).
Proof.
  induction l as [|y l IH]; simpl; [reflexivity|].
  destruct (fst x <=? fst y); [reflexivity|].
  rewrite IH. apply perm_swap.
Qed.

Lemma sort_by_key_perm l : Permutation (sort_by_key l) l.
Proof.
  induction l as [|x l IH]; simpl; [reflexivity|].
  rewrite insert_by_key_perm. now constructor.
Qed.

Lemma insert_by_key_sorted x l :
  StronglySorted key_le l -> StronglySorted key_le (insert_by_key x l).
Proof.
  induction 1 as [|y l Hs IH Hall]; simpl.
  - repeat constructor.
  - destruct (Z.leb_spec (fst x) (fst y)) as [Hle|Hgt].
    + constructor; [now constructor|].
      constructor; [exact Hle|].
      eapply Forall_impl; [exact Hall|]. unfold key_le. intros z Hz. lia.
    + constructor; [exact IH|].
      eapply Permutation_Forall; [symmetry; apply insert_by_key_perm|].
      constructor; [unfold key_le; lia|exact Hall].
Qed.

Lemma sort_by_key_sorted l : StronglySorted key_le (sort_by_key l).
Proof.
  induction l as [|x l IH]; simpl; [constructor|].
  now apply insert_by_key_sorted.
Qed.

Lemma insert_by_key_with_key_other k x l :
  fst x <> k -> with_key k (insert_by_key x l) = with_key k l.
Proof.
  intros Hne. unfold with_key.
  assert (Hx : (fst x =? k) = false) by (apply Z.eqb_neq; exact Hne).
  induction l as [|y l IH]; cbn [insert_by_key List.filter].
  - now rewrite Hx.
  - destruct (fst x <=? fst y); cbn [List.filter].
    + now rewrite Hx.
    + now rewrite IH.
Qed.

Lemma insert_by_key_with_key_same x l :
  StronglySorted key_le l ->
  with_key (fst x) (insert_by_key x l) = x :: with_key (fst x) l.
Proof.
  unfold with_key.
  induction 1 as [|y l Hs IH Hall]; cbn [insert_by_key List.filter].
  - now rewrite Z.eqb_refl.
  - destruct (Z.leb_spec (fst x) (fst y)) as [Hle|Hgt]; cbn [List.filter].
    + now rewrite Z.eqb_refl.
    + destruct (Z.eqb_spec (fst y) (fst x)) as [Heq|Hne]; [lia|].
      exact IH.
Qed.

(** Stability: the elements of one key keep their order. *)
Lemma sort_by_key_stable k l : with_key k (sort_by_key l) = with_key k l.
Proof.
  induction l as [|x l IH]; cbn [sort_by_key]; [reflexivity|].
  destruct (Z.eq_dec (fst x) k) as [Heq|Hne].
  - subst k. rewrite insert_by_key_with_key_same by apply sort_by_key_sorted.
    rewrite IH. unfold with_key. cbn [List.filter]. now rewrite Z.eqb_refl.
  - rewrite insert_by_key_with_key_other by exact Hne. rewrite IH.
    unfold with_key. cbn [List.filter].
    now rewrite (proj2 (Z.eqb_neq (fst x) k) Hne).
Qed.
End StableSort.

(** ** Move ordering *)

Section MoveOrderingFacts.
Context {Board : Type} `{PositionOracle Board}.

Lemma key_of_capture (board : Board) (move : Move) :
  is_capture board move = true ->
  key_of board move
  = - (10 * victim_value board move - aggressor_value board move) - 20000
    - promotion_bonus move.
Proof.
  intros Hc. unfold key_of, _move_order_key, victim_value, aggressor_value,
    promotion_bonus.
  rewrite Hc. destruct (promotion move); simpl; lia.
Qed.

Lemma key_of_check (board : Board) (move : Move) :
  is_capture board move = false -> gives_check board move = true ->
  key_of board move = -10000 - promotion_bonus move.
Proof.
  intros Hc Hk. unfold key_of, _move_order_key, promotion_bonus.
  unfold gives_check in Hk. rewrite Hc, Hk.
  destruct (promotion move); simpl; lia.
Qed.

Lemma key_of_quiet (board : Board) (move : Move) :
  is_capture board move = false -> gives_check board move = false ->
  key_of board move = - promotion_bonus move.
Proof.
  intros Hc Hk. unfold key_of, _move_order_key, promotion_bonus.
  unfold gives_check in Hk. rewrite Hc, Hk.
  destruct (promotion move); simpl; lia.
Qed.

Lemma piece_value_range (p : PieceType) : 0 <= PIECE_VALUES p <= 900.
Proof. destruct p; simpl; lia. Qed.

Lemma promotion_bonus_range (move : Move) : 0 <= promotion_bonus move <= 900.
Proof.
  unfold promotion_bonus. destruct (promotion move) as [p|]; [|lia].
  apply piece_value_range.
Qed.

Lemma victim_value_range (board : Board) (move : Move) :
  0 <= victim_value board move <= 900.
Proof.
  unfold victim_value. destruct (piece_at _ _) as [v|]; [|simpl; lia].
  apply piece_value_range.
Qed.

Lemma aggressor_value_range (board : Board) (move : Move) :
  0 <= aggressor_value board move <= 900.
Proof.
  unfold aggressor_value. destruct (piece_at _ _) as [v|]; [|lia].
  apply piece_value_range.
Qed.

Lemma move_order_key_frame (board : Board) (move : Move) :
  undo_law -> _move_order_key board move = (key_of board move, board).
Proof.
  intros Hundo. unfold key_of.
  destruct (_move_order_key board move) as [k b'] eqn:E. simpl. f_equal.
  unfold _move_order_key in E.
  destruct (is_capture board move).
  - now inversion E.
  - rewrite Hundo in E. now inversion E.
Qed.

Lemma decorate_frame (board : Board) (moves : list Move) :
  undo_law ->
  decorate board moves = (map (fun m => (key_of board m, m)) moves, board).
Proof.
  intros Hundo. induction moves as [|m rest IH]; simpl; [reflexivity|].
  rewrite move_order_key_frame by exact Hundo. rewrite IH. reflexivity.
Qed.

Lemma ordered_moves_frame (board : Board) :
  undo_law -> _ordered_moves board = (ordered board, board).
Proof.
  intros Hundo. unfold _ordered_moves, ordered.
  rewrite decorate_frame by exact Hundo. reflexivity.
Qed.

Lemma ordered_perm (board : Board) : Permutation (ordered board) (legal_moves board).
Proof.
  unfold ordered.
  rewrite (sort_by_key_perm (map (fun m => (key_of board m, m)) (legal_moves board))).
  rewrite map_map. simpl. rewrite map_id. reflexivity.
Qed.

Lemma sorted_keys_map (f : Move -> Z) (l : list (Z * Move)) :
  Forall (fun x => fst x = f (snd x)) l ->
  StronglySorted key_le l ->
  StronglySorted (fun m1 m2 => f m1 <= f m2) (map snd l).
Proof.
  intros Hk Hs. induction Hs as [|x l Hs IH Hall]; simpl; [constructor|].
  inversion Hk as [|? ? Hx Hl]; subst.
  constructor; [now apply IH|].
  rewrite Forall_map.
  rewrite Forall_forall in Hall, Hl. apply Forall_forall. intros y Hy.
  specialize (Hall y Hy). specialize (Hl y Hy). unfold key_le in Hall. simpl. lia.
Qed.

Lemma ordered_sorted (board : Board) :
  StronglySorted (fun m1 m2 => key_of board m1 <= key_of board m2) (ordered board).
Proof.
  unfold ordered. apply sorted_keys_map; [|apply sort_by_key_sorted].
  eapply Permutation_Forall; [symmetry; apply sort_by_key_perm|].
  apply List.Forall_forall. intros x Hx. apply in_map_iff in Hx.
  destruct Hx as [m [<- _]]. reflexivity.
Qed.

Lemma filter_map_keyed (board : Board) (k : Z) (l : list (Z * Move)) :
  Forall (fun x => fst x = key_of board (snd x)) l ->
  List.filter (fun m => key_of board m =? k) (map snd l) = map snd (with_key k l).
Proof.
  induction 1 as [|x l Hx Hl IH]; simpl; [reflexivity|].
  rewrite <- Hx. destruct (fst x =? k); simpl; now rewrite IH.
Qed.

Lemma ordered_stable (board : Board) (k : Z) :
  List.filter (fun m => key_of board m =? k) (ordered board)
  = List.filter (fun m => key_of board m =? k) (legal_moves board).
Proof.
  unfold ordered.
  set (keyed := map (fun m => (key_of board m, m)) (legal_moves board)).
  assert (Hk : Forall (fun x => fst x = key_of board (snd x)) keyed).
  { apply List.Forall_forall. intros x Hx. apply in_map_iff in Hx.
    destruct Hx as [m [<- _]]. reflexivity. }
  rewrite filter_map_keyed.
  2:{ eapply Permutation_Forall; [symmetry; apply sort_by_key_perm|exact Hk]. }
  rewrite sort_by_key_stable. rewrite <- (filter_map_keyed board) by exact Hk.
  unfold keyed. rewrite map_map. simpl. now rewrite map_id.
Qed.
End MoveOrderingFacts.

(** ** Alpha-beta against the exhaustive search *)

Section NegamaxFacts.
Context {Board : Type} `{PositionOracle Board}.
Hypothesis Hundo : undo_law.

Lemma fold_max_ge (d : nat) (board : Board) (moves : list Move) (E : Z) :
  E <= fold_left (max_step (exhaustive_negamax d) board) moves E.
Proof.
  revert E. induction moves as [|m rest IH]; intros E; simpl; [lia|].
  specialize (IH (max_step (exhaustive_negamax d) board E m)).
  assert (E <= max_step (exhaustive_negamax d) board E m) by (unfold max_step; lia).
  lia.
Qed.

Lemma exhaustive_negamax_floor (d : nat) (board : Board) :
  SCORE_FLOOR <= exhaustive_negamax d board.
Proof.
  pose proof (evaluate_bound board) as Hb. unfold SCORE_FLOOR.
  destruct d as [|d]; simpl; [lia|].
  destruct (is_game_over board); [lia|].
  apply fold_max_ge.
Qed.

Lemma negamax_loop_total rec d board depth beta :
  rec_sound rec d board depth ->
  forall moves best a,
    exists v, negamax_loop rec moves depth beta best a board = Some (v, board)
              /\ best <= v.
Proof.
  intros Hrec. induction moves as [|m rest IH]; intros best a; simpl.
  - exists best. split; [reflexivity|lia].
  - destruct (Hrec m (- beta) (- a)) as (r & -> & _ & _).
    rewrite Hundo.
    set (best' := if - r >? best then - r else best).
    set (a' := if best' >? a then best' else a).
    assert (best <= best') by (unfold best'; destruct (Z.gtb_spec (- r) best); lia).
    destruct (a' >=? beta).
    + exists best'. split; [reflexivity|lia].
    + destruct (IH best' a') as (v & -> & Hv). exists v. split; [reflexivity|lia].
Qed.

Lemma negamax_loop_sound rec d board depth alpha beta :
  rec_sound rec d board depth ->
  alpha < beta ->
  forall moves best a E,
    E <= best -> (best = E \/ best <= alpha) ->
    alpha <= a -> a <= Z.max alpha best -> a < beta ->
    exists v, negamax_loop rec moves depth beta best a board = Some (v, board)
              /\ fail_soft v (fold_left (max_step (exhaustive_negamax d) board) moves E) alpha beta.
Proof.
  intros Hrec Hwin. induction moves as [|m rest IH];
    intros best a E HE Hbest Ha1 Ha2 Ha3; simpl.
  - exists best. split; [reflexivity|]. unfold fail_soft. lia.
  - destruct (Hrec m (- beta) (- a)) as (r & -> & _ & Hfs).
    specialize (Hfs ltac:(lia)). rewrite Hundo.
    set (e := - exhaustive_negamax d (push board m)).
    fold e in Hfs |- *.
    assert (Hs : (- r <= a -> e <= - r) /\ (a < - r < beta -> - r = e)
                 /\ (beta <= - r -> - r <= e)).
    { unfold fail_soft in Hfs. unfold e. lia. }
    clear Hfs.
    set (best' := if - r >? best then - r else best).
    set (a' := if best' >? a then best' else a).
    assert (Hb' : best' = Z.max best (- r)).
    { unfold best'. destruct (Z.gtb_spec (- r) best); lia. }
    assert (Ha' : a' = Z.max a best').
    { unfold a'. destruct (Z.gtb_spec best' a); lia. }
    pose proof (fold_max_ge d board rest (Z.max E e)) as Hge.
    change (max_step (exhaustive_negamax d) board E m) with (Z.max E e).
    destruct (Z.geb_spec a' beta) as [Hcut|Hgo].
    + exists best'. split; [reflexivity|]. unfold fail_soft. lia.
    + apply IH; lia.
Qed.

Lemma negamax_sound (fuel : nat) :
  forall (board : Board) (depth alpha beta : Z),
    0 <= depth -> (Z.to_nat depth < fuel)%nat ->
    exists v, _negamax fuel board depth alpha beta = Some (v, board)
              /\ SCORE_FLOOR <= v
              /\ (alpha < beta ->
                  fail_soft v (exhaustive_negamax (Z.to_nat depth) board) alpha beta).
Proof.
  induction fuel as [|fuel IH]; intros board depth alpha beta Hd Hfuel; [lia|].
  pose proof (evaluate_bound board) as Hev.
  simpl. destruct (Z.eqb_spec depth 0) as [->|Hnz]; simpl.
  { exists (evaluate board). split; [reflexivity|].
    split; [unfold SCORE_FLOOR; lia|]. intros _. unfold fail_soft. lia. }
  assert (Hto : Z.to_nat depth = S (Z.to_nat (depth - 1))) by lia.
  rewrite Hto. simpl.
  destruct (is_game_over board).
  { exists (evaluate board). split; [reflexivity|].
    split; [unfold SCORE_FLOOR; lia|]. intros _. unfold fail_soft. lia. }
  rewrite ordered_moves_frame by exact Hundo.
  assert (Hrec : rec_sound (_negamax fuel) (Z.to_nat (depth - 1)) board depth).
  { intros m a b. apply IH; lia. }
  destruct (negamax_loop_total _ _ _ _ beta Hrec (ordered board)
              (- CHECKMATE_SCORE - 1) alpha) as (v & Hv & Hfloor).
  exists v. split; [exact Hv|]. split; [exact Hfloor|].
  intros Hwin.
  destruct (negamax_loop_sound _ _ _ _ alpha beta Hrec Hwin (ordered board)
              (- CHECKMATE_SCORE - 1) alpha (- CHECKMATE_SCORE - 1))
    as (v' & Hv' & Hfs); try lia.
  rewrite Hv in Hv'. inversion Hv'; subst v'. exact Hfs.
Qed.

Lemma search_root_loop_sound rec d board depth :
  rec_sound rec d board depth ->
  forall moves bm bs,
    SCORE_FLOOR <= bs <= CHECKMATE_SCORE + 1 ->
    exists bm' bs',
      search_root_loop rec moves depth (CHECKMATE_SCORE + 1) bm bs bs board
        = Some (bm', bs', board)
      /\ fold_left (exhaustive_root_step d board) moves (bm, bs) = (bm', bs').
Proof.
  intros Hrec.
  assert (HCM : CHECKMATE_SCORE = 100000) by reflexivity.
  induction moves as [|m rest IH]; intros bm bs Hbs; simpl.
  - exists bm, bs. split; reflexivity.
  - destruct (Hrec m (- (CHECKMATE_SCORE + 1)) (- bs)) as (r & -> & Hfloor & Hfs).
    rewrite Hundo.
    pose proof (exhaustive_negamax_floor d (push board m)) as Hef.
    unfold exhaustive_root_step at 2. cbn [snd].
    unfold SCORE_FLOOR in Hbs, Hfloor, Hef.
    remember (- exhaustive_negamax d (push board m)) as e eqn:He.
    assert (Hsame : - r > bs -> e > bs /\ - r = e).
    { intros Hgt. destruct (Z.eq_dec bs (CHECKMATE_SCORE + 1)) as [Htop|Hlow]; [lia|].
      unfold fail_soft in Hfs. lia. }
    assert (Hkeep : - r <= bs -> e <= bs).
    { intros Hle. destruct (Z.eq_dec bs (CHECKMATE_SCORE + 1)) as [Htop|Hlow]; [lia|].
      unfold fail_soft in Hfs. lia. }
    destruct (Z.gtb_spec (- r) bs) as [Hup|Hno].
    + destruct (Hsame ltac:(lia)) as [He1 He2].
      destruct (Z.gtb_spec e bs) as [_|Hbad]; [|lia].
      rewrite <- He2. apply IH. unfold SCORE_FLOOR. lia.
    + specialize (Hkeep Hno).
      destruct (Z.gtb_spec e bs) as [Hbad|_]; [lia|].
      apply IH. exact Hbs.
Qed.
End NegamaxFacts.

(** ** The claims about the alpha-beta engine *)

Section MinimaxClaims.
Context {Board : Type} `{PositionOracle Board}.

Lemma negamax_loop_returns rec depth beta :
  (forall b a bt, exists v b', rec b (depth - 1) a bt = Some (v, b')) ->
  forall moves best alpha board,
    exists v b', negamax_loop rec moves depth beta best alpha board = Some (v, b').
Proof.
  intros Hrec. induction moves as [|m rest IH]; intros best alpha board; simpl.
  - eauto.
  - destruct (Hrec (push board m) (- beta) (- alpha)) as (r & b' & ->).
    destruct (_ >=? beta); [eauto|apply IH].
Qed.

Lemma negamax_returns (fuel : nat) :
  forall (board : Board) (depth alpha beta : Z),
    0 <= depth -> (Z.to_nat depth < fuel)%nat ->
    exists v b', _negamax fuel board depth alpha beta = Some (v, b').
Proof.
  induction fuel as [|fuel IH]; intros board depth alpha beta Hd Hf; [lia|].
  simpl. destruct (Z.eqb_spec depth 0) as [->|Hnz]; simpl; [eauto|].
  destruct (is_game_over board); [eauto|].
  destruct (_ordered_moves board) as [moves b1].
  apply negamax_loop_returns. intros b a bt. apply IH; lia.
Qed.

Lemma search_root_loop_returns rec depth beta :
  (forall b a bt, exists v b', rec b (depth - 1) a bt = Some (v, b')) ->
  forall moves bm bs alpha board,
    exists bm' bs' b',
      search_root_loop rec moves depth beta bm bs alpha board = Some (bm', bs', b').
Proof.
  intros Hrec. induction moves as [|m rest IH]; intros bm bs alpha board; simpl.
  - eauto.
  - destruct (Hrec (push board m) (- beta) (- alpha)) as (r & b' & ->).
    destruct (- r >? bs); apply IH.
Qed.

Lemma search_root_not_out_of_fuel (board : Board) (depth : Z) (fuel : nat) :
  1 <= depth -> (Z.to_nat depth <= fuel)%nat ->
  _search_root fuel board depth <> OutOfFuel.
Proof.
  intros Hd Hf. unfold _search_root, search_root_scored.
  destruct (_ordered_moves board) as [[|m0 rest] b1]; [discriminate|].
  destruct (search_root_loop_returns (_negamax fuel) depth
              (CHECKMATE_SCORE + 1)) with
    (moves := m0 :: rest) (bm := m0) (bs := - CHECKMATE_SCORE - 1)
    (alpha := - CHECKMATE_SCORE - 1) (board := b1) as (bm' & bs' & b' & ->).
  { intros b a bt. apply negamax_returns; lia. }
  discriminate.
Qed.

(** C10: [_negamax] returns for every depth [>= 0]: a budget of
    [depth + 1] nested calls is enough, each call passing [depth - 1] down,
    and so [_search_root] returns (a move or its error) for every depth
    [>= 1]. *)
Theorem negamax_terminates (board : Board) (depth alpha beta : Z) (fuel : nat) :
  0 <= depth -> (Z.to_nat depth < fuel)%nat ->
  (exists v b', _negamax fuel board depth alpha beta = Some (v, b'))
  /\ _search_root fuel board (depth + 1) <> OutOfFuel.
Proof.
  intros Hd Hf. split; [now apply negamax_returns|].
  apply search_root_not_out_of_fuel; lia.
Qed.

Lemma search_root_sound (board : Board) (depth : Z) (fuel : nat) :
  undo_law -> 1 <= depth -> (Z.to_nat depth <= fuel)%nat ->
  legal_moves board <> [] ->
  exists m s,
    search_root_scored fuel board depth = Ok (m, s) board
    /\ _search_root fuel board depth = Ok m board
    /\ exhaustive_root (Z.to_nat depth) board = Some (m, s).
Proof.
  intros Hundo Hd Hf Hlegal.
  unfold _search_root, search_root_scored, exhaustive_root.
  rewrite ordered_moves_frame by exact Hundo.
  destruct (ordered board) as [|m0 rest] eqn:Hord.
  { exfalso. apply Hlegal. apply Permutation_nil.
    rewrite <- Hord. apply ordered_perm. }
  assert (Hrec : rec_sound (_negamax fuel) (Z.to_nat depth - 1) board depth).
  { intros m a b.
    replace (Z.to_nat depth - 1)%nat with (Z.to_nat (depth - 1)) by lia.
    apply negamax_sound; [exact Hundo|lia|lia]. }
  destruct (search_root_loop_sound Hundo _ _ _ _ Hrec (m0 :: rest) m0
              (- CHECKMATE_SCORE - 1)) as (bm & bs & Hloop & Hexact).
  { unfold SCORE_FLOOR, CHECKMATE_SCORE. lia. }
  rewrite Hloop. exists bm, bs. rewrite Hexact. repeat split.
Qed.

(** C1: for every position with a legal move and every depth [>= 1], the
    move and the score of the pruned root search are those of the unpruned
    exhaustive negamax search with the same move order. *)
Theorem pruning_preserves_result (board : Board) (depth : Z) (fuel : nat) :
  undo_law -> 1 <= depth -> (Z.to_nat depth <= fuel)%nat ->
  legal_moves board <> [] ->
  exists m s,
    search_root_scored fuel board depth = Ok (m, s) board
    /\ _search_root fuel board depth = Ok m board
    /\ exhaustive_root (Z.to_nat depth) board = Some (m, s).
Proof. apply search_root_sound. Qed.

Lemma heuristic_key_correct (board : Board) (move : Move) :
  key_of board move = heuristic_key board move.
Proof.
  unfold heuristic_key.
  destruct (is_capture board move) eqn:Hc.
  - now rewrite key_of_capture.
  - destruct (gives_check board move) eqn:Hk.
    + now rewrite key_of_check.
    + now rewrite key_of_quiet.
Qed.

(** C6, amended: the orderer returns the legal moves, the same multiset, in
    ascending order of the key; a capture's key is
    [-(10 * victim - aggressor) - 20000], a non-capture check's is [-10000],
    any other move's is 0, each less the value of the promotion piece; so
    captures stand before non-capture checks and these before the rest; and
    moves of equal key keep the order of the oracle's enumeration.  The
    board is left as it was. *)
Theorem ordered_moves_characterised (board : Board) :
  undo_law ->
  snd (_ordered_moves board) = board
  /\ Permutation (fst (_ordered_moves board)) (legal_moves board)
  /\ StronglySorted (fun m1 m2 => key_of board m1 <= key_of board m2)
       (fst (_ordered_moves board))
  /\ (forall m, key_of board m = heuristic_key board m)
  /\ (forall m1 m2, is_capture board m1 = true -> is_capture board m2 = false ->
        key_of board m1 < key_of board m2)
  /\ (forall m1 m2, is_capture board m1 = false -> gives_check board m1 = true ->
        is_capture board m2 = false -> gives_check board m2 = false ->
        key_of board m1 < key_of board m2)
  /\ (forall k,
        List.filter (fun m => key_of board m =? k) (fst (_ordered_moves board))
        = List.filter (fun m => key_of board m =? k) (legal_moves board)).
Proof.
  intros Hundo. rewrite ordered_moves_frame by exact Hundo. cbn [fst snd].
  split; [reflexivity|].
  split; [apply ordered_perm|].
  split; [apply ordered_sorted|].
  split; [apply heuristic_key_correct|].
  split; [|split; [|apply ordered_stable]].
  - intros m1 m2 H1 H2. rewrite !heuristic_key_correct. unfold heuristic_key.
    rewrite H1, H2.
    pose proof (victim_value_range board m1).
    pose proof (aggressor_value_range board m1).
    pose proof (promotion_bonus_range m1).
    pose proof (promotion_bonus_range m2).
    destruct (gives_check board m2); lia.
  - intros m1 m2 H1 K1 H2 K2. rewrite !heuristic_key_correct. unfold heuristic_key.
    rewrite H1, K1, H2, K2.
    pose proof (promotion_bonus_range m1).
    pose proof (promotion_bonus_range m2). lia.
Qed.
End MinimaxClaims.

Lemma fixture_undo_law : undo_law (Board := FixtureBoard).
Proof. intros [fx hist] m. reflexivity. Qed.

Lemma two_captures_ordered :
  fst (_ordered_moves two_captures) = [Nxg3; Kxa2; Kb2; Nf2].
Proof. vm_compute. reflexivity. Qed.

(** C6 as stated fails: with Kxa2 (a pawn for a king, difference 100) and
    Nxg3 (a knight for a knight, difference 0) both legal, the orderer puts
    Nxg3 first. *)
Lemma capture_order_is_not_value_difference :
  ~ ranked_by_value_difference two_captures (fst (_ordered_moves two_captures)).
Proof.
  intros Hr. rewrite two_captures_ordered in Hr.
  specialize (Hr 1%nat 0%nat Kxa2 Nxg3 eq_refl eq_refl eq_refl eq_refl eq_refl eq_refl).
  assert (Hd : value_difference two_captures Kxa2 > value_difference two_captures Nxg3)
    by (vm_compute; reflexivity).
  specialize (Hr Hd). lia.
Qed.

Lemma ordered_moves_characterised_witness :
  snd (_ordered_moves two_captures) = two_captures
  /\ Permutation (fst (_ordered_moves two_captures)) (legal_moves two_captures).
Proof.
  destruct (ordered_moves_characterised two_captures fixture_undo_law)
    as (H1 & H2 & _).
  split; [exact H1|exact H2].
Defined.

Lemma negamax_terminates_witness :
  (exists v b', _negamax 3 two_captures 2 (-100001) 100001 = Some (v, b'))
  /\ _search_root 3 two_captures 3 <> OutOfFuel.
Proof.
  apply (negamax_terminates two_captures 2 (-100001) 100001 3); [lia|lia].
Defined.

Lemma pruning_preserves_result_witness :
  exists m s,
    search_root_scored 2 two_captures 2 = Ok (m, s) two_captures
    /\ _search_root 2 two_captures 2 = Ok m two_captures
    /\ exhaustive_root (Z.to_nat 2) two_captures = Some (m, s).
Proof.
  apply (pruning_preserves_result two_captures 2 2 fixture_undo_law);
    [lia|lia|discriminate].
Defined.

(** ** Backpropagation *)

Section BackpropFacts.
Context {Board : Type} `{PositionOracle Board}.
Implicit Types (arena : list (@Node Board)) (n : @Node Board).

Lemma backprop_node_parent n r : node_parent (backprop_node n r) = node_parent n.
Proof. reflexivity. Qed.

Lemma backprop_node_total n r :
  node_total_value (backprop_node n r) = updated_total n r.
Proof.
  unfold backprop_node, updated_total, mover. simpl.
  destruct (turn (node_board n)); reflexivity.
Qed.

Lemma parents_decrease_insert arena c n n' :
  parents_decrease arena -> arena !! c = Some n ->
  node_parent n' = node_parent n ->
  parents_decrease (<[c := n']> arena).
Proof.
  intros Hpd Hc Hp i m p Hi Hm.
  destruct (decide (i = c)) as [->|Hne].
  - rewrite list_lookup_insert_eq in Hi by (eapply lookup_lt_Some; eauto).
    inversion Hi; subst m. rewrite Hp in Hm. eapply Hpd; eauto.
  - rewrite list_lookup_insert_ne in Hi by congruence. eapply Hpd; eauto.
Qed.

Lemma path_insert arena c n n' :
  arena !! c = Some n -> node_parent n' = node_parent n ->
  forall f cur, path_to_root f (<[c := n']> arena) cur = path_to_root f arena cur.
Proof.
  intros Hc Hp. induction f as [|f IH]; intros [i|]; simpl; try reflexivity.
  destruct (decide (i = c)) as [->|Hne].
  - rewrite list_lookup_insert_eq by (eapply lookup_lt_Some; eauto).
    rewrite Hc, Hp, IH. reflexivity.
  - rewrite list_lookup_insert_ne by congruence.
    destruct (arena !! i); [|reflexivity]. now rewrite IH.
Qed.

Lemma path_bound arena :
  parents_decrease arena ->
  forall f c i, i ∈ path_to_root f arena (Some c) -> (i <= c)%nat.
Proof.
  intros Hpd. induction f as [|f IH]; intros c i; simpl.
  { intros Hin. apply elem_of_nil in Hin. contradiction. }
  destruct (arena !! c) as [n|] eqn:Hc.
  2:{ intros Hin. apply elem_of_nil in Hin. contradiction. }
  rewrite elem_of_cons. intros [->|Hin]; [lia|].
  destruct (node_parent n) as [p|] eqn:Hp.
  - specialize (IH p i Hin). specialize (Hpd c n p Hc Hp). lia.
  - destruct f; simpl in Hin; apply elem_of_nil in Hin; contradiction.
Qed.

Lemma path_above arena f c n :
  parents_decrease arena -> arena !! c = Some n ->
  c ∉ path_to_root f arena (node_parent n).
Proof.
  intros Hpd Hn Hin. destruct (node_parent n) as [p|] eqn:Hp.
  - pose proof (path_bound arena Hpd f p c Hin).
    specialize (Hpd c n p Hn Hp). lia.
  - destruct f; simpl in Hin; apply elem_of_nil in Hin; contradiction.
Qed.

Lemma backprop_loop_spec (r : float) :
  forall f arena cur,
    parents_decrease arena ->
    (forall c, cur = Some c -> (c < length arena)%nat) ->
    match backprop_loop f arena cur r with
    | Ret a' =>
        length a' = length arena
        /\ forall i, a' !! i =
             if bool_decide (i ∈ path_to_root f arena cur)
             then (fun n => backprop_node n r) <$> arena !! i
             else arena !! i
    | Err _ => False
    | Stuck => exists c, cur = Some c /\ (f <= c)%nat
    end.
Proof.
  induction f as [|f IH]; intros arena [c|] Hpd Hcur; simpl.
  - exists c. split; [reflexivity|lia].
  - split; [reflexivity|]. intros i. reflexivity.
  - specialize (Hcur c eq_refl).
    destruct (lookup_lt_is_Some_2 arena c Hcur) as [n Hn].
    unfold get. rewrite Hn. cbn [mbind res_bind].
    set (arena1 := <[c := backprop_node n r]> arena).
    assert (Hpd1 : parents_decrease arena1).
    { eapply parents_decrease_insert; eauto. }
    assert (Hcur1 : forall p, node_parent n = Some p -> (p < length arena1)%nat).
    { intros p Hp. unfold arena1. rewrite length_insert.
      specialize (Hpd c n p Hn Hp). lia. }
    specialize (IH arena1 (node_parent n) Hpd1 Hcur1).
    destruct (backprop_loop f arena1 (node_parent n) r) as [a'| |]; [|exact IH|].
    + destruct IH as [Hlen Hlook]. split.
      { rewrite Hlen. unfold arena1. apply length_insert. }
      intros i. rewrite Hlook. unfold arena1.
      rewrite (path_insert arena c n) by (auto using backprop_node_parent).
      pose proof (path_above arena f c n Hpd Hn) as Habove.
      destruct (decide (i = c)) as [->|Hne].
      * rewrite list_lookup_insert_eq by exact Hcur. rewrite Hn.
        rewrite bool_decide_eq_false_2 by exact Habove.
        rewrite bool_decide_eq_true_2 by (apply elem_of_cons; left; reflexivity).
        reflexivity.
      * rewrite list_lookup_insert_ne by congruence.
        destruct (bool_decide (i ∈ path_to_root f arena (node_parent n))) eqn:Hb.
        -- apply bool_decide_eq_true_1 in Hb.
           rewrite bool_decide_eq_true_2 by (apply elem_of_cons; right; exact Hb).
           reflexivity.
        -- apply bool_decide_eq_false_1 in Hb.
           rewrite bool_decide_eq_false_2; [reflexivity|].
           rewrite elem_of_cons. intros [Heq|Hin]; [congruence|contradiction].
    + destruct IH as (p & Hp & Hle). exists c. split; [reflexivity|].
      specialize (Hpd c n p Hn Hp). lia.
  - split; [reflexivity|]. intros i. reflexivity.
Qed.

(** When the walk ends, it has gone all the way up: the path holds the
    parent of each of its nodes. *)
Lemma path_closed (r : float) :
  forall f arena cur a',
    backprop_loop f arena cur r = Ret a' ->
    forall i n p, i ∈ path_to_root f arena cur -> arena !! i = Some n ->
      node_parent n = Some p -> p ∈ path_to_root f arena cur.
Proof.
  induction f as [|f IH]; intros arena [c|] a' Hret i n p; simpl;
    try (intros Hin; apply elem_of_nil in Hin; contradiction).
  simpl in Hret. unfold get in Hret.
  destruct (arena !! c) as [nc|] eqn:Hc; [|discriminate].
  cbn [mbind res_bind] in Hret.
  pose proof (path_insert arena c nc (backprop_node nc r) Hc
                (backprop_node_parent nc r) f) as Hpath.
  rewrite !elem_of_cons. intros [->|Hin] Hi Hp; right.
  - rewrite Hc in Hi. inversion Hi; subst nc. rewrite Hp in Hret |- *.
    destruct f as [|f]; [simpl in Hret; discriminate|].
    simpl in Hret |- *. unfold get in Hret.
    destruct (decide (p = c)) as [->|Hne].
    + rewrite Hc. apply elem_of_cons. left. reflexivity.
    + rewrite list_lookup_insert_ne in Hret by congruence.
      destruct (arena !! p); [apply elem_of_cons; left; reflexivity|discriminate].
  - rewrite <- Hpath. rewrite <- Hpath in Hin.
    destruct (decide (i = c)) as [->|Hne].
    + rewrite Hc in Hi. inversion Hi; subst nc.
      eapply (IH _ _ _ Hret c (backprop_node n r)); [exact Hin| |exact Hp].
      apply list_lookup_insert_eq. eapply lookup_lt_Some; eauto.
    + eapply (IH _ _ _ Hret i n); [exact Hin| |exact Hp].
      rewrite list_lookup_insert_ne by congruence. exact Hi.
Qed.

Lemma path_head f arena c a' r :
  backprop_loop f arena (Some c) r = Ret a' -> c ∈ path_to_root f arena (Some c).
Proof.
  destruct f as [|f]; simpl; [discriminate|].
  unfold get. destruct (arena !! c); [|discriminate].
  intros _. apply elem_of_cons. left. reflexivity.
Qed.

Lemma backprop_path_facts arena (node : nat) (r : float) (fuel : nat)
    (arena' : list (@Node Board)) :
  parents_decrease arena ->
  _backpropagate fuel arena node r = Ret arena' ->
  let path := path_to_root fuel arena (Some node) in
  node ∈ path
  /\ (forall i n p, i ∈ path -> arena !! i = Some n -> node_parent n = Some p ->
        p ∈ path)
  /\ length arena' = length arena
  /\ (forall i n, i ∈ path -> arena !! i = Some n ->
        exists n', arena' !! i = Some n'
          /\ node_visits n' = node_visits n + 1
          /\ node_total_value n' = updated_total n r
          /\ node_board n' = node_board n /\ node_parent n' = node_parent n
          /\ node_move n' = node_move n /\ node_children n' = node_children n
          /\ node_untried_moves n' = node_untried_moves n)
  /\ (forall i, i ∉ path -> arena' !! i = arena !! i).
Proof.
  intros Hpd Hret path. unfold _backpropagate in Hret.
  assert (Hnode : (node < length arena)%nat).
  { destruct fuel; simpl in Hret; [discriminate|]. unfold get in Hret.
    destruct (arena !! node) eqn:E; [|discriminate].
    eapply lookup_lt_Some; eauto. }
  pose proof (backprop_loop_spec r fuel arena (Some node) Hpd) as Hspec.
  rewrite Hret in Hspec. destruct Hspec as [Hlen Hlook].
  { intros c Hc. inversion Hc; subst c. exact Hnode. }
  split; [eapply path_head; eauto|].
  split; [eapply path_closed; eauto|].
  split; [exact Hlen|]. split.
  - intros i n Hin Hi. rewrite Hlook, Hi.
    rewrite bool_decide_eq_true_2 by exact Hin.
    exists (backprop_node n r). split; [reflexivity|].
    split; [reflexivity|]. split; [apply backprop_node_total|].
    repeat split; reflexivity.
  - intros i Hnin. rewrite Hlook. now rewrite bool_decide_eq_false_2.
Qed.

(** C5, amended: from a node of the tree, [_backpropagate] returns (the walk
    ends at the root), and it adds one to the visit count of every node on
    the path from the simulated node up to the root, and changes the
    accumulator of each by the White-perspective result: added at a node
    that a White move led to, subtracted at a node that a Black move led
    to.  Nothing else changes, in these nodes or in the others. *)
Theorem backpropagate_updates_path arena (node : nat) (r : float) (fuel : nat) :
  parents_decrease arena -> (node < length arena)%nat -> (node < fuel)%nat ->
  exists arena',
    _backpropagate fuel arena node r = Ret arena'
    /\ let path := path_to_root fuel arena (Some node) in
       node ∈ path
       /\ (forall i n p, i ∈ path -> arena !! i = Some n ->
             node_parent n = Some p -> p ∈ path)
       /\ length arena' = length arena
       /\ (forall i n, i ∈ path -> arena !! i = Some n ->
             exists n', arena' !! i = Some n'
               /\ node_visits n' = node_visits n + 1
               /\ node_total_value n' = updated_total n r
               /\ node_board n' = node_board n /\ node_parent n' = node_parent n
               /\ node_move n' = node_move n
               /\ node_children n' = node_children n
               /\ node_untried_moves n' = node_untried_moves n)
       /\ (forall i, i ∉ path -> arena' !! i = arena !! i).
Proof.
  intros Hpd Hnode Hfuel.
  pose proof (backprop_loop_spec r fuel arena (Some node) Hpd) as Hspec.
  destruct (_backpropagate fuel arena node r) as [arena'| |] eqn:Hret;
    unfold _backpropagate in Hret; rewrite Hret in Hspec.
  - exists arena'. split; [reflexivity|].
    apply backprop_path_facts; assumption.
  - exfalso. apply Hspec. intros c Hc. inversion Hc; subst c. exact Hnode.
  - destruct Hspec as (c & Hc & Hle).
    + intros c Hc. inversion Hc; subst c. exact Hnode.
    + inversion Hc; subst c. lia.
Qed.
End BackpropFacts.

Lemma reply_tree_parents : parents_decrease reply_tree.
Proof.
  intros i n p Hi Hp.
  destruct i as [|[|i]]; vm_compute in Hi; inversion Hi; subst n;
    vm_compute in Hp; inversion Hp; lia.
Qed.

(** C5 as stated fails: node 1 of [reply_tree] is reached by a move of
    Black, and backpropagating the result 1 from it leaves its accumulator
    at [0 - 1], not at [0 + 1]. *)
Lemma backprop_sign_is_reversed :
  exists arena' n n',
    _backpropagate 2 reply_tree 1%nat 1%float = Ret arena'
    /\ reply_tree !! 1%nat = Some n /\ arena' !! 1%nat = Some n'
    /\ mover n = BLACK
    /\ node_total_value n' <> claimed_total n 1%float.
Proof.
  eexists _, _, _. split; [vm_compute; reflexivity|].
  split; [vm_compute; reflexivity|]. split; [vm_compute; reflexivity|].
  split; [vm_compute; reflexivity|].
  intros E. apply (f_equal (fun x => PrimFloat.ltb x 0%float)) in E.
  vm_compute in E. discriminate.
Qed.

Lemma backpropagate_updates_path_witness :
  exists arena',
    _backpropagate 2 reply_tree 1%nat 1%float = Ret arena'
    /\ length arena' = length reply_tree.
Proof.
  destruct (backpropagate_updates_path reply_tree 1%nat 1%float 2
              reply_tree_parents)
    as (arena' & Hret & _ & _ & Hlen & _); [vm_compute; lia|lia|].
  exists arena'. split; [exact Hret|exact Hlen].
Defined.

(** ** The tree of the search *)

Section TreeFacts.
Context {Board : Type} `{PositionOracle Board} `{MathLib}.
Context {Rng : Type} `{RandomSource Rng}.
Implicit Types (arena : list (@Node Board)) (n : @Node Board).

Lemma tree_parents_decrease arena : tree_ok arena -> parents_decrease arena.
Proof.
  intros Hok i n p Hi Hp.
  destruct (decide (i = 0%nat)) as [->|Hne].
  - destruct (ok_root _ Hok) as (r & Hr & Hnone). congruence.
  - destruct (ok_parent _ Hok i n Hi Hne) as (p' & Hp' & Hlt). congruence.
Qed.

Lemma same_links_back arena arena' i n' :
  same_links arena arena' -> arena' !! i = Some n' ->
  exists n, arena !! i = Some n
    /\ node_board n' = node_board n /\ node_parent n' = node_parent n
    /\ node_move n' = node_move n /\ node_children n' = node_children n
    /\ node_untried_moves n' = node_untried_moves n.
Proof.
  intros [Hlen Hfw] Hi.
  assert (Hlt : (i < length arena)%nat).
  { rewrite <- Hlen. eapply lookup_lt_Some; eauto. }
  destruct (lookup_lt_is_Some_2 arena i Hlt) as [n Hn].
  destruct (Hfw i n Hn) as (n2 & Hn2 & Hrest).
  rewrite Hi in Hn2. inversion Hn2; subst n2. eauto.
Qed.

Lemma moves_ok_same_links arena arena' :
  same_links arena arena' -> moves_ok arena -> moves_ok arena'.
Proof.
  intros Hsl Hok. split.
  - intros p n' Hp.
    destruct (same_links_back _ _ _ _ Hsl Hp) as (n & Hn & Hb & _ & _ & Hc & Hu).
    rewrite Hb, Hc, Hu. eapply ok_count; eauto.
  - intros p n' m Hp Hm.
    destruct (same_links_back _ _ _ _ Hsl Hp) as (n & Hn & Hb & _ & _ & Hc & Hu).
    rewrite Hb. rewrite Hu in Hm. eapply ok_untried; eauto.
  - intros c cn' p pn' Hc Hpar Hp.
    destruct (same_links_back _ _ _ _ Hsl Hc) as (cn & Hcn & _ & Hcp & Hcm & _).
    destruct (same_links_back _ _ _ _ Hsl Hp) as (pn & Hpn & Hpb & _).
    rewrite Hcm, Hpb. rewrite Hcp in Hpar. eapply ok_moves; eauto.
Qed.

(** The links of a tree survive a change of counters; the counters stay in
    order when every bumped node has its parent bumped. *)
Lemma tree_ok_bump arena arena' (bumped : nat -> bool) :
  tree_ok arena -> same_links arena arena' ->
  (forall i n n', arena !! i = Some n -> arena' !! i = Some n' ->
     node_visits n' = node_visits n + (if bumped i then 1 else 0)) ->
  (forall i n p, bumped i = true -> arena !! i = Some n ->
     node_parent n = Some p -> bumped p = true) ->
  tree_ok arena'.
Proof.
  intros Hok Hsl Hvis Hup. pose proof Hsl as [Hlen Hfw]. split.
  - destruct (ok_root _ Hok) as (r & Hr & Hnone).
    destruct (Hfw _ _ Hr) as (r' & Hr' & _ & Hp & _).
    exists r'. split; [exact Hr'|congruence].
  - intros i n' Hi Hne.
    destruct (same_links_back _ _ _ _ Hsl Hi) as (n & Hn & _ & Hp & _).
    rewrite Hp. eapply ok_parent; eauto.
  - intros p n' c Hp.
    destruct (same_links_back _ _ _ _ Hsl Hp) as (n & Hn & _ & _ & _ & Hc & _).
    rewrite Hc, (ok_children _ Hok p n c Hn). split.
    + intros (cn & Hcn & Hcp). destruct (Hfw _ _ Hcn) as (cn' & Hcn' & _ & Hp' & _).
      exists cn'. split; [exact Hcn'|congruence].
    + intros (cn' & Hcn' & Hcp).
      destruct (same_links_back _ _ _ _ Hsl Hcn') as (cn & Hcn & _ & Hp' & _).
      exists cn. split; [exact Hcn|congruence].
  - intros p n' Hp.
    destruct (same_links_back _ _ _ _ Hsl Hp) as (n & Hn & _ & _ & _ & Hc & _).
    rewrite Hc. eapply ok_nodup; eauto.
  - intros c cn' Hc.
    destruct (same_links_back _ _ _ _ Hsl Hc) as (cn & Hcn & _).
    rewrite (Hvis _ _ _ Hcn Hc). pose proof (ok_visits _ Hok c cn Hcn).
    destruct (bumped c); lia.
  - intros c cn' p pn' Hc Hpar Hp.
    destruct (same_links_back _ _ _ _ Hsl Hc) as (cn & Hcn & _ & Hcp & _).
    destruct (same_links_back _ _ _ _ Hsl Hp) as (pn & Hpn & _).
    rewrite (Hvis _ _ _ Hcn Hc), (Hvis _ _ _ Hpn Hp).
    rewrite Hcp in Hpar.
    pose proof (ok_visits_le _ Hok c cn p pn Hcn Hpar Hpn).
    destruct (bumped c) eqn:Hbc.
    + rewrite (Hup c cn p Hbc Hcn Hpar). lia.
    + destruct (bumped p); lia.
Qed.

(** [_backpropagate] on a well-formed tree: it never raises, it is out of
    budget only when the budget is at most the index of the node, and it
    leaves a well-formed tree with the same links. *)
Lemma backpropagate_ok arena (node : nat) (r : float) (fuel : nat) :
  tree_ok arena -> (node < length arena)%nat ->
  match _backpropagate fuel arena node r with
  | Ret arena' => tree_ok arena' /\ same_links arena arena'
  | Err _ => False
  | Stuck => (fuel <= node)%nat
  end.
Proof.
  intros Hok Hnode. unfold _backpropagate.
  pose proof (tree_parents_decrease arena Hok) as Hpd.
  pose proof (backprop_loop_spec r fuel arena (Some node) Hpd) as Hspec.
  pose proof (path_closed r fuel arena (Some node)) as Hclosed.
  destruct (backprop_loop fuel arena (Some node) r) as [arena'| |].
  - destruct Hspec as [Hlen Hlook].
    { intros c Hc. inversion Hc; subst c. exact Hnode. }
    assert (Hsl : same_links arena arena').
    { split; [exact Hlen|]. intros i n Hi. rewrite Hlook, Hi.
      destruct (bool_decide _); simpl; eexists; (split; [reflexivity|]);
        repeat split; reflexivity. }
    split; [|exact Hsl].
    apply (tree_ok_bump arena arena'
             (fun i => bool_decide (i ∈ path_to_root fuel arena (Some node))));
      [exact Hok|exact Hsl| |].
    + intros i n n' Hi Hi'. rewrite Hlook, Hi in Hi'.
      destruct (bool_decide _); simpl in Hi'; inversion Hi'; subst n'; simpl; lia.
    + intros i n p Hb Hi Hp. apply bool_decide_eq_true_1 in Hb.
      apply bool_decide_eq_true_2. eapply Hclosed; eauto.
  - apply Hspec. intros c Hc. inversion Hc; subst c. exact Hnode.
  - destruct Hspec as (c & Hc & Hle).
    { intros c Hc. inversion Hc; subst c. exact Hnode. }
    inversion Hc; subst c. exact Hle.
Qed.
Lemma list_pop_spec {A} (l : list A) :
  l <> [] -> exists x r, list_pop l = Ret (x, r) /\ l = r ++ [x].
Proof.
  intros Hne. unfold list_pop. destruct (rev l) as [|x r] eqn:E.
  - exfalso. apply Hne. rewrite <- (rev_involutive l), E. reflexivity.
  - exists x, (rev r). split; [reflexivity|].
    rewrite <- (rev_involutive l), E. reflexivity.
Qed.

Lemma expanded_back arena i n untried child j x :
  arena !! i = Some n ->
  expanded arena i n untried child !! j = Some x ->
  (j = length arena /\ x = child)
  \/ ((j < length arena)%nat /\ exists y, arena !! j = Some y
        /\ node_board x = node_board y /\ node_parent x = node_parent y
        /\ node_move x = node_move y /\ node_visits x = node_visits y
        /\ node_children x
            = (if decide (j = i) then node_children y ++ [length arena]
               else node_children y)
        /\ node_untried_moves x
            = (if decide (j = i) then untried else node_untried_moves y)).
Proof.
  intros Hi Hj. unfold expanded in Hj.
  pose proof (lookup_lt_Some _ _ _ Hi) as Hlt.
  destruct (decide (j < length arena)%nat) as [Hin|Hout].
  - right. split; [exact Hin|].
    rewrite lookup_app_l in Hj by (rewrite length_insert; exact Hin).
    destruct (decide (j = i)) as [->|Hne].
    + rewrite list_lookup_insert_eq in Hj by exact Hlt. inversion Hj; subst x.
      exists n. repeat split; try reflexivity; exact Hi.
    + rewrite list_lookup_insert_ne in Hj by congruence.
      exists x. repeat split; try reflexivity; exact Hj.
  - left. rewrite lookup_app_r in Hj by (rewrite length_insert; lia).
    rewrite length_insert in Hj.
    destruct (j - length arena)%nat as [|k] eqn:E; simpl in Hj; [|discriminate].
    inversion Hj. split; [lia|reflexivity].
Qed.

Lemma expanded_fwd arena i n untried child j y :
  arena !! i = Some n -> arena !! j = Some y ->
  exists x, expanded arena i n untried child !! j = Some x
    /\ node_board x = node_board y /\ node_parent x = node_parent y
    /\ node_move x = node_move y /\ node_visits x = node_visits y
    /\ node_children x
        = (if decide (j = i) then node_children y ++ [length arena]
           else node_children y)
    /\ node_untried_moves x
        = (if decide (j = i) then untried else node_untried_moves y).
Proof.
  intros Hi Hj. pose proof (lookup_lt_Some _ _ _ Hj) as Hlt.
  unfold expanded. rewrite lookup_app_l by (rewrite length_insert; exact Hlt).
  destruct (decide (j = i)) as [->|Hne].
  - rewrite list_lookup_insert_eq by exact Hlt. rewrite Hi in Hj. inversion Hj; subst y.
    eexists. split; [reflexivity|]. repeat split; reflexivity.
  - rewrite list_lookup_insert_ne by congruence.
    exists y. repeat split; try reflexivity; exact Hj.
Qed.

Lemma expanded_last arena i n untried child :
  expanded arena i n untried child !! length arena = Some child.
Proof.
  unfold expanded. rewrite lookup_app_r by (rewrite length_insert; lia).
  rewrite length_insert, Nat.sub_diag. reflexivity.
Qed.

Lemma children_in_range arena p n c :
  tree_ok arena -> arena !! p = Some n -> In c (node_children n) ->
  (c < length arena)%nat.
Proof.
  intros Hok Hp Hc. apply (ok_children _ Hok p n c Hp) in Hc.
  destruct Hc as (cn & Hcn & _). eapply lookup_lt_Some; eauto.
Qed.

Lemma tree_ok_expanded arena i n untried child :
  tree_ok arena -> arena !! i = Some n ->
  node_parent child = Some i -> node_children child = [] ->
  node_visits child = 0 ->
  tree_ok (expanded arena i n untried child).
Proof.
  intros Hok Hi Hcp Hcc Hcv.
  pose proof (lookup_lt_Some _ _ _ Hi) as Hlt.
  pose proof (tree_parents_decrease _ Hok) as Hpd.
  split.
  - destruct (ok_root _ Hok) as (r & Hr & Hnone).
    destruct (expanded_fwd arena i n untried child 0%nat r Hi Hr)
      as (x & Hx & _ & Hp & _).
    exists x. split; [exact Hx|congruence].
  - intros j x Hj Hne.
    destruct (expanded_back _ _ _ _ _ _ _ Hi Hj)
      as [[-> ->]|(Hjl & y & Hy & _ & Hp & _)].
    + exists i. split; [exact Hcp|exact Hlt].
    + rewrite Hp. eapply ok_parent; eauto.
  - intros p x c Hp.
    destruct (expanded_back _ _ _ _ _ _ _ Hi Hp)
      as [[-> ->]|(Hpl & y & Hy & _ & _ & _ & _ & Hch & _)].
    + rewrite Hcc. split; [intros []|].
      intros (cn & Hcn & Hcnp). exfalso.
      destruct (expanded_back _ _ _ _ _ _ _ Hi Hcn)
        as [[-> ->]|(Hcl & z & Hz & _ & Hzp & _)].
      * rewrite Hcp in Hcnp. inversion Hcnp. lia.
      * rewrite Hzp in Hcnp. specialize (Hpd c z _ Hz Hcnp). lia.
    + rewrite Hch. split.
      * intros Hin.
        assert (Hcases : In c (node_children y) \/ (p = i /\ c = length arena)).
        { destruct (decide (p = i)); [|left; exact Hin].
          apply in_app_or in Hin. destruct Hin as [Hin|[<-|[]]]; [left; exact Hin|].
          right. split; [assumption|reflexivity]. }
        destruct Hcases as [Hold|[-> ->]].
        -- apply (ok_children _ Hok p y c Hy) in Hold.
           destruct Hold as (cn & Hcn & Hcnp).
           destruct (expanded_fwd arena i n untried child c cn Hi Hcn)
             as (x' & Hx' & _ & Hp' & _).
           exists x'. split; [exact Hx'|congruence].
        -- exists child. split; [apply expanded_last|exact Hcp].
      * intros (cn & Hcn & Hcnp).
        destruct (expanded_back _ _ _ _ _ _ _ Hi Hcn)
          as [[-> ->]|(Hcl & z & Hz & _ & Hzp & _)].
        -- rewrite Hcp in Hcnp. inversion Hcnp; subst p.
           rewrite decide_True by reflexivity. apply in_or_app. right. left. reflexivity.
        -- assert (Hold : In c (node_children y)).
           { apply (ok_children _ Hok p y c Hy). exists z. split; [exact Hz|congruence]. }
           destruct (decide (p = i)); [apply in_or_app; left|]; exact Hold.
  - intros p x Hp.
    destruct (expanded_back _ _ _ _ _ _ _ Hi Hp)
      as [[-> ->]|(Hpl & y & Hy & _ & _ & _ & _ & Hch & _)].
    + rewrite Hcc. constructor.
    + rewrite Hch. pose proof (ok_nodup _ Hok p y Hy) as Hnd.
      destruct (decide (p = i)); [|exact Hnd].
      apply NoDup_app. split; [exact Hnd|]. split; [|repeat constructor; intros Hx; inversion Hx].
      intros c Hc Hc'. apply list_elem_of_In in Hc. apply list_elem_of_singleton in Hc'. subst c.
      pose proof (children_in_range arena p y _ Hok Hy Hc). lia.
  - intros c x Hc.
    destruct (expanded_back _ _ _ _ _ _ _ Hi Hc)
      as [[-> ->]|(Hcl & y & Hy & _ & _ & _ & Hv & _)].
    + lia.
    + rewrite Hv. eapply ok_visits; eauto.
  - intros c x p px Hc Hpar Hp.
    destruct (expanded_back _ _ _ _ _ _ _ Hi Hp)
      as [[-> ->]|(Hpl & py & Hpy & _ & _ & _ & Hpv & _)].
    + exfalso.
      destruct (expanded_back _ _ _ _ _ _ _ Hi Hc)
        as [[-> ->]|(Hcl & y & Hy & _ & Hyp & _)].
      * rewrite Hcp in Hpar. inversion Hpar. lia.
      * rewrite Hyp in Hpar. specialize (Hpd c y _ Hy Hpar). lia.
    + rewrite Hpv.
      destruct (expanded_back _ _ _ _ _ _ _ Hi Hc)
        as [[-> ->]|(Hcl & y & Hy & _ & Hyp & _ & Hyv & _)].
      * rewrite Hcv. eapply ok_visits; eauto.
      * rewrite Hyv. rewrite Hyp in Hpar. eapply ok_visits_le; eauto.
Qed.
Lemma moves_ok_expanded arena i n untried move (rng : Rng) :
  shuffle_law -> tree_ok arena -> moves_ok arena -> arena !! i = Some n ->
  node_untried_moves n = untried ++ [move] ->
  moves_ok (expanded arena i n untried
              (fst (new_node rng (push (node_board n) move) (Some i) (Some move)))).
Proof.
  intros Hsh Htree Hok Hi Hun.
  set (child := fst (new_node rng (push (node_board n) move) (Some i) (Some move))).
  assert (Hchild : child = mkNode (push (node_board n) move) (Some i) (Some move) []
                     (fst (shuffle rng (legal_moves (push (node_board n) move))))
                     0 0%float).
  { unfold child, new_node. destruct (shuffle rng _). reflexivity. }
  pose proof (Hsh rng (legal_moves (push (node_board n) move))) as Hperm.
  pose proof (tree_parents_decrease _ Htree) as Hpd.
  pose proof (lookup_lt_Some _ _ _ Hi) as Hlt.
  assert (Hmove : In move (legal_moves (node_board n))).
  { eapply ok_untried; eauto. rewrite Hun. apply in_or_app. right. left. reflexivity. }
  split.
  - intros p x Hp.
    destruct (expanded_back _ _ _ _ _ _ _ Hi Hp)
      as [[-> ->]|(Hpl & y & Hy & Hb & _ & _ & _ & Hch & Hu)].
    + rewrite Hchild. simpl. now rewrite (Permutation_length Hperm).
    + rewrite Hb, Hch, Hu. pose proof (ok_count _ Hok p y Hy) as Hcount.
      destruct (decide (p = i)) as [->|Hne]; [|exact Hcount].
      rewrite Hi in Hy. inversion Hy; subst y.
      rewrite Hun in Hcount. rewrite !length_app in *. simpl in *. lia.
  - intros p x m Hp Hm.
    destruct (expanded_back _ _ _ _ _ _ _ Hi Hp)
      as [[-> ->]|(Hpl & y & Hy & Hb & _ & _ & _ & _ & Hu)].
    + rewrite Hchild in Hm |- *. simpl in *.
      eapply Permutation_in; [exact Hperm|exact Hm].
    + rewrite Hb. rewrite Hu in Hm. eapply ok_untried; eauto.
      destruct (decide (p = i)) as [->|Hne]; [|exact Hm].
      rewrite Hi in Hy. inversion Hy; subst y.
      rewrite Hun. apply in_or_app. left. exact Hm.
  - intros c x p px Hc Hpar Hp.
    destruct (expanded_back _ _ _ _ _ _ _ Hi Hp)
      as [[-> ->]|(Hpl & py & Hpy & Hpb & _)].
    + exfalso.
      destruct (expanded_back _ _ _ _ _ _ _ Hi Hc)
        as [[-> ->]|(Hcl & y & Hy & _ & Hyp & _)].
      * rewrite Hchild in Hpar. simpl in Hpar. inversion Hpar. lia.
      * rewrite Hyp in Hpar. specialize (Hpd c y _ Hy Hpar). lia.
    + rewrite Hpb.
      destruct (expanded_back _ _ _ _ _ _ _ Hi Hc)
        as [[-> ->]|(Hcl & y & Hy & _ & Hyp & Hym & _)].
      * rewrite Hchild in Hpar |- *. simpl in *. inversion Hpar; subst p.
        rewrite Hi in Hpy. inversion Hpy; subst py.
        exists move. split; [reflexivity|exact Hmove].
      * rewrite Hym. rewrite Hyp in Hpar. eapply ok_moves; eauto.
Qed.

Lemma sum_visits_ext arena arena' (l : list nat) :
  (forall c, In c l -> visits_at arena' c = visits_at arena c) ->
  sum_visits arena' l = sum_visits arena l.
Proof.
  unfold sum_visits. induction l as [|c l IH]; intros Hext; simpl; [reflexivity|].
  rewrite Hext by (left; reflexivity). rewrite IH; [reflexivity|].
  intros c' Hc'. apply Hext. right. exact Hc'.
Qed.

Lemma sum_visits_app arena (l1 l2 : list nat) :
  sum_visits arena (l1 ++ l2) = sum_visits arena l1 + sum_visits arena l2.
Proof.
  unfold sum_visits. induction l1 as [|c l IH]; simpl; [reflexivity|].
  rewrite IH. lia.
Qed.

Lemma accounting_expanded arena i n untried child (it : Z) :
  tree_ok arena -> arena !! i = Some n -> node_visits child = 0 ->
  accounting arena it -> accounting (expanded arena i n untried child) it.
Proof.
  intros Hok Hi Hcv (r & Hr & Hv & Hsum).
  destruct (expanded_fwd arena i n untried child 0%nat r Hi Hr)
    as (x & Hx & _ & _ & _ & Hxv & Hch & _).
  exists x. split; [exact Hx|]. split; [congruence|].
  assert (Hold : sum_visits (expanded arena i n untried child) (node_children r)
                 = sum_visits arena (node_children r)).
  { apply sum_visits_ext. intros c Hc.
    apply (ok_children _ Hok 0%nat r c Hr) in Hc. destruct Hc as (cn & Hcn & _).
    destruct (expanded_fwd arena i n untried child c cn Hi Hcn)
      as (x' & Hx' & _ & _ & _ & Hv' & _).
    unfold visits_at. rewrite Hx', Hcn. exact Hv'. }
  rewrite Hch. destruct (decide (0%nat = i)); [|congruence].
  rewrite sum_visits_app, Hold. unfold sum_visits at 2. simpl.
  unfold visits_at. rewrite expanded_last. lia.
Qed.

Lemma expand_unfold arena (rng : Rng) i n untried move :
  arena !! i = Some n -> node_untried_moves n = untried ++ [move] ->
  _expand arena rng i
  = Ret (length arena,
         expanded arena i n untried
           (fst (new_node rng (push (node_board n) move) (Some i) (Some move))),
         snd (new_node rng (push (node_board n) move) (Some i) (Some move))).
Proof.
  intros Hi Hun. unfold _expand, get. rewrite Hi. cbn [mbind res_bind].
  unfold list_pop. rewrite Hun, rev_app_distr. simpl. rewrite rev_involutive.
  destruct (new_node rng _ _ _) as [child rng']. reflexivity.
Qed.

Lemma new_node_fields (rng : Rng) (b : Board) parent move :
  let child := fst (new_node rng b parent move) in
  node_board child = b /\ node_parent child = parent /\ node_move child = move
  /\ node_children child = [] /\ node_visits child = 0
  /\ node_untried_moves child = fst (shuffle rng (legal_moves b)).
Proof.
  unfold new_node. destruct (shuffle rng (legal_moves b)). simpl. tauto.
Qed.

Lemma root_board_same_links arena arena' (b0 : Board) :
  same_links arena arena' -> root_board arena b0 -> root_board arena' b0.
Proof.
  intros [_ Hfw] (r & Hr & Hb). destruct (Hfw _ _ Hr) as (r' & Hr' & Hb' & _).
  exists r'. split; [exact Hr'|congruence].
Qed.

(** [_expand] at a node that has an untried move. *)
Lemma expand_ok arena (rng : Rng) i n :
  tree_ok arena -> arena !! i = Some n -> node_untried_moves n <> [] ->
  exists arena' rng',
    _expand arena rng i = Ret (length arena, arena', rng')
    /\ length arena' = S (length arena)
    /\ tree_ok arena'
    /\ (forall b0, root_board arena b0 -> root_board arena' b0)
    /\ (forall it, accounting arena it -> accounting arena' it)
    /\ (shuffle_law -> moves_ok arena -> moves_ok arena').
Proof.
  intros Hok Hi Hne.
  destruct (list_pop_spec _ Hne) as (move & untried & _ & Hun).
  rewrite (expand_unfold arena rng i n untried move Hi Hun).
  destruct (new_node_fields rng (push (node_board n) move) (Some i) (Some move))
    as (_ & Hp & _ & Hc & Hv & _).
  eexists _, _. split; [reflexivity|]. split.
  { unfold expanded. rewrite length_app, length_insert. simpl. lia. }
  split; [now apply tree_ok_expanded|]. split; [|split].
  - intros b0 (r & Hr & Hb).
    destruct (expanded_fwd arena i n untried
                (fst (new_node rng (push (node_board n) move) (Some i) (Some move)))
                0%nat r Hi Hr) as (x & Hx & Hxb & _).
    exists x. split; [exact Hx|congruence].
  - intros it. now apply accounting_expanded.
  - intros Hsh Hm. now apply moves_ok_expanded.
Qed.
End TreeFacts.

(** ** One pass of the search loop *)

Section SearchFacts.
Context {Board : Type} `{PositionOracle Board} `{MathLib}.
Context {Rng : Type} `{RandomSource Rng}.
Implicit Types (arena : list (@Node Board)) (n : @Node Board).

Lemma path_valid arena f cur i :
  i ∈ path_to_root f arena cur -> is_Some (arena !! i).
Proof.
  revert cur. induction f as [|f IH]; intros [c|]; simpl;
    try (intros Hin; apply elem_of_nil in Hin; contradiction).
  destruct (arena !! c) as [n|] eqn:Hc;
    [|intros Hin; apply elem_of_nil in Hin; contradiction].
  rewrite elem_of_cons. intros [->|Hin]; [eauto|]. eapply IH; eauto.
Qed.

Section OnePath.
Variables (arena : list (@Node Board)) (path : list nat).
Hypothesis Hok : tree_ok arena.
Hypothesis Hvalid : forall i, i ∈ path -> is_Some (arena !! i).
Hypothesis Hclosed : forall i n p, i ∈ path -> arena !! i = Some n ->
  node_parent n = Some p -> p ∈ path.

Lemma root_on_path : forall i, i ∈ path -> 0%nat ∈ path.
Proof.
  intros i. induction i as [i IH] using lt_wf_ind. intros Hin.
  destruct (decide (i = 0%nat)) as [->|Hne]; [exact Hin|].
  destruct (Hvalid i Hin) as [n Hn].
  destruct (ok_parent _ Hok i n Hn Hne) as (p & Hp & Hlt).
  apply (IH p Hlt). eapply Hclosed; eauto.
Qed.

Lemma root_child_on_path :
  forall i, i ∈ path -> i <> 0%nat ->
    exists k kn, k ∈ path /\ arena !! k = Some kn /\ node_parent kn = Some 0%nat.
Proof.
  intros i. induction i as [i IH] using lt_wf_ind. intros Hin Hne.
  destruct (Hvalid i Hin) as [n Hn].
  destruct (ok_parent _ Hok i n Hn Hne) as (p & Hp & Hlt).
  destruct (decide (p = 0%nat)) as [->|Hpne]; [eauto|].
  apply (IH p Hlt); [eapply Hclosed; eauto|exact Hpne].
Qed.
End OnePath.

Lemma root_child_unique arena :
  tree_ok arena ->
  forall f cur k1 k2 n1 n2,
    k1 ∈ path_to_root f arena cur -> k2 ∈ path_to_root f arena cur ->
    arena !! k1 = Some n1 -> arena !! k2 = Some n2 ->
    node_parent n1 = Some 0%nat -> node_parent n2 = Some 0%nat -> k1 = k2.
Proof.
  intros Hok. destruct (ok_root _ Hok) as (r & Hr & Hrn).
  assert (Htail : forall f k n, k ∈ path_to_root f arena (Some 0%nat) ->
            arena !! k = Some n -> node_parent n = Some 0%nat -> False).
  { intros f k n Hin Hk Hp. destruct f as [|f]; simpl in Hin;
      [apply elem_of_nil in Hin; contradiction|].
    rewrite Hr, Hrn in Hin. apply elem_of_cons in Hin.
    destruct Hin as [->|Hin].
    - congruence.
    - destruct f; simpl in Hin; apply elem_of_nil in Hin; contradiction. }
  induction f as [|f IH]; intros [c|] k1 k2 n1 n2; simpl;
    try (intros Hin; apply elem_of_nil in Hin; contradiction).
  destruct (arena !! c) as [n|] eqn:Hc;
    [|intros Hin; apply elem_of_nil in Hin; contradiction].
  rewrite !elem_of_cons. intros [->|Hin1] [->|Hin2] Hk1 Hk2 Hp1 Hp2.
  - reflexivity.
  - exfalso. rewrite Hc in Hk1. inversion Hk1; subst n1. rewrite Hp1 in Hin2.
    eapply Htail; eauto.
  - exfalso. rewrite Hc in Hk2. inversion Hk2; subst n2. rewrite Hp2 in Hin1.
    eapply Htail; eauto.
  - eapply IH; eauto.
Qed.

Lemma sum_visits_bump_one arena arena' (k0 : nat) (l : list nat) :
  NoDup l ->
  (forall c, In c l ->
     visits_at arena' c = visits_at arena c + (if decide (c = k0) then 1 else 0)) ->
  sum_visits arena' l
  = sum_visits arena l + (if decide (k0 ∈ l) then 1 else 0).
Proof.
  unfold sum_visits, sumZ.
  induction 1 as [|c l Hnin Hnd IH]; intros Hv; cbn [map fold_right].
  - destruct (decide (k0 ∈ [])) as [Hin|_]; [|lia].
    apply elem_of_nil in Hin. contradiction.
  - rewrite Hv by (left; reflexivity).
    rewrite IH by (intros c' Hc'; apply Hv; right; exact Hc').
    destruct (decide (c = k0)) as [->|Hne].
    + rewrite (decide_False (P := k0 ∈ l)) by exact Hnin.
      rewrite decide_True by (apply elem_of_cons; left; reflexivity). lia.
    + destruct (decide (k0 ∈ l)) as [Hin|Hout].
      * rewrite decide_True by (apply elem_of_cons; right; exact Hin). lia.
      * rewrite decide_False; [lia|]. rewrite elem_of_cons.
        intros [?|?]; [congruence|contradiction].
Qed.

(** Every pass that starts below the root counts once at the root and once
    among the root's children. *)
Lemma backprop_accounting arena (node : nat) (r : float) (fuel : nat)
    (arena' : list (@Node Board)) (it : Z) :
  tree_ok arena -> node <> 0%nat ->
  _backpropagate fuel arena node r = Ret arena' ->
  accounting arena it -> accounting arena' (it + 1).
Proof.
  intros Hok Hne Hret (root & Hroot & Hv & Hsum).
  pose proof (tree_parents_decrease _ Hok) as Hpd.
  destruct (backprop_path_facts arena node r fuel arena' Hpd Hret)
    as (Hhead & Hclosed & Hlen & Hon & Hoff).
  set (path := path_to_root fuel arena (Some node)) in *.
  assert (Hvalid : forall i, i ∈ path -> is_Some (arena !! i)).
  { intros i. apply path_valid. }
  pose proof (root_on_path arena path Hok Hvalid Hclosed node Hhead) as Hroot_in.
  destruct (root_child_on_path arena path Hok Hvalid Hclosed node Hhead Hne)
    as (k0 & kn & Hk0 & Hkn & Hkp).
  destruct (Hon 0%nat root Hroot_in Hroot) as (root' & Hroot' & Hv' & _ & _ & _ & _ & Hch & _).
  exists root'. split; [exact Hroot'|]. split; [lia|]. rewrite Hch.
  assert (Hkid : In k0 (node_children root)).
  { apply (ok_children _ Hok 0%nat root k0 Hroot). eauto. }
  rewrite (sum_visits_bump_one arena arena' k0).
  - rewrite decide_True by (apply list_elem_of_In; exact Hkid). lia.
  - eapply ok_nodup; eauto.
  - intros c Hc. apply (ok_children _ Hok 0%nat root c Hroot) in Hc.
    destruct Hc as (cn & Hcn & Hcp). unfold visits_at. rewrite Hcn.
    destruct (decide (c = k0)) as [->|Hck].
    + destruct (Hon k0 cn Hk0 Hcn) as (cn' & -> & Hcv & _). exact Hcv.
    + rewrite Hoff, Hcn; [lia|]. intros Hin. apply Hck.
      eapply (root_child_unique arena Hok fuel (Some node) c k0); eauto.
Qed.
Lemma get_some arena i n : arena !! i = Some n -> get arena i = Ret n.
Proof. unfold get. now intros ->. Qed.

Lemma get_ret arena i n : get arena i = Ret n -> arena !! i = Some n.
Proof. unfold get. destruct (arena !! i); [congruence|discriminate]. Qed.

Lemma get_cases arena i :
  (exists n, arena !! i = Some n /\ get arena i = Ret n)
  \/ (arena !! i = None /\ get arena i = Stuck).
Proof. unfold get. destruct (arena !! i); eauto. Qed.

Lemma max_loop_in {A K} (key : A -> res K) gt items best bk c :
  max_loop key gt items best bk = Ret c -> c = best \/ In c items.
Proof.
  revert best bk. induction items as [|x rest IH]; intros best bk; simpl.
  - intros E. inversion E. left. reflexivity.
  - destruct (key x) as [k| |]; cbn [mbind res_bind]; try discriminate.
    destruct (gt k bk); intros E; apply IH in E; destruct E as [->|E]; auto.
Qed.

Lemma py_max_in {A K} (key : A -> res K) gt items c :
  py_max key gt items = Ret c -> In c items.
Proof.
  destruct items as [|x rest]; simpl; [discriminate|].
  destruct (key x) as [k| |]; cbn [mbind res_bind]; try discriminate.
  intros E. apply max_loop_in in E. destruct E as [->|E]; auto.
Qed.

Lemma max_loop_total {A K} (key : A -> res K) gt items best bk :
  (forall x, In x items -> exists k, key x = Ret k) ->
  exists c, max_loop key gt items best bk = Ret c.
Proof.
  revert best bk. induction items as [|x rest IH]; intros best bk Hk; simpl.
  - eauto.
  - destruct (Hk x (or_introl eq_refl)) as [k ->]. cbn [mbind res_bind].
    destruct (gt k bk); apply IH; intros y Hy; apply Hk; right; exact Hy.
Qed.

Lemma py_max_total {A K} (key : A -> res K) gt items :
  items <> [] -> (forall x, In x items -> exists k, key x = Ret k) ->
  exists c, py_max key gt items = Ret c.
Proof.
  destruct items as [|x rest]; [congruence|]. intros _ Hk. simpl.
  destruct (Hk x (or_introl eq_refl)) as [k ->]. cbn [mbind res_bind].
  apply max_loop_total. intros y Hy. apply Hk. right. exact Hy.
Qed.

Lemma ucb1_total n (parent_visits : Z) :
  radicand_law -> 0 <= node_visits n -> node_visits n <= parent_visits ->
  exists k, _ucb1 n parent_visits = Ret k.
Proof.
  intros Hrad Hv Hle. unfold _ucb1, q.
  destruct (Z.eqb_spec (node_visits n) 0) as [Hz|Hnz]; [eauto|].
  unfold float_div_int, math_log.
  destruct (Z.eqb_spec (node_visits n) 0) as [Hz|_]; [contradiction|].
  cbn [mbind res_bind].
  destruct (Z.leb_spec parent_visits 0) as [Hbad|_]; [lia|].
  cbn [mbind res_bind]. unfold math_sqrt.
  rewrite (Hrad parent_visits (node_visits n)) by lia.
  cbn [mbind res_bind]. eauto.
Qed.

Lemma select_spec arena :
  tree_ok arena ->
  forall f i s, (i < length arena)%nat -> _select f arena i = Ret s ->
    (i <= s)%nat
    /\ exists ns, arena !! s = Some ns
         /\ negb (is_terminal ns) && is_fully_expanded ns = false.
Proof.
  intros Hok. pose proof (tree_parents_decrease _ Hok) as Hpd.
  induction f as [|f IH]; intros i s Hi; simpl; [discriminate|].
  destruct (get_cases arena i) as [(n & Hn & ->)|[_ ->]];
    cbn [mbind res_bind]; [|discriminate].
  destruct (negb (is_terminal n) && is_fully_expanded n) eqn:Hcond.
  - destruct (py_max _ float_gt (node_children n)) as [c| |] eqn:Hmax;
      cbn [mbind res_bind]; try discriminate.
    apply py_max_in in Hmax.
    apply (ok_children _ Hok i n c Hn) in Hmax. destruct Hmax as (cn & Hcn & Hcp).
    pose proof (Hpd c cn i Hcn Hcp) as Hlt.
    intros Hs. apply IH in Hs; [|eapply lookup_lt_Some; eauto].
    destruct Hs as [Hle Hrest]. split; [lia|exact Hrest].
  - intros E. inversion E; subst s. split; [lia|]. eauto.
Qed.

Lemma select_progress arena :
  tree_ok arena -> moves_ok arena -> moves_law -> radicand_law ->
  forall f i, (i < length arena)%nat ->
    match _select f arena i with
    | Ret _ => True
    | Err _ => False
    | Stuck => (f + i < length arena)%nat
    end.
Proof.
  intros Hok Hmv Hlaw Hrad. pose proof (tree_parents_decrease _ Hok) as Hpd.
  induction f as [|f IH]; intros i Hi; simpl; [lia|].
  destruct (lookup_lt_is_Some_2 arena i Hi) as [n Hn].
  rewrite (get_some _ _ _ Hn). cbn [mbind res_bind].
  destruct (negb (is_terminal n) && is_fully_expanded n) eqn:Hcond; [|exact I].
  apply andb_prop in Hcond. destruct Hcond as [Hterm Hfull].
  apply negb_true_iff in Hterm. unfold is_terminal in Hterm.
  unfold is_fully_expanded in Hfull.
  destruct (node_untried_moves n) as [|? ?] eqn:Hun; [|discriminate].
  assert (Hkids : node_children n <> []).
  { intros Hnil. pose proof (ok_count _ Hmv i n Hn) as Hcount.
    rewrite Hnil, Hun in Hcount. simpl in Hcount.
    apply (Hlaw _ Hterm). destruct (legal_moves (node_board n)); [reflexivity|].
    simpl in Hcount. lia. }
  destruct (py_max_total (fun c => cn ← get arena c; _ucb1 cn (node_visits n))
              float_gt (node_children n) Hkids) as [c Hmax].
  { intros c Hc. apply (ok_children _ Hok i n c Hn) in Hc.
    destruct Hc as (cn & Hcn & Hcp). rewrite (get_some _ _ _ Hcn).
    cbn [mbind res_bind]. apply ucb1_total; [exact Hrad|eapply ok_visits; eauto|].
    eapply ok_visits_le; eauto. }
  rewrite Hmax. cbn [mbind res_bind].
  apply py_max_in in Hmax. apply (ok_children _ Hok i n c Hn) in Hmax.
  destruct Hmax as (cn & Hcn & Hcp).
  pose proof (Hpd c cn i Hcn Hcp) as Hlt.
  specialize (IH c (lookup_lt_Some _ _ _ Hcn)).
  destruct (_select f arena c); [exact I|exact IH|lia].
Qed.

Lemma rollout_loop_total :
  moves_law ->
  forall remaining (sim : Board) (rng : Rng),
    exists sim' rng', rollout_loop remaining sim rng = Ret (sim', rng').
Proof.
  intros Hlaw. induction remaining as [|rem IH]; intros sim rng; simpl.
  - destruct (is_game_over sim); eauto.
  - destruct (is_game_over sim) eqn:Hover; [eauto|].
    destruct (legal_moves sim) as [|m l] eqn:Hl.
    + exfalso. exact (Hlaw sim Hover Hl).
    + destruct (choice rng (m :: l)) as [m' rng']. apply IH.
Qed.

Lemma rollout_total (b : Board) (rng : Rng) :
  moves_law -> exists r rng', _rollout b rng = Ret (r, rng').
Proof.
  intros Hlaw. unfold _rollout.
  destruct (rollout_loop_total Hlaw _ROLLOUT_DEPTH b rng) as (sim & rng' & ->).
  cbn [mbind res_bind].
  destruct (is_game_over sim); [destruct (result sim)|]; eauto.
Qed.
Lemma simulate_and_update_ok arena (rng : Rng) (node budget : nat) n :
  tree_ok arena -> arena !! node = Some n ->
  match simulate_and_update budget arena rng node with
  | Ret (arena', rng') =>
      tree_ok arena' /\ same_links arena arena'
      /\ (node <> 0%nat ->
          forall it, accounting arena it -> accounting arena' (it + 1))
  | Err _ => moves_law -> False
  | Stuck => moves_law -> (budget <= node)%nat
  end.
Proof.
  intros Hok Hn. unfold simulate_and_update.
  rewrite (get_some _ _ _ Hn). cbn [mbind res_bind].
  destruct (_rollout (node_board n) rng) as [[r rng']| |] eqn:Hroll;
    cbn [mbind res_bind].
  - pose proof (backpropagate_ok arena node r budget Hok
                  (lookup_lt_Some _ _ _ Hn)) as Hbp.
    destruct (_backpropagate budget arena node r) as [arena'| |] eqn:Hret;
      cbn [mbind res_bind].
    + destruct Hbp as [Hok' Hsl]. split; [exact Hok'|]. split; [exact Hsl|].
      intros Hne it. eapply backprop_accounting; eauto.
    + intros _. exact Hbp.
    + intros _. exact Hbp.
  - intros Hlaw. destruct (rollout_total (node_board n) rng Hlaw) as (r & g & E).
    congruence.
  - intros Hlaw. destruct (rollout_total (node_board n) rng Hlaw) as (r & g & E).
    congruence.
Qed.

(** One pass of the loop on a well-formed tree. *)
Lemma iteration_ok arena (rng : Rng) (budget : nat) :
  tree_ok arena ->
  match iteration budget arena rng with
  | Ret (arena', rng') =>
      tree_ok arena'
      /\ (length arena' <= S (length arena))%nat
      /\ (forall b0, root_board arena b0 -> root_board arena' b0)
      /\ (forall b0 it, root_board arena b0 -> is_game_over b0 = false ->
            accounting arena it -> accounting arena' (it + 1))
      /\ (shuffle_law -> moves_ok arena -> moves_ok arena')
  | Err _ => laws -> moves_ok arena -> False
  | Stuck => laws -> moves_ok arena -> (budget <= length arena)%nat
  end.
Proof.
  intros Hok. unfold iteration.
  destruct (ok_root _ Hok) as (root & Hroot & Hrootp).
  pose proof (lookup_lt_Some _ _ _ Hroot) as Hlen0.
  pose proof (select_spec arena Hok budget 0%nat) as Hspec.
  pose proof (fun Hmv Hl Hr => select_progress arena Hok Hmv Hl Hr budget 0%nat Hlen0)
    as Hprog.
  destruct (_select budget arena 0%nat) as [s| |]; cbn [mbind res_bind].
  2:{ intros (Hl & _ & _ & Hr) Hmv. exact (Hprog Hmv Hl Hr). }
  2:{ intros (Hl & _ & _ & Hr) Hmv. specialize (Hprog Hmv Hl Hr). lia. }
  destruct (Hspec s Hlen0 eq_refl) as (_ & ns & Hns & Hcond).
  rewrite (get_some _ _ _ Hns). cbn [mbind res_bind].
  destruct (negb (is_terminal ns) && negb (is_fully_expanded ns)) eqn:Hexp.
  - assert (Hun : node_untried_moves ns <> []).
    { apply andb_prop in Hexp. destruct Hexp as [_ Hfull].
      apply negb_true_iff in Hfull. unfold is_fully_expanded in Hfull.
      destruct (node_untried_moves ns); [discriminate|congruence]. }
    destruct (expand_ok arena rng s ns Hok Hns Hun)
      as (a1 & g1 & -> & Hlen1 & Hok1 & Hrb1 & Hacc1 & Hmv1).
    cbn [mbind res_bind].
    destruct (lookup_lt_is_Some_2 a1 (length arena) ltac:(lia)) as [n1 Hn1].
    pose proof (simulate_and_update_ok a1 g1 (length arena) budget n1 Hok1 Hn1) as Htail.
    destruct (simulate_and_update budget a1 g1 (length arena)) as [[a' g']| |].
    + destruct Htail as (Hok' & Hsl & Hacc). split; [exact Hok'|].
      split; [destruct Hsl as [-> _]; lia|]. split; [|split].
      * intros b0 Hb. eapply root_board_same_links; eauto.
      * intros b0 it _ _ Ha. apply Hacc; [lia|]. apply Hacc1. exact Ha.
      * intros Hsh Hm. eapply moves_ok_same_links; eauto.
    + intros (Hl & _) _. exact (Htail Hl).
    + intros (Hl & _) _. specialize (Htail Hl). lia.
  - cbn [mbind res_bind].
    pose proof (simulate_and_update_ok arena rng s budget ns Hok Hns) as Htail.
    destruct (simulate_and_update budget arena rng s) as [[a' g']| |].
    + destruct Htail as (Hok' & Hsl & Hacc). split; [exact Hok'|].
      split; [destruct Hsl as [-> _]; lia|]. split; [|split].
      * intros b0 Hb. eapply root_board_same_links; eauto.
      * intros b0 it (r & Hr & Hb) Hover Ha. apply Hacc; [|exact Ha].
        intros ->. rewrite Hns in Hr. inversion Hr; subst r.
        unfold is_terminal in Hcond, Hexp. rewrite Hb, Hover in Hcond, Hexp.
        simpl in Hcond, Hexp. rewrite Hcond in Hexp. discriminate.
      * intros _ Hm. eapply moves_ok_same_links; eauto.
    + intros (Hl & _) _. exact (Htail Hl).
    + intros (Hl & _) _. specialize (Htail Hl).
      pose proof (lookup_lt_Some _ _ _ Hns). lia.
Qed.
End SearchFacts.

(** ** The search loop and its result *)

Section LoopFacts.
Context {Board : Type} `{PositionOracle Board} `{MathLib}.
Context {Rng : Type} `{RandomSource Rng} {Clk : Type} `{MonotonicClock Clk}.
Implicit Types (arena : list (@Node Board)) (n : @Node Board).

Lemma search_loop_ok (budget : nat) (deadline : float) (b0 : Board) :
  forall fuel arena (rng : Rng) (clk : Clk) (it : Z),
    tree_ok arena -> root_board arena b0 ->
    match search_loop budget fuel deadline arena rng clk it with
    | Ret (arena', _, _, it') =>
        tree_ok arena' /\ root_board arena' b0
        /\ (is_game_over b0 = false -> accounting arena it -> accounting arena' it')
        /\ (shuffle_law -> moves_ok arena -> moves_ok arena')
    | Err _ => laws -> moves_ok arena -> False
    | Stuck => True
    end.
Proof.
  induction fuel as [|fuel IH]; intros arena rng clk it Hok Hrb; simpl; [exact I|].
  destruct (monotonic clk) as [now clk'].
  destruct (PrimFloat.ltb now deadline).
  2:{ split; [exact Hok|]. split; [exact Hrb|]. split; auto. }
  pose proof (iteration_ok arena rng budget Hok) as Hit.
  destruct (iteration budget arena rng) as [[a1 g1]| |]; cbn [mbind res_bind];
    [|exact Hit|exact I].
  destruct Hit as (Hok1 & _ & Hrb1 & Hacc1 & Hmv1).
  specialize (IH a1 g1 clk' (it + 1) Hok1 (Hrb1 b0 Hrb)).
  destruct (search_loop budget fuel deadline a1 g1 clk' (it + 1))
    as [[[[a' g'] c'] it']| |]; [|intros Hlaws Hmv|exact I].
  - destruct IH as (Hok' & Hrb' & Hacc' & Hmv'). split; [exact Hok'|].
    split; [exact Hrb'|]. split.
    + intros Hover Ha. apply Hacc'; [exact Hover|]. eapply Hacc1; eauto.
    + intros Hsh Hm. auto.
  - apply (IH Hlaws). apply Hmv1; [apply Hlaws|exact Hmv].
Qed.

Lemma search_loop_completes (budget : nat) (deadline : float) :
  laws ->
  forall fuel (k : nat) arena (rng : Rng) (clk : Clk) (it : Z),
    tree_ok arena -> moves_ok arena ->
    clock_passes k deadline clk = true ->
    (k < fuel)%nat -> (length arena + k <= budget)%nat ->
    search_loop budget fuel deadline arena rng clk it <> Stuck.
Proof.
  intros Hlaws. induction fuel as [|fuel IH];
    intros k arena rng clk it Hok Hmv Hclk Hk Hb; [lia|].
  simpl. destruct k as [|k]; simpl in Hclk;
    destruct (monotonic clk) as [now clk'];
    destruct (PrimFloat.ltb now deadline); try discriminate.
  pose proof (iteration_ok arena rng budget Hok) as Hit.
  destruct (iteration budget arena rng) as [[a1 g1]| |]; cbn [mbind res_bind].
  - destruct Hit as (Hok1 & Hlen1 & _ & _ & Hmv1).
    apply (IH k); auto; try lia. apply Hmv1; [apply Hlaws|exact Hmv].
  - exfalso. exact (Hit Hlaws Hmv).
  - specialize (Hit Hlaws Hmv). lia.
Qed.

Lemma initial_tree (rng : Rng) (board : Board) :
  let root := fst (new_node rng board None None) in
  tree_ok [root] /\ root_board [root] board /\ accounting [root] 0
  /\ (shuffle_law -> moves_ok [root]).
Proof.
  intros root.
  destruct (new_node_fields rng board None None)
    as (Hb & Hp & Hm & Hc & Hv & Hu). fold root in Hb, Hp, Hm, Hc, Hv, Hu.
  assert (Hone : forall i (x : @Node Board), [root] !! i = Some x -> i = 0%nat /\ x = root).
  { intros [|i] x Hx; simpl in Hx; [inversion Hx; auto|].
    rewrite lookup_nil in Hx. discriminate. }
  split; [|split; [|split]].
  - split.
    + exists root. split; [reflexivity|exact Hp].
    + intros i x Hx Hne. apply Hone in Hx. tauto.
    + intros p x c Hx. apply Hone in Hx. destruct Hx as [-> ->]. rewrite Hc.
      split; [intros []|]. intros (cn & Hcn & Hcp). apply Hone in Hcn.
      destruct Hcn as [_ ->]. congruence.
    + intros p x Hx. apply Hone in Hx. destruct Hx as [_ ->]. rewrite Hc. constructor.
    + intros c x Hx. apply Hone in Hx. destruct Hx as [_ ->]. lia.
    + intros c x p px Hx Hpar _. apply Hone in Hx. destruct Hx as [_ ->]. congruence.
  - exists root. split; [reflexivity|exact Hb].
  - exists root. split; [reflexivity|]. split; [exact Hv|]. rewrite Hc. reflexivity.
  - intros Hsh. pose proof (Hsh rng (legal_moves board)) as Hperm. split.
    + intros p x Hx. apply Hone in Hx. destruct Hx as [_ ->].
      rewrite Hc, Hu, Hb. simpl. apply Permutation_length. exact Hperm.
    + intros p x m Hx Hin. apply Hone in Hx. destruct Hx as [_ ->].
      rewrite Hu in Hin. rewrite Hb. eapply Permutation_in; eauto.
    + intros c x p px Hx Hpar _. apply Hone in Hx. destruct Hx as [_ ->]. congruence.
Qed.

(** The choice of the move once the loop has ended: never an error, and a
    legal move of the root position. *)
Lemma mcts_finish_ok arena (rng : Rng) (board : Board) :
  tree_ok arena -> moves_ok arena -> root_board arena board ->
  choice_law -> legal_moves board <> [] ->
  exists m rng', mcts_finish (legal_moves board) arena rng = Ret (Some m, rng')
                 /\ In m (legal_moves board).
Proof.
  intros Hok Hmv (root & Hroot & Hb) Hch Hlegal. unfold mcts_finish.
  rewrite (get_some _ _ _ Hroot). cbn [mbind res_bind].
  destruct (node_children root) as [|c0 cs] eqn:Hkids.
  - unfold random_choice. destruct (legal_moves board) as [|m0 l] eqn:Hl; [congruence|].
    cbn [mbind res_bind]. pose proof (Hch rng (m0 :: l) ltac:(congruence)) as Hin.
    destruct (choice rng (m0 :: l)) as [m rng']. cbn [mbind res_bind].
    exists m, rng'. split; [reflexivity|exact Hin].
  - rewrite <- Hkids.
    destruct (py_max_total (fun c => cn ← get arena c; Ret (node_visits cn)) Z.gtb
                (node_children root)) as [best Hbest].
    { rewrite Hkids. discriminate. }
    { intros c Hc. apply (ok_children _ Hok 0%nat root c Hroot) in Hc.
      destruct Hc as (cn & Hcn & _). rewrite (get_some _ _ _ Hcn).
      cbn [mbind res_bind]. eauto. }
    rewrite Hbest. cbn [mbind res_bind]. apply py_max_in in Hbest.
    apply (ok_children _ Hok 0%nat root best Hroot) in Hbest.
    destruct Hbest as (bn & Hbn & Hbp).
    rewrite (get_some _ _ _ Hbn). cbn [mbind res_bind].
    destruct (ok_moves _ Hmv best bn 0%nat root Hbn Hbp Hroot) as (m & Hm & Hin).
    rewrite Hm. exists m, rng. split; [reflexivity|]. rewrite <- Hb. exact Hin.
Qed.

(** With the laws, [_mcts_search] on a position with a legal move raises
    nothing, whatever the budget, and what it returns is a legal move. *)
Lemma mcts_search_safe (fuel : nat) (board : Board) (time_limit : float)
    (rng : Rng) (clk : Clk) :
  laws -> legal_moves board <> [] ->
  match _mcts_search fuel board time_limit rng clk with
  | Ret (m, _, _) => exists mv, m = Some mv /\ In mv (legal_moves board)
  | Err _ => False
  | Stuck => True
  end.
Proof.
  intros Hlaws Hlegal. unfold _mcts_search.
  destruct (legal_moves board) as [|m1 [|m2 l]] eqn:Hl; [congruence| |].
  { exists m1. split; [reflexivity|left; reflexivity]. }
  destruct (initial_tree rng board) as (Hok & Hrb & _ & Hmv).
  destruct (new_node rng board None None) as [root rng1]. cbn [fst] in *.
  destruct (monotonic clk) as [t0 clk1].
  pose proof (search_loop_ok fuel (PrimFloat.add t0 time_limit) board fuel
                [root] rng1 clk1 0 Hok Hrb) as Hloop.
  destruct (search_loop fuel fuel (PrimFloat.add t0 time_limit) [root] rng1 clk1 0)
    as [[[[a' g'] c'] it']| |]; cbn [mbind res_bind];
    [|apply (Hloop Hlaws); apply Hmv; apply Hlaws|exact I].
  destruct Hloop as (Hok' & Hrb' & _ & Hmv').
  destruct (mcts_finish_ok a' g' board Hok' (Hmv' ltac:(apply Hlaws)
              (Hmv ltac:(apply Hlaws))) Hrb' ltac:(apply Hlaws)) as (m & g2 & Hfin & Hin).
  { rewrite Hl. discriminate. }
  rewrite Hl in Hfin, Hin. rewrite Hfin. cbn [mbind res_bind]. eauto.
Qed.

(** With the laws and a clock that reaches the deadline within the budget,
    [_mcts_search] returns. *)
Lemma mcts_search_completes (fuel k : nat) (board : Board) (time_limit : float)
    (rng : Rng) (clk : Clk) :
  laws -> legal_moves board <> [] ->
  deadline_reached k time_limit clk = true -> (k < fuel)%nat ->
  exists m rng' clk',
    _mcts_search fuel board time_limit rng clk = Ret (Some m, rng', clk')
    /\ In m (legal_moves board).
Proof.
  intros Hlaws Hlegal Hclk Hk.
  pose proof (mcts_search_safe fuel board time_limit rng clk Hlaws Hlegal) as Hsafe.
  assert (Hns : _mcts_search fuel board time_limit rng clk <> Stuck).
  { unfold _mcts_search. unfold deadline_reached in Hclk.
    destruct (legal_moves board) as [|m1 [|m2 l]] eqn:Hl; try discriminate.
    destruct (initial_tree rng board) as (Hok & Hrb & _ & Hmv).
    destruct (new_node rng board None None) as [root rng1]. cbn [fst] in *.
    destruct (monotonic clk) as [t0 clk1].
    pose proof (search_loop_completes fuel (PrimFloat.add t0 time_limit) Hlaws
                  fuel k [root] rng1 clk1 0 Hok (Hmv ltac:(apply Hlaws)) Hclk Hk
                  ltac:(simpl; lia)) as Hcomp.
    pose proof (search_loop_ok fuel (PrimFloat.add t0 time_limit) board fuel
                  [root] rng1 clk1 0 Hok Hrb) as Hloop.
    destruct (search_loop fuel fuel (PrimFloat.add t0 time_limit) [root] rng1 clk1 0)
      as [[[[a' g'] c'] it']| |]; cbn [mbind res_bind]; try congruence.
    destruct Hloop as (Hok' & Hrb' & _ & Hmv').
    destruct (mcts_finish_ok a' g' board Hok' (Hmv' ltac:(apply Hlaws)
                (Hmv ltac:(apply Hlaws))) Hrb' ltac:(apply Hlaws)) as (m & g2 & Hfin & _).
    { rewrite Hl. discriminate. }
    rewrite Hl in Hfin. rewrite Hfin. cbn [mbind res_bind]. discriminate. }
  destruct (_mcts_search fuel board time_limit rng clk) as [[[m g] c]| |];
    [|contradiction|congruence].
  destruct Hsafe as (mv & -> & Hin). eauto.
Qed.
End LoopFacts.

(** ** The claims about both engines *)

Section EngineClaims.
Context {Board : Type} `{PositionOracle Board} `{MathLib}.
Context {Rng : Type} `{RandomSource Rng} {Clk : Type} `{MonotonicClock Clk}.

Lemma decorate_moves (board : Board) (moves : list Move) :
  map snd (fst (decorate board moves)) = moves.
Proof.
  revert board. induction moves as [|m rest IH]; intros board; simpl; [reflexivity|].
  destruct (_move_order_key board m) as [k b1].
  specialize (IH b1). destruct (decorate b1 rest) as [keyed b2].
  simpl in *. now rewrite IH.
Qed.

Lemma ordered_moves_perm (board : Board) :
  Permutation (fst (_ordered_moves board)) (legal_moves board).
Proof.
  unfold _ordered_moves.
  pose proof (decorate_moves board (legal_moves board)) as Hd.
  destruct (decorate board (legal_moves board)) as [keyed b1]. simpl in *.
  rewrite <- Hd. apply Permutation_map. apply sort_by_key_perm.
Qed.

Lemma search_root_loop_in rec moves depth beta bm bs alpha (board : Board)
    bm' bs' b' :
  search_root_loop rec moves depth beta bm bs alpha board = Some (bm', bs', b') ->
  bm' = bm \/ In bm' moves.
Proof.
  revert bm bs alpha board.
  induction moves as [|m rest IH]; intros bm bs alpha board; simpl.
  - intros E. inversion E. left. reflexivity.
  - destruct (rec (push board m) (depth - 1) (- beta) (- alpha)) as [[r b1]|];
      [|discriminate].
    destruct (- r >? bs); intros E; apply IH in E; destruct E as [->|E]; auto.
Qed.

Lemma search_root_ok_legal (fuel : nat) (board : Board) (depth : Z) m b' :
  _search_root fuel board depth = Ok m b' -> In m (legal_moves board).
Proof.
  unfold _search_root, search_root_scored.
  pose proof (ordered_moves_perm board) as Hperm.
  destruct (_ordered_moves board) as [[|m0 rest] b1]; [discriminate|].
  simpl in Hperm.
  destruct (search_root_loop _ _ _ _ _ _ _ _) as [[[bm bs] b2]|] eqn:Hloop;
    [|discriminate].
  intros E. inversion E; subst bm b2.
  apply search_root_loop_in in Hloop.
  eapply Permutation_in; [exact Hperm|].
  destruct Hloop as [->|Hin]; [left; reflexivity|exact Hin].
Qed.

Lemma search_root_raise_iff (fuel : nat) (board : Board) (depth : Z) :
  (exists e b', _search_root fuel board depth = Raise e b')
  <-> legal_moves board = [].
Proof.
  unfold _search_root, search_root_scored.
  pose proof (ordered_moves_perm board) as Hperm.
  destruct (_ordered_moves board) as [[|m0 rest] b1]; simpl in Hperm.
  - split; [|eauto]. intros _. apply Permutation_nil. exact Hperm.
  - split.
    + intros (e & b' & E).
      destruct (search_root_loop _ _ _ _ _ _ _ _) as [[[bm bs] b2]|]; discriminate.
    + intros Hnil. rewrite Hnil in Hperm. symmetry in Hperm.
      apply Permutation_nil in Hperm. discriminate.
Qed.


Lemma search_root_returns (fuel : nat) (board : Board) (depth : Z) :
  1 <= depth -> (Z.to_nat depth <= fuel)%nat -> legal_moves board <> [] ->
  exists m b', _search_root fuel board depth = Ok m b' /\ In m (legal_moves board).
Proof.
  intros Hd Hf Hlegal.
  pose proof (search_root_not_out_of_fuel board depth fuel Hd Hf) as Hterm.
  destruct (_search_root fuel board depth) as [m b'|e b'|] eqn:E.
  - exists m, b'. split; [reflexivity|]. eapply search_root_ok_legal; eauto.
  - exfalso. apply Hlegal. apply (search_root_raise_iff fuel board depth). eauto.
  - congruence.
Qed.
Lemma negamax_loop_frame rec moves depth beta :
  undo_law ->
  (forall (b : Board) a bt v b', rec b (depth - 1) a bt = Some (v, b') -> b' = b) ->
  forall best alpha (board : Board) v b',
    negamax_loop rec moves depth beta best alpha board = Some (v, b') -> b' = board.
Proof.
  intros Hundo Hrec. induction moves as [|m rest IH]; intros best alpha board v b'; simpl.
  - intros E. now inversion E.
  - destruct (rec (push board m) (depth - 1) (- beta) (- alpha)) as [[r b1]|] eqn:Er;
      [|discriminate].
    apply Hrec in Er. subst b1. rewrite !Hundo.
    destruct (_ >=? beta); [intros E; now inversion E|apply IH].
Qed.

Lemma negamax_frame (fuel : nat) :
  undo_law ->
  forall (board : Board) depth alpha beta v b',
    _negamax fuel board depth alpha beta = Some (v, b') -> b' = board.
Proof.
  intros Hundo. induction fuel as [|fuel IH]; intros board depth alpha beta v b';
    simpl; [discriminate|].
  destruct ((depth =? 0) || is_game_over board); [intros E; now inversion E|].
  rewrite ordered_moves_frame by exact Hundo.
  apply negamax_loop_frame; [exact Hundo|]. intros b a bt v' b1. apply IH.
Qed.

Lemma search_root_loop_frame rec moves depth beta :
  undo_law ->
  (forall (b : Board) a bt v b', rec b (depth - 1) a bt = Some (v, b') -> b' = b) ->
  forall bm bs alpha (board : Board) bm' bs' b',
    search_root_loop rec moves depth beta bm bs alpha board = Some (bm', bs', b') ->
    b' = board.
Proof.
  intros Hundo Hrec. induction moves as [|m rest IH];
    intros bm bs alpha board bm' bs' b'; simpl.
  - intros E. now inversion E.
  - destruct (rec (push board m) (depth - 1) (- beta) (- alpha)) as [[r b1]|] eqn:Er;
      [|discriminate].
    apply Hrec in Er. subst b1. rewrite !Hundo.
    destruct (- r >? bs); apply IH.
Qed.

(** Under the undo law [_search_root] hands the board back as it got it,
    whether it returns a move or raises. *)
Lemma search_root_frame (fuel : nat) (board : Board) (depth : Z) :
  undo_law ->
  match _search_root fuel board depth with
  | Ok _ b' => b' = board
  | Raise _ b' => b' = board
  | OutOfFuel => True
  end.
Proof.
  intros Hundo. unfold _search_root, search_root_scored.
  rewrite ordered_moves_frame by exact Hundo.
  destruct (ordered board) as [|m0 rest]; [reflexivity|].
  destruct (search_root_loop _ _ _ _ _ _ _ _) as [[[bm bs] b2]|] eqn:Hloop; [|exact I].
  eapply search_root_loop_frame; [exact Hundo| |exact Hloop].
  intros b a bt v b'. apply negamax_frame. exact Hundo.
Qed.

(** C3: on a position with a legal move both engines return a move of the
    legal-move list of that position: the root search for every depth
    [>= 1], the tree search on each of its paths (single move, most
    visited child, random fallback) once the clock has reached the
    deadline. *)
Theorem engines_return_legal_move (board : Board) (depth : Z) (fuel k : nat)
    (time_limit : float) (rng : Rng) (clk : Clk) :
  laws -> legal_moves board <> [] ->
  1 <= depth -> (Z.to_nat depth <= fuel)%nat ->
  deadline_reached k time_limit clk = true -> (k < fuel)%nat ->
  (exists m b', _search_root fuel board depth = Ok m b'
                /\ In m (legal_moves board))
  /\ (exists m rng' clk',
        _mcts_search fuel board time_limit rng clk = Ret (Some m, rng', clk')
        /\ In m (legal_moves board)).
Proof.
  intros Hlaws Hlegal Hd Hf Hclk Hk. split.
  - now apply search_root_returns.
  - eapply mcts_search_completes; eauto.
Qed.


(** C7, amended: on a position with exactly one legal move [_mcts_search]
    returns that move at once, whatever its budget, reading no clock and
    drawing nothing; [_search_root] returns that move too, for every depth
    [>= 1], but only after it has searched below it: without a budget for
    [_negamax] it does not return. *)
Theorem single_move_behaviour (board : Board) (m : Move) (depth : Z) (fuel : nat)
    (time_limit : float) (rng : Rng) (clk : Clk) :
  undo_law -> legal_moves board = [m] ->
  1 <= depth -> (Z.to_nat depth <= fuel)%nat ->
  (forall fuel', _mcts_search fuel' board time_limit rng clk = Ret (Some m, rng, clk))
  /\ _search_root fuel board depth = Ok m board
  /\ _search_root 0 board depth = OutOfFuel.
Proof.
  intros Hundo Hone Hd Hf. split; [|split].
  - intros fuel'. unfold _mcts_search. rewrite Hone. reflexivity.
  - destruct (search_root_returns fuel board depth Hd Hf) as (m' & b' & E & Hin).
    { rewrite Hone. discriminate. }
    rewrite Hone in Hin. destruct Hin as [<-|[]].
    pose proof (search_root_frame fuel board depth Hundo) as Hfr.
    rewrite E in Hfr. now subst b'.
  - unfold _search_root, search_root_scored.
    rewrite ordered_moves_frame by exact Hundo.
    unfold ordered. rewrite Hone. reflexivity.
Qed.

(** C8, amended: when the root position is not a finished game, the tree
    the search loop leaves after [iterations] passes has [iterations] as
    the visit count of its root and as the sum of the visit counts of the
    root's children. *)
Theorem visit_accounting (board : Board) (fuel : nat) (time_limit : float)
    (rng : Rng) (clk : Clk) (arena : list (@Node Board)) (iterations : Z) :
  is_game_over board = false ->
  mcts_tree fuel board time_limit rng clk = Ret (arena, iterations) ->
  exists root, arena !! 0%nat = Some root
    /\ node_visits root = iterations
    /\ sum_visits arena (node_children root) = iterations.
Proof.
  intros Hover. unfold mcts_tree.
  destruct (initial_tree rng board) as (Hok & Hrb & Hacc & _).
  destruct (new_node rng board None None) as [root rng1]. cbn [fst] in *.
  destruct (monotonic clk) as [t0 clk1].
  pose proof (search_loop_ok fuel (PrimFloat.add t0 time_limit) board fuel
                [root] rng1 clk1 0 Hok Hrb) as Hloop.
  destruct (search_loop fuel fuel (PrimFloat.add t0 time_limit) [root] rng1 clk1 0)
    as [[[[a' g'] c'] it']| |]; cbn [mbind res_bind]; try discriminate.
  intros E. inversion E; subst a' it'.
  destruct Hloop as (_ & _ & Ha & _). exact (Ha Hover Hacc).
Qed.

(** C9: [select_move] of either agent leaves the caller's board as it was,
    whatever the outcome, for the search works on a copy; and inside the
    alpha-beta search every [push] is undone, that of the move orderer
    included, so that the copy too ends in the state it started in. *)
Theorem select_move_leaves_board_unchanged (heap : list Board) (board : nat)
    (b : Board) (depth : Z) (fuel : nat) (time_limit : float) (rng : Rng)
    (clk : Clk) :
  undo_law -> heap !! board = Some b ->
  match minimax_select_move fuel depth heap board with
  | Ok _ heap' => heap' !! board = Some b /\ heap' = heap ++ [b]
  | Raise _ heap' => heap' !! board = Some b /\ heap' = heap ++ [b]
  | OutOfFuel => True
  end
  /\ (forall move, snd (_move_order_key b move) = b)
  /\ snd (mcts_select_move fuel time_limit heap board rng clk) !! board = Some b
  /\ snd (mcts_select_move fuel time_limit heap board rng clk) = heap ++ [b].
Proof.
  intros Hundo Hb.
  assert (Hkeep : (heap ++ [b]) !! board = Some b).
  { rewrite lookup_app_l by (eapply lookup_lt_Some; eauto). exact Hb. }
  assert (Hsame : <[length heap := b]> (heap ++ [b]) = heap ++ [b]).
  { apply list_insert_id. rewrite lookup_app_r by lia.
    rewrite Nat.sub_diag. reflexivity. }
  split; [|split; [|split]].
  - unfold minimax_select_move. rewrite Hb.
    pose proof (search_root_frame fuel b depth Hundo) as Hfr.
    destruct (_search_root fuel b depth) as [m b'|e b'|]; [| |exact I];
      subst b'; rewrite Hsame; auto.
  - intros move. rewrite move_order_key_frame by exact Hundo. reflexivity.
  - unfold mcts_select_move. rewrite Hb. exact Hkeep.
  - unfold mcts_select_move. rewrite Hb. reflexivity.
Qed.
End EngineClaims.

(** ** The claims on the fixtures *)

Lemma fixture_moves_law : moves_law (Board := FixtureBoard).
Proof.
  intros [fx hist]. cbn. unfold fx_stuck, fx_played. cbn.
  destruct hist; cbn; [|discriminate].
  destruct (fx_moves fx); cbn; [discriminate|]. intros _. discriminate.
Qed.

Lemma fixture_radicand_law : radicand_law.
Proof.
  intros n v _ _. cbn.
  rewrite FloatAxioms.ltb_spec, FloatAxioms.div_spec. reflexivity.
Qed.

Lemma fixture_laws : laws (Board := FixtureBoard) (Rng := unit).
Proof.
  split; [exact fixture_moves_law|]. split; [|split; [|exact fixture_radicand_law]].
  - intros g l. reflexivity.
  - intros g [|m l] Hne; [congruence|]. left. reflexivity.
Qed.

Lemma engines_return_legal_move_witness :
  (exists m b', _search_root 5 two_captures 2 = Ok m b'
                /\ In m (legal_moves two_captures))
  /\ (exists m rng' clk',
        _mcts_search 5 two_captures 2%float tt 0 = Ret (Some m, rng', clk')
        /\ In m (legal_moves two_captures)).
Proof.
  apply (engines_return_legal_move two_captures 2 5 2 2%float tt 0 fixture_laws);
    [discriminate|lia|lia|vm_compute; reflexivity|lia].
Defined.


Lemma single_move_behaviour_witness :
  (forall fuel', _mcts_search fuel' only_move 2%float tt 0 = Ret (Some Ka2, tt, 0))
  /\ _search_root 2 only_move 2 = Ok Ka2 only_move
  /\ _search_root 0 only_move 2 = OutOfFuel.
Proof.
  apply (single_move_behaviour only_move Ka2 2 2 2%float tt 0 fixture_undo_law);
    [reflexivity|lia|lia].
Defined.

(** C7 as stated fails for the alpha-beta engine: on [only_move], whose one
    legal move is Ka2, the root search does not return without entering
    [_negamax]. *)
Lemma root_search_has_no_shortcut : ~ shortcut_without_search only_move 3.
Proof.
  intros Hs. destruct (Hs Ka2 eq_refl) as [b' E].
  vm_compute in E. discriminate.
Qed.

Lemma visit_accounting_witness :
  exists arena iterations,
    mcts_tree 5 two_captures 2%float tt 0 = Ret (arena, iterations)
    /\ exists root, arena !! 0%nat = Some root
         /\ node_visits root = iterations
         /\ sum_visits arena (node_children root) = iterations.
Proof.
  eexists _, _. split; [vm_compute; reflexivity|].
  apply (visit_accounting two_captures 5 2%float tt 0);
    [reflexivity|vm_compute; reflexivity].
Defined.

(** C8 as stated fails: with bare kings the root has three legal moves and
    is a finished game; the one pass the clock allows ends at the root, so
    the root has one visit and no child. *)
Lemma visit_accounting_fails_at_finished_game :
  exists arena iterations,
    (2 <= length (legal_moves bare_kings))%nat
    /\ mcts_tree 5 bare_kings 2%float tt 0 = Ret (arena, iterations)
    /\ iterations = 1
    /\ ~ accounting arena iterations.
Proof.
  eexists _, _. split; [vm_compute; lia|].
  split; [vm_compute; reflexivity|]. split; [reflexivity|].
  intros (root & Hroot & Hv & Hsum).
  vm_compute in Hroot. inversion Hroot; subst root.
  vm_compute in Hsum. discriminate.
Qed.

Lemma select_move_leaves_board_unchanged_witness :
  match minimax_select_move 3 2 [two_captures] 0%nat with
  | Ok _ heap' => heap' !! 0%nat = Some two_captures
                  /\ heap' = [two_captures] ++ [two_captures]
  | Raise _ heap' => heap' !! 0%nat = Some two_captures
                     /\ heap' = [two_captures] ++ [two_captures]
  | OutOfFuel => True
  end.
Proof.
  apply (select_move_leaves_board_unchanged [two_captures] 0%nat two_captures
           2 3 2%float tt 0 fixture_undo_law eq_refl).
Defined.

(** * Further properties *)

(** ** The evaluation and the alpha-beta search *)

Section MinimaxExtras.
Context {Board : Type} `{PositionOracle Board}.

Lemma evaluate_not_mate_range (board : Board) :
  is_checkmate board = false -> -60800 <= evaluate board <= 60800.
Proof.
  intros Hm. unfold evaluate. rewrite Hm.
  destruct (_ || _); [lia|].
  cbv zeta. rewrite evaluate_loop_sum.
  pose proof (sum_terms_bound board SQUARES) as Hb.
  change (length SQUARES) with 64%nat in Hb.
  destruct (turn board); lia.
Qed.

(** The mate sentinel is returned for checkmates and for nothing else; every
    other evaluation stays within 60800 centipawns, below the sentinel. *)
Theorem evaluate_sentinel_only_for_mate (board : Board) :
  (evaluate board = - CHECKMATE_SCORE <-> is_checkmate board = true)
  /\ - CHECKMATE_SCORE <= evaluate board <= 60800.
Proof.
  destruct (is_checkmate board) eqn:Hm.
  - assert (E : evaluate board = - CHECKMATE_SCORE).
    { unfold evaluate. now rewrite Hm. }
    rewrite E. unfold CHECKMATE_SCORE. split; [tauto|lia].
  - pose proof (evaluate_not_mate_range board Hm) as Hr.
    unfold CHECKMATE_SCORE. split; [|lia].
    split; [intros E; lia|discriminate].
Qed.

Lemma fold_max_le (value : Board -> Z) (board : Board) (moves : list Move) (E top : Z) :
  E <= top -> (forall m, In m moves -> - value (push board m) <= top) ->
  fold_left (max_step value board) moves E <= top.
Proof.
  revert E. induction moves as [|m rest IH]; intros E HE Hall; simpl; [exact HE|].
  apply IH.
  - unfold max_step. specialize (Hall m (or_introl eq_refl)). lia.
  - intros m' Hm'. apply Hall. right. exact Hm'.
Qed.

Lemma exhaustive_negamax_ceiling (d : nat) (board : Board) :
  exhaustive_negamax d board <= CHECKMATE_SCORE + 1.
Proof.
  pose proof (evaluate_bound board) as Hb.
  destruct d as [|d]; simpl; [lia|].
  destruct (is_game_over board); [lia|].
  apply fold_max_le; [unfold CHECKMATE_SCORE; lia|].
  intros m _. pose proof (exhaustive_negamax_floor d (push board m)) as Hf.
  unfold SCORE_FLOOR in Hf. lia.
Qed.

(** [_negamax] is a fail-soft window search: for a window [alpha < beta] it
    returns the exact negamax value when that lies inside the window, an
    upper bound of it when it returns at most [alpha], a lower bound when it
    returns at least [beta]; and it hands the board back unchanged. *)
Theorem negamax_fail_soft (fuel : nat) (board : Board) (depth alpha beta : Z) :
  undo_law -> 0 <= depth -> (Z.to_nat depth < fuel)%nat -> alpha < beta ->
  exists v, _negamax fuel board depth alpha beta = Some (v, board)
            /\ fail_soft v (exhaustive_negamax (Z.to_nat depth) board) alpha beta.
Proof.
  intros Hundo Hd Hf Hwin.
  destruct (negamax_sound Hundo fuel board depth alpha beta Hd Hf)
    as (v & Hv & _ & Hfs).
  exists v. split; [exact Hv|exact (Hfs Hwin)].
Qed.

(** Called with the window of the root, [_negamax] returns the value of the
    exhaustive search. *)
Theorem negamax_full_window_exact (fuel : nat) (board : Board) (depth : Z) :
  undo_law -> 0 <= depth -> (Z.to_nat depth < fuel)%nat ->
  _negamax fuel board depth (- CHECKMATE_SCORE - 1) (CHECKMATE_SCORE + 1)
  = Some (exhaustive_negamax (Z.to_nat depth) board, board).
Proof.
  intros Hundo Hd Hf.
  destruct (negamax_sound Hundo fuel board depth (- CHECKMATE_SCORE - 1)
              (CHECKMATE_SCORE + 1) Hd Hf) as (v & Hv & Hfloor & Hfs).
  assert (HCM : CHECKMATE_SCORE = 100000) by reflexivity.
  specialize (Hfs ltac:(lia)). unfold fail_soft in Hfs.
  pose proof (exhaustive_negamax_floor (Z.to_nat depth) board) as Hlo.
  pose proof (exhaustive_negamax_ceiling (Z.to_nat depth) board) as Hhi.
  unfold SCORE_FLOOR in *. rewrite Hv. repeat f_equal. lia.
Qed.

(** The result of the reference root: a legal move of largest score, the
    first such in the orderer's order. *)
Lemma exhaustive_root_fold (d : nat) (board : Board) (moves : list Move)
    (bm : Move) (bs : Z) :
  let r := fold_left (exhaustive_root_step d board) moves (bm, bs) in
  bs <= snd r
  /\ (forall m, In m moves -> - exhaustive_negamax d (push board m) <= snd r)
  /\ (r = (bm, bs)
      \/ (In (fst r) moves
          /\ snd r = - exhaustive_negamax d (push board (fst r)))).
Proof.
  revert bm bs. induction moves as [|m rest IH]; intros bm bs; simpl.
  - split; [lia|]. split; [intros m []|]. left. reflexivity.
  - set (score := - exhaustive_negamax d (push board m)).
    assert (Hstep : exhaustive_root_step d board (bm, bs) m
                    = if score >? bs then (m, score) else (bm, bs)) by reflexivity.
    rewrite Hstep. clear Hstep.
    destruct (Z.gtb_spec score bs) as [Hgt|Hle].
    + specialize (IH m score).
      remember (fold_left (exhaustive_root_step d board) rest (m, score)) as r.
      cbv zeta in IH. destruct IH as (H1 & H2 & H3).
      split; [lia|]. split.
      * intros m' [<-|Hin]; [exact H1|now apply H2].
      * right. destruct H3 as [E|[Hin Hs]].
        -- rewrite E. cbn [fst snd]. split; [left; reflexivity|reflexivity].
        -- split; [right; exact Hin|exact Hs].
    + specialize (IH bm bs).
      remember (fold_left (exhaustive_root_step d board) rest (bm, bs)) as r.
      cbv zeta in IH. destruct IH as (H1 & H2 & H3).
      split; [exact H1|]. split.
      * intros m' [<-|Hin]; [fold score; lia|now apply H2].
      * destruct H3 as [E|[Hin Hs]]; [left; exact E|].
        right. split; [right; exact Hin|exact Hs].
Qed.

(** Mate in one: when some legal move checkmates, the root search of depth
    1 returns a checkmating move, with the mate sentinel as its score. *)
Theorem mate_in_one_found (board : Board) (m : Move) (fuel : nat) :
  undo_law -> (1 <= fuel)%nat ->
  In m (legal_moves board) -> is_checkmate (push board m) = true ->
  exists m', search_root_scored fuel board 1 = Ok (m', CHECKMATE_SCORE) board
             /\ In m' (legal_moves board)
             /\ is_checkmate (push board m') = true.
Proof.
  intros Hundo Hf Hin Hmate.
  destruct (search_root_sound board 1 fuel Hundo ltac:(lia) ltac:(simpl; lia))
    as (m' & s & Hres & _ & Hex).
  { intros Hnil. rewrite Hnil in Hin. exact Hin. }
  unfold exhaustive_root in Hex.
  destruct (ordered board) as [|m0 rest] eqn:Hord; [discriminate|].
  assert (Hfold : fold_left (exhaustive_root_step (Z.to_nat 1 - 1) board)
                    (m0 :: rest) (m0, - CHECKMATE_SCORE - 1) = (m', s))
    by congruence.
  clear Hex.
  pose proof (exhaustive_root_fold (Z.to_nat 1 - 1) board (m0 :: rest) m0
                (- CHECKMATE_SCORE - 1)) as Hspec.
  cbv zeta in Hspec. rewrite Hfold in Hspec. cbn [fst snd] in Hspec.
  destruct Hspec as (_ & Hmax & Hwho).
  assert (Hm_ord : In m (m0 :: rest)).
  { rewrite <- Hord. eapply Permutation_in; [symmetry; apply ordered_perm|exact Hin]. }
  change (Z.to_nat 1 - 1)%nat with 0%nat in *. simpl exhaustive_negamax in *.
  assert (HCM : CHECKMATE_SCORE = 100000) by reflexivity.
  assert (Hscore : - evaluate (push board m) = CHECKMATE_SCORE).
  { unfold evaluate. rewrite Hmate. lia. }
  pose proof (Hmax m Hm_ord) as Hge.
  destruct Hwho as [E|[Hin' Hs]].
  { inversion E; subst. lia. }
  pose proof (evaluate_bound (push board m')) as Hb.
  assert (Hs' : s = CHECKMATE_SCORE) by lia.
  exists m'. rewrite Hs' in Hres. split; [exact Hres|]. split.
  - eapply Permutation_in; [apply ordered_perm|]. rewrite Hord. exact Hin'.
  - destruct (is_checkmate (push board m')) eqn:Hc; [reflexivity|].
    pose proof (evaluate_not_mate_range (push board m') Hc). lia.
Qed.

Lemma mirror_squares :
  map mirror_square SQUARES
  = [56; 57; 58; 59; 60; 61; 62; 63; 48; 49; 50; 51; 52; 53; 54; 55;
     40; 41; 42; 43; 44; 45; 46; 47; 32; 33; 34; 35; 36; 37; 38; 39;
     24; 25; 26; 27; 28; 29; 30; 31; 16; 17; 18; 19; 20; 21; 22; 23;
     8; 9; 10; 11; 12; 13; 14; 15; 0; 1; 2; 3; 4; 5; 6; 7]%nat.
Proof. vm_compute. reflexivity. Qed.

Lemma sum_over_mirror (f : Square -> Z) :
  sumZ (map (fun sq => f (mirror_square sq)) SQUARES) = sumZ (map f SQUARES).
Proof.
  rewrite <- (map_map mirror_square f), mirror_squares.
  unfold SQUARES, sumZ. cbn [seq map fold_right]. lia.
Qed.

Lemma bonus_mirror (k : PieceType) (c : Color) (sq : Square) :
  (sq < 64)%nat ->
  positional_table_bonus k (mirror_square sq) (flip c)
  = positional_table_bonus k sq c.
Proof.
  intros Hsq.
  assert (Hall : forallb (fun s =>
            (idx 0 (PST_BLACK k) (mirror_square s) =? idx 0 (PST_WHITE k) s)
            && (idx 0 (PST_WHITE k) (mirror_square s) =? idx 0 (PST_BLACK k) s))
            SQUARES = true).
  { destruct k; vm_compute; reflexivity. }
  rewrite forallb_forall in Hall. specialize (Hall sq).
  assert (Hin : In sq SQUARES) by (unfold SQUARES; apply in_seq; lia).
  specialize (Hall Hin).
  apply andb_prop in Hall. destruct Hall as [H1 H2].
  apply Z.eqb_eq in H1, H2. destruct c; simpl; assumption.
Qed.

Lemma sum_map_ext_in (f g : Square -> Z) (l : list Square) :
  (forall sq, In sq l -> f sq = g sq) -> sumZ (map f l) = sumZ (map g l).
Proof.
  induction l as [|sq l IH]; intros Hext; simpl; [reflexivity|].
  rewrite (Hext sq (or_introl eq_refl)), IH; [reflexivity|].
  intros s Hs. apply Hext. right. exact Hs.
Qed.

(** Evaluation symmetry: a position and the position seen from the other
    side (placement mirrored, colours exchanged, the other side to move)
    have the same evaluation. *)
Theorem evaluate_mirror_symmetric (b b' : Board) :
  mirrored b b' -> evaluate b' = evaluate b.
Proof.
  intros (Hp & Ht & Hm & Hs & Hi & Hd).
  unfold evaluate. rewrite Hm, Hs, Hi, Hd, Ht.
  destruct (is_checkmate b); [reflexivity|].
  destruct (_ || _); [reflexivity|].
  cbv zeta. rewrite !evaluate_loop_sum, !Z.add_0_l.
  assert (Hneg : sumZ (map (square_term b') SQUARES)
                 = sumZ (map (fun sq => - square_term b sq) SQUARES)).
  { rewrite <- (sum_over_mirror (square_term b')).
    apply sum_map_ext_in. intros sq Hsq. unfold SQUARES in Hsq.
    apply in_seq in Hsq.
    unfold square_term. rewrite (Hp sq) by lia.
    destruct (piece_at b sq) as [[k c]|]; simpl; [|reflexivity].
    rewrite (bonus_mirror k c sq) by lia. unfold piece_base_value.
    destruct c; simpl; lia. }
  assert (Hopp : forall l, sumZ (map (fun sq => - square_term b sq) l)
                           = - sumZ (map (square_term b) l)).
  { induction l as [|sq l IH]; simpl; [reflexivity|]. rewrite IH. lia. }
  rewrite Hneg, Hopp. destruct (turn b); simpl; lia.
Qed.
End MinimaxExtras.

(** ** The tree search *)

Section MctsExtras.
Context {Board : Type} `{PositionOracle Board} `{MathLib}.
Context {Rng : Type} `{RandomSource Rng} {Clk : Type} `{MonotonicClock Clk}.
Implicit Types (arena : list (@Node Board)) (n : @Node Board).

Lemma rollout_loop_line :
  choice_law ->
  forall remaining (board sim : Board) (rng rng' : Rng),
    rollout_loop remaining board rng = Ret (sim, rng') ->
    exists line,
      (length line <= remaining)%nat /\ legal_line board line
      /\ sim = fold_left push line board
      /\ ((length line < remaining)%nat -> is_game_over sim = true).
Proof.
  intros Hch. induction remaining as [|rem IH]; intros board sim rng rng'; simpl.
  - destruct (is_game_over board) eqn:Hover; intros E; inversion E; subst;
      exists []; simpl; (split; [lia|]); (split; [exact I|]);
      (split; [reflexivity|]); intros; [assumption|lia].
  - destruct (is_game_over board) eqn:Hover.
    { intros E. inversion E; subst. exists []. simpl. split; [lia|].
      split; [exact I|]. split; [reflexivity|]. intros _. exact Hover. }
    destruct (legal_moves board) as [|m0 l] eqn:Hl; [discriminate|].
    pose proof (Hch rng (m0 :: l) ltac:(discriminate)) as Hin.
    destruct (choice rng (m0 :: l)) as [m rng1]. cbn [fst] in Hin.
    intros E. apply IH in E. destruct E as (line & Hlen & Hline & Hsim & Hstop).
    exists (m :: line). simpl. split; [lia|]. split.
    + split; [exact Hover|]. split; [rewrite Hl; exact Hin|exact Hline].
    + split; [exact Hsim|]. intros Hlt. apply Hstop. lia.
Qed.

(** A rollout plays a line of at most 40 legal moves on a board of its own,
    stops earlier only at a finished game, and reports +1, -1 or 0 for a
    finished game and the material heuristic otherwise. *)
Theorem rollout_plays_legal_line (board : Board) (rng rng' : Rng) (r : float) :
  choice_law -> _rollout board rng = Ret (r, rng') ->
  exists line,
    (length line <= 40)%nat /\ legal_line board line
    /\ ((length line < 40)%nat -> is_game_over (fold_left push line board) = true)
    /\ r = rollout_value (fold_left push line board).
Proof.
  intros Hch. unfold _rollout.
  destruct (rollout_loop _ROLLOUT_DEPTH board rng) as [[sim rng1]| |] eqn:Hloop;
    cbn [mbind res_bind]; try discriminate.
  apply (rollout_loop_line Hch) in Hloop.
  destruct Hloop as (line & Hlen & Hline & -> & Hstop).
  intros E. exists line. split; [exact Hlen|]. split; [exact Hline|].
  split; [exact Hstop|]. unfold rollout_value.
  destruct (is_game_over _); [destruct (result _)|]; inversion E; reflexivity.
Qed.

Lemma material_loop_count (board : Board) (l : list Square) (acc : Z) :
  fold_left (material_step board) l acc = acc + material_by_count board l.
Proof.
  revert acc. induction l as [|sq l IH]; intros acc.
  - unfold material_by_count, count_pieces. simpl. lia.
  - cbn [fold_left]. rewrite IH. unfold material_step, material_by_count, count_pieces.
    cbn [List.filter PIECE_TYPES map sumZ fold_right].
    destruct (piece_at board sq) as [[k c]|].
    + destruct k, c; simpl; lia.
    + simpl. lia.
Qed.

(** The material heuristic depends on the piece counts only: it is the
    hyperbolic tangent of a thousandth of the sum, over the piece kinds, of
    the kind's value times White's count less Black's. *)
Theorem material_eval_by_count (board : Board) :
  _material_eval board
  = math_tanh (PrimFloat.div (float_of_Z (material_by_count board SQUARES))
                 1000%float).
Proof.
  unfold _material_eval. cbv zeta. rewrite material_loop_count, Z.add_0_l.
  reflexivity.
Qed.

Lemma search_loop_count (budget : nat) (deadline : float) :
  forall fuel arena (rng : Rng) (clk : Clk) (it : Z) arena' rng' clk' it',
    tree_ok arena ->
    search_loop budget fuel deadline arena rng clk it = Ret (arena', rng', clk', it') ->
    it' = it + Z.of_nat (readings_below fuel deadline clk)
    /\ (length arena' <= length arena + readings_below fuel deadline clk)%nat.
Proof.
  induction fuel as [|fuel IH]; intros arena rng clk it arena' rng' clk' it' Hok;
    simpl; [discriminate|].
  destruct (monotonic clk) as [now clk1].
  destruct (PrimFloat.ltb now deadline).
  2:{ intros E. inversion E; subst. split; lia. }
  pose proof (iteration_ok arena rng budget Hok) as Hit.
  destruct (iteration budget arena rng) as [[a1 g1]| |]; cbn [mbind res_bind];
    try discriminate.
  destruct Hit as (Hok1 & Hlen1 & _).
  intros E. apply IH in E; [|exact Hok1]. lia.
Qed.

(** The loop makes as many passes as the clock gives consecutive readings
    below the deadline, counts them in [iterations], and adds at most one
    node to the tree in each. *)
Theorem passes_follow_the_clock (board : Board) (fuel : nat) (time_limit : float)
    (rng : Rng) (clk : Clk) (arena : list (@Node Board)) (iterations : Z) :
  mcts_tree fuel board time_limit rng clk = Ret (arena, iterations) ->
  iterations
  = Z.of_nat (readings_below fuel
                (PrimFloat.add (fst (monotonic clk)) time_limit)
                (snd (monotonic clk)))
  /\ (1 <= Z.of_nat (length arena) <= iterations + 1).
Proof.
  unfold mcts_tree.
  destruct (initial_tree rng board) as (Hok & Hrb & _ & _).
  destruct (new_node rng board None None) as [root rng1]. cbn [fst] in *.
  destruct (monotonic clk) as [t0 clk1]. cbn [fst snd].
  pose proof (search_loop_ok fuel (PrimFloat.add t0 time_limit) board fuel
                [root] rng1 clk1 0 Hok Hrb) as Hloop.
  destruct (search_loop fuel fuel (PrimFloat.add t0 time_limit) [root] rng1 clk1 0)
    as [[[[a' g'] c'] it']| |] eqn:Hs; cbn [mbind res_bind]; try discriminate.
  intros E. inversion E; subst a' it'.
  apply search_loop_count in Hs; [|exact Hok]. simpl in Hs.
  destruct Hloop as (Hok' & _).
  destruct (ok_root _ Hok') as (r & Hr & _).
  pose proof (lookup_lt_Some _ _ _ Hr). lia.
Qed.

Lemma boards_ok_same_links arena (arena' : list (@Node Board)) :
  same_links arena arena' -> boards_ok arena -> boards_ok arena'.
Proof.
  intros Hsl Hb c cn p pn Hc Hp Hpn.
  destruct (same_links_back _ _ _ _ Hsl Hc) as (cn0 & Hc0 & Hcb & Hcp & Hcm & _).
  destruct (same_links_back _ _ _ _ Hsl Hpn) as (pn0 & Hp0 & Hpb & _).
  destruct (Hb c cn0 p pn0 Hc0 ltac:(congruence) Hp0) as (m & Hm & Hboard).
  exists m. split; congruence.
Qed.

Lemma boards_ok_expanded arena (rng : Rng) i n untried move :
  tree_ok arena -> arena !! i = Some n -> boards_ok arena ->
  boards_ok (expanded arena i n untried
               (fst (new_node rng (push (node_board n) move) (Some i) (Some move)))).
Proof.
  intros Hok Hi Hb c cn p pn Hc Hp Hpn.
  pose proof (tree_parents_decrease _ Hok) as Hpd.
  destruct (new_node_fields rng (push (node_board n) move) (Some i) (Some move))
    as (Hcb & Hcp & Hcm & _).
  destruct (expanded_back _ _ _ _ _ _ _ Hi Hc)
    as [[-> ->]|(Hlt & y & Hy & Hyb & Hyp & Hym & _)].
  - rewrite Hcp in Hp. inversion Hp; subst p.
    destruct (expanded_back _ _ _ _ _ _ _ Hi Hpn)
      as [[Hi' _]|(_ & y & Hy & Hyb & _)].
    + pose proof (lookup_lt_Some _ _ _ Hi). lia.
    + assert (y = n) by congruence. subst y.
      exists move. split; [exact Hcm|]. rewrite Hcb, Hyb. reflexivity.
  - rewrite Hyp in Hp. pose proof (Hpd c y p Hy Hp) as Hpc.
    destruct (expanded_back _ _ _ _ _ _ _ Hi Hpn)
      as [[Hp' _]|(_ & z & Hz & Hzb & _)]; [lia|].
    destruct (Hb c y p z Hy Hp Hz) as (m & Hm & Hboard).
    exists m. split; congruence.
Qed.

Lemma iteration_boards arena (rng rng' : Rng) (budget : nat)
    (arena' : list (@Node Board)) :
  tree_ok arena -> boards_ok arena ->
  iteration budget arena rng = Ret (arena', rng') -> boards_ok arena'.
Proof.
  intros Hok Hb. unfold iteration.
  destruct (_select budget arena 0%nat) as [s| |]; cbn [mbind res_bind];
    try discriminate.
  destruct (get_cases arena s) as [(ns & Hns & ->)|[_ ->]];
    cbn [mbind res_bind]; [|discriminate].
  destruct (negb (is_terminal ns) && negb (is_fully_expanded ns)) eqn:Hexp.
  - assert (Hun : node_untried_moves ns <> []).
    { apply andb_prop in Hexp. destruct Hexp as [_ Hfull].
      apply negb_true_iff in Hfull. unfold is_fully_expanded in Hfull.
      destruct (node_untried_moves ns); [discriminate|congruence]. }
    destruct (expand_ok arena rng s ns Hok Hns Hun)
      as (a1 & g1 & Hex & Hlen1 & Hok1 & _).
    destruct (list_pop_spec _ Hun) as (move & untried & _ & Hl).
    pose proof (expand_unfold arena rng s ns untried move Hns Hl) as Hform.
    rewrite Hex in Hform. inversion Hform as [[Ha1 Hg1]]. clear Hform.
    rewrite Hex. cbn [mbind res_bind].
    destruct (lookup_lt_is_Some_2 a1 (length arena) ltac:(lia)) as [n1 Hn1].
    pose proof (simulate_and_update_ok a1 g1 (length arena) budget n1 Hok1 Hn1)
      as Htail.
    destruct (simulate_and_update budget a1 g1 (length arena)) as [[a2 g2]| |];
      try discriminate.
    intros E. inversion E; subst a2 g2. destruct Htail as (_ & Hsl & _).
    apply (boards_ok_same_links a1); [exact Hsl|].
    rewrite Ha1. apply boards_ok_expanded; assumption.
  - cbn [mbind res_bind].
    pose proof (simulate_and_update_ok arena rng s budget ns Hok Hns) as Htail.
    destruct (simulate_and_update budget arena rng s) as [[a2 g2]| |];
      try discriminate.
    intros E. inversion E; subst a2 g2. destruct Htail as (_ & Hsl & _).
    apply (boards_ok_same_links arena); assumption.
Qed.

Lemma search_loop_boards (budget : nat) (deadline : float) :
  forall fuel arena (rng : Rng) (clk : Clk) (it : Z) arena' rng' clk' it',
    tree_ok arena -> boards_ok arena ->
    search_loop budget fuel deadline arena rng clk it = Ret (arena', rng', clk', it') ->
    boards_ok arena'.
Proof.
  induction fuel as [|fuel IH]; intros arena rng clk it arena' rng' clk' it' Hok Hb;
    simpl; [discriminate|].
  destruct (monotonic clk) as [now clk1].
  destruct (PrimFloat.ltb now deadline).
  2:{ intros E. inversion E; subst. exact Hb. }
  pose proof (iteration_ok arena rng budget Hok) as Hit.
  destruct (iteration budget arena rng) as [[a1 g1]| |] eqn:Hstep;
    cbn [mbind res_bind]; try discriminate.
  destruct Hit as (Hok1 & _).
  intros E. eapply IH; [exact Hok1| |exact E].
  exact (iteration_boards arena rng g1 budget a1 Hok Hb Hstep).
Qed.

(** The tree the search leaves is well formed: the root has no parent and
    holds the searched position; every other node has a parent of smaller
    index; the children of a node are the nodes that name it as parent,
    each listed once; no node is visited more often than its parent; the
    position of every child is its parent's position with the child's move
    played; and when [shuffle] permutes, that move is a legal move of the
    parent's position, and the children and the untried moves of a node
    are as many as its legal moves. *)
Theorem search_tree_well_formed (board : Board) (fuel : nat) (time_limit : float)
    (rng : Rng) (clk : Clk) (arena : list (@Node Board)) (iterations : Z) :
  mcts_tree fuel board time_limit rng clk = Ret (arena, iterations) ->
  tree_ok arena /\ root_board arena board /\ boards_ok arena
  /\ (shuffle_law -> moves_ok arena /\ reached_by_legal_moves arena).
Proof.
  unfold mcts_tree.
  destruct (initial_tree rng board) as (Hok & Hrb & _ & Hmv).
  destruct (new_node rng board None None) as [root rng1]. cbn [fst] in *.
  destruct (monotonic clk) as [t0 clk1].
  pose proof (search_loop_ok fuel (PrimFloat.add t0 time_limit) board fuel
                [root] rng1 clk1 0 Hok Hrb) as Hloop.
  assert (Hb0 : boards_ok [root]).
  { intros c cn p pn Hc Hp Hpn.
    destruct (ok_root _ Hok) as (r & Hr & Hnone).
    destruct c as [|c]; [congruence|].
    simpl in Hc. rewrite lookup_nil in Hc. discriminate. }
  destruct (search_loop fuel fuel (PrimFloat.add t0 time_limit) [root] rng1 clk1 0)
    as [[[[a' g'] c'] it']| |] eqn:Hs; cbn [mbind res_bind]; try discriminate.
  intros E. inversion E; subst a' it'.
  destruct Hloop as (Hok' & Hrb' & _ & Hmv').
  pose proof (search_loop_boards _ _ _ _ _ _ _ _ _ _ _ Hok Hb0 Hs) as Hb.
  split; [exact Hok'|]. split; [exact Hrb'|]. split; [exact Hb|].
  intros Hsh. assert (Hm : moves_ok arena) by auto. split; [exact Hm|].
  intros c cn p pn Hc Hp Hpn.
  destruct (Hb c cn p pn Hc Hp Hpn) as (m & Hmove & Hboard).
  destruct (ok_moves _ Hm c cn p pn Hc Hp Hpn) as (m' & Hmove' & Hlegal).
  assert (m' = m) by congruence. subst m'.
  exists m. auto.
Qed.

(** [_select] stops at the frontier: the node it returns is a finished game
    or has an untried move, and lies at or below the node it started from. *)
Theorem select_reaches_frontier arena (fuel start s : nat) :
  tree_ok arena -> (start < length arena)%nat ->
  _select fuel arena start = Ret s ->
  (start <= s)%nat
  /\ exists ns, arena !! s = Some ns
       /\ (is_game_over (node_board ns) = true \/ node_untried_moves ns <> []).
Proof.
  intros Hok Hstart Hsel.
  destruct (select_spec arena Hok fuel start s Hstart Hsel) as (Hle & ns & Hns & Hc).
  split; [exact Hle|]. exists ns. split; [exact Hns|].
  unfold is_terminal, is_fully_expanded in Hc.
  destruct (is_game_over (node_board ns)); [left; reflexivity|right].
  destruct (node_untried_moves ns); [discriminate|discriminate].
Qed.

Lemma max_loop_max {A} (key : A -> res Z) items best bk c :
  key best = Ret bk ->
  max_loop key Z.gtb items best bk = Ret c ->
  exists ck, key c = Ret ck /\ bk <= ck
    /\ forall x, In x items -> exists xk, key x = Ret xk /\ xk <= ck.
Proof.
  revert best bk. induction items as [|x rest IH]; intros best bk Hb; simpl.
  - intros E. inversion E; subst c. exists bk. split; [exact Hb|].
    split; [lia|]. intros x [].
  - destruct (key x) as [k| |] eqn:Hk; cbn [mbind res_bind]; try discriminate.
    destruct (Z.gtb_spec k bk) as [Hgt|Hle]; intros E.
    + destruct (IH x k Hk E) as (ck & Hc & Hle' & Hall).
      exists ck. split; [exact Hc|]. split; [lia|].
      intros y [<-|Hy]; [eauto|now apply Hall].
    + destruct (IH best bk Hb E) as (ck & Hc & Hle' & Hall).
      exists ck. split; [exact Hc|]. split; [exact Hle'|].
      intros y [<-|Hy]; [exists k; split; [exact Hk|lia]|now apply Hall].
Qed.

(** Robust child: when the root has children, the move returned is the move
    of a child of the root that no other child of the root exceeds in
    visits, and no random number is drawn. *)
Theorem most_visited_child_is_chosen arena (legal : list Move) (rng rng' : Rng)
    (root : @Node Board) (om : option Move) :
  arena !! 0%nat = Some root -> node_children root <> [] ->
  mcts_finish legal arena rng = Ret (om, rng') ->
  rng' = rng
  /\ exists best bn,
       In best (node_children root) /\ arena !! best = Some bn
       /\ om = node_move bn
       /\ forall c, In c (node_children root) ->
            visits_at arena c <= node_visits bn.
Proof.
  intros Hroot Hkids. unfold mcts_finish.
  rewrite (get_some _ _ _ Hroot). cbn [mbind res_bind].
  destruct (node_children root) as [|c0 cs] eqn:Hc; [congruence|].
  destruct (py_max _ Z.gtb (c0 :: cs)) as [best| |] eqn:Hmax;
    cbn [mbind res_bind]; try discriminate.
  pose proof (py_max_in _ _ _ _ Hmax) as Hin.
  destruct (get_cases arena best) as [(bn & Hbn & ->)|[_ ->]];
    cbn [mbind res_bind]; [|discriminate].
  intros E. inversion E; subst om rng'. split; [reflexivity|].
  exists best, bn. split; [exact Hin|]. split; [exact Hbn|]. split; [reflexivity|].
  simpl in Hmax.
  destruct (get_cases arena c0) as [(n0 & Hn0 & Hg0)|[_ Hg0]];
    rewrite Hg0 in Hmax; cbn [mbind res_bind] in Hmax; [|discriminate].
  apply max_loop_max in Hmax.
  2:{ rewrite Hg0. reflexivity. }
  destruct Hmax as (ck & Hck & Hle & Hall).
  rewrite (get_some _ _ _ Hbn) in Hck. cbn [mbind res_bind] in Hck.
  inversion Hck; subst ck.
  intros c [<-|Hcin].
  - unfold visits_at. rewrite Hn0. exact Hle.
  - destruct (Hall c Hcin) as (xk & Hxk & Hxle).
    destruct (get_cases arena c) as [(cn & Hcn & Hgc)|[_ Hgc]];
      rewrite Hgc in Hxk; cbn [mbind res_bind] in Hxk; [|discriminate].
    inversion Hxk; subst xk. unfold visits_at. rewrite Hcn. exact Hxle.
Qed.
Lemma simulate_visited arena (rng rng' : Rng) (node budget : nat)
    (arena' : list (@Node Board)) :
  tree_ok arena ->
  (forall i n, arena !! i = Some n -> i <> 0%nat -> i <> node ->
     1 <= node_visits n) ->
  simulate_and_update budget arena rng node = Ret (arena', rng') ->
  every_child_visited arena'.
Proof.
  intros Hok Hvis. unfold simulate_and_update.
  destruct (get_cases arena node) as [(n & Hn & ->)|[_ ->]];
    cbn [mbind res_bind]; [|discriminate].
  destruct (_rollout (node_board n) rng) as [[r g1]| |]; cbn [mbind res_bind];
    try discriminate.
  destruct (_backpropagate budget arena node r) as [a1| |] eqn:Hret;
    cbn [mbind res_bind]; try discriminate.
  intros E. inversion E; subst a1 g1.
  destruct (backprop_path_facts arena node r budget arena'
              (tree_parents_decrease _ Hok) Hret)
    as (Hhead & _ & Hlen & Hon & Hoff).
  intros i n' Hi Hne.
  destruct (decide (i ∈ path_to_root budget arena (Some node))) as [Hin|Hout].
  - destruct (lookup_lt_is_Some_2 arena i) as [n0 Hn0].
    { rewrite <- Hlen. eapply lookup_lt_Some; eauto. }
    destruct (Hon i n0 Hin Hn0) as (n1 & Hn1 & Hv & _).
    assert (n1 = n') by congruence. subst n1.
    pose proof (ok_visits _ Hok i n0 Hn0). lia.
  - rewrite (Hoff i Hout) in Hi. apply (Hvis i n' Hi Hne).
    intros ->. contradiction.
Qed.

Lemma iteration_visited arena (rng rng' : Rng) (budget : nat)
    (arena' : list (@Node Board)) :
  tree_ok arena -> every_child_visited arena ->
  iteration budget arena rng = Ret (arena', rng') ->
  every_child_visited arena'.
Proof.
  intros Hok Hvis. unfold iteration.
  destruct (_select budget arena 0%nat) as [s| |]; cbn [mbind res_bind];
    try discriminate.
  destruct (get_cases arena s) as [(ns & Hns & ->)|[_ ->]];
    cbn [mbind res_bind]; [|discriminate].
  destruct (negb (is_terminal ns) && negb (is_fully_expanded ns)) eqn:Hexp.
  - assert (Hun : node_untried_moves ns <> []).
    { apply andb_prop in Hexp. destruct Hexp as [_ Hfull].
      apply negb_true_iff in Hfull. unfold is_fully_expanded in Hfull.
      destruct (node_untried_moves ns); [discriminate|congruence]. }
    destruct (expand_ok arena rng s ns Hok Hns Hun)
      as (a1 & g1 & Hex & _ & Hok1 & _).
    destruct (list_pop_spec _ Hun) as (move & untried & _ & Hl).
    pose proof (expand_unfold arena rng s ns untried move Hns Hl) as Hform.
    rewrite Hex in Hform. inversion Hform as [[Ha1 Hg1]]. clear Hform.
    rewrite Hex. cbn [mbind res_bind].
    apply simulate_visited; [exact Hok1|].
    intros i n Hi Hne Hlast. rewrite Ha1 in Hi.
    destruct (expanded_back _ _ _ _ _ _ _ Hns Hi)
      as [[Hi' _]|(_ & y & Hy & _ & _ & _ & Hv & _)]; [contradiction|].
    rewrite Hv. exact (Hvis i y Hy Hne).
  - cbn [mbind res_bind]. apply simulate_visited; [exact Hok|].
    intros i n Hi Hne _. exact (Hvis i n Hi Hne).
Qed.

Lemma search_loop_visited (budget : nat) (deadline : float) :
  forall fuel arena (rng : Rng) (clk : Clk) (it : Z) arena' rng' clk' it',
    tree_ok arena -> every_child_visited arena ->
    search_loop budget fuel deadline arena rng clk it = Ret (arena', rng', clk', it') ->
    every_child_visited arena'.
Proof.
  induction fuel as [|fuel IH]; intros arena rng clk it arena' rng' clk' it' Hok Hvis;
    simpl; [discriminate|].
  destruct (monotonic clk) as [now clk1].
  destruct (PrimFloat.ltb now deadline).
  2:{ intros E. inversion E; subst. exact Hvis. }
  pose proof (iteration_ok arena rng budget Hok) as Hit.
  destruct (iteration budget arena rng) as [[a1 g1]| |] eqn:Hstep;
    cbn [mbind res_bind]; try discriminate.
  destruct Hit as (Hok1 & _).
  intros E. eapply IH; [exact Hok1| |exact E].
  exact (iteration_visited arena rng g1 budget a1 Hok Hvis Hstep).
Qed.

(** Every node of the tree other than the root has been visited, once at
    least, when a pass of the search ends: a node is created by [_expand]
    and visited by the backpropagation of the same pass.  So [_select]
    never meets a child without visits, and neither the zero of [q] nor the
    infinity of [_ucb1] is ever the value of a node of the tree. *)
Theorem tree_nodes_are_visited (board : Board) (fuel : nat) (time_limit : float)
    (rng : Rng) (clk : Clk) (arena : list (@Node Board)) (iterations : Z)
    (i : nat) (n : @Node Board) :
  mcts_tree fuel board time_limit rng clk = Ret (arena, iterations) ->
  arena !! i = Some n -> i <> 0%nat ->
  1 <= node_visits n
  /\ q n = float_div_int (node_total_value n) (node_visits n)
  /\ forall parent_visits,
       _ucb1 n parent_visits
       = (exploitation ← q n;
          l ← math_log parent_visits;
          ratio ← float_div_int l (node_visits n);
          root ← math_sqrt ratio;
          Ret (PrimFloat.add exploitation (PrimFloat.mul _UCB1_C root))).
Proof.
  unfold mcts_tree.
  destruct (initial_tree rng board) as (Hok & _).
  destruct (new_node rng board None None) as [root rng1]. cbn [fst] in *.
  destruct (monotonic clk) as [t0 clk1].
  destruct (search_loop fuel fuel (PrimFloat.add t0 time_limit) [root] rng1 clk1 0)
    as [[[[a' g'] c'] it']| |] eqn:Hs; cbn [mbind res_bind]; try discriminate.
  intros E Hi Hne. inversion E; subst a' it'.
  assert (Hv : 1 <= node_visits n).
  { eapply (search_loop_visited _ _ _ _ _ _ _ _ _ _ _ Hok); [|exact Hs|exact Hi|exact Hne].
    intros [|j] x Hx Hj; [congruence|].
    simpl in Hx. rewrite lookup_nil in Hx. discriminate. }
  assert (Hz : (node_visits n =? 0) = false) by (apply Z.eqb_neq; lia).
  split; [exact Hv|]. split.
  - unfold q. rewrite Hz. reflexivity.
  - intros pv. unfold _ucb1. rewrite Hz. reflexivity.
Qed.
End MctsExtras.

(** ** The random agent, the game record, the analysis and the service *)

Section ServiceExtras.
Context {Board : Type} `{PositionOracle Board} `{ServiceOracle Board}.
Context {Rng : Type} `{RandomSource Rng}.

(** [RandomAgent.select_move] raises, a [ValueError], exactly when there is
    no legal move, and otherwise returns a legal move. *)
Theorem random_agent_contract (board : Board) (rng : Rng) :
  choice_law ->
  ((exists e, random_select_move board rng = Err e) <-> legal_moves board = [])
  /\ (legal_moves board = [] -> random_select_move board rng = Err ValueError)
  /\ (forall m rng', random_select_move board rng = Ret (m, rng') ->
        In m (legal_moves board)).
Proof.
  intros Hch. unfold random_select_move.
  destruct (legal_moves board) as [|m0 l] eqn:Hl.
  - split; [split; eauto|]. split; [reflexivity|]. discriminate.
  - split; [split; [intros [e E]; discriminate|discriminate]|].
    split; [discriminate|]. intros m rng' E.
    pose proof (Hch rng (m0 :: l) ltac:(discriminate)) as Hin.
    inversion E as [E']. rewrite E' in Hin. exact Hin.
Qed.

(** [Game.apply_move] raises, a [ValueError], exactly when the move is not
    legal in the game's position, and then leaves the game as it was. *)
Theorem apply_move_rejects_illegal (g : Game) (move : Move) (elapsed : float) :
  ((exists e g', apply_move g move elapsed = Raise e g')
   <-> ~ In move (legal_moves (game_board g)))
  /\ (forall e g', apply_move g move elapsed = Raise e g' ->
        e = ValueError /\ g' = g)
  /\ apply_move g move elapsed <> OutOfFuel.
Proof.
  unfold apply_move.
  destruct (bool_decide (move ∈ legal_moves (game_board g))) eqn:Hd; simpl.
  - apply bool_decide_eq_true_1 in Hd. apply list_elem_of_In in Hd.
    split; [|split].
    + split; [|contradiction]. intros (e & g' & E).
      destruct (is_over _); discriminate.
    + intros e g' E. destruct (is_over _); discriminate.
    + destruct (is_over _); discriminate.
  - apply bool_decide_eq_false_1 in Hd. rewrite list_elem_of_In in Hd.
    split; [|split].
    + split; [intros _; exact Hd|eauto].
    + intros e g' E. inversion E. auto.
    + discriminate.
Qed.

Lemma apply_move_legal (g : Game) (m : Move) (e : float) :
  In m (legal_moves (game_board g)) ->
  exists g', apply_move g m e = Ok tt g'
    /\ game_board g' = push (game_board g) m
    /\ game_moves g' = game_moves g ++ [uci m]
    /\ game_timestamps g' = game_timestamps g ++ [e]
    /\ game_white g' = game_white g /\ game_black g' = game_black g
    /\ game_id g' = game_id g
    /\ (is_over g' = true -> game_result g' = Some (get_result g')).
Proof.
  intros Hin. unfold apply_move.
  rewrite bool_decide_eq_true_2 by (apply list_elem_of_In; exact Hin).
  cbn [negb].
  match goal with |- context [if is_over ?x then _ else _] =>
    destruct (is_over x) eqn:Hover end.
  - eexists. split; [reflexivity|]. cbn [game_board game_moves game_timestamps
      game_white game_black game_id game_result].
    repeat (split; [reflexivity|]). intros _. reflexivity.
  - eexists. split; [reflexivity|]. cbn [game_board game_moves game_timestamps
      game_white game_black game_id game_result].
    repeat (split; [reflexivity|]). intros Hov. congruence.
Qed.

Lemma get_result_board (g g' : Game) :
  game_board g' = game_board g -> get_result g' = get_result g.
Proof. intros E. unfold get_result, is_over. rewrite E. reflexivity. Qed.

Lemma after_calls_record :
  forall (calls : list (Move * float)) (g : Game),
    let g' := after_calls g calls in
    let accepted := accepted_calls (game_board g) calls in
    playable (game_board g) (map fst accepted)
    /\ game_board g' = fold_left push (map fst accepted) (game_board g)
    /\ game_moves g' = game_moves g ++ map uci (map fst accepted)
    /\ game_timestamps g' = game_timestamps g ++ map snd accepted
    /\ game_white g' = game_white g /\ game_black g' = game_black g
    /\ game_id g' = game_id g /\ game_created_at g' = game_created_at g
    /\ (accepted = [] -> game_result g' = game_result g)
    /\ (accepted <> [] -> is_over g' = true ->
        game_result g' = Some (get_result g')).
Proof.
  induction calls as [|[m e] rest IH]; intros g; cbv zeta.
  - simpl. rewrite !app_nil_r. repeat split; auto. congruence.
  - unfold after_calls. cbn [fold_left accepted_calls fst].
    fold (after_calls (after_call g (m, e)) rest).
    destruct (decide (m ∈ legal_moves (game_board g))) as [Hd|Hd].
    + rewrite bool_decide_eq_true_2 by exact Hd.
      pose proof Hd as Hin. apply list_elem_of_In in Hin.
      assert (Hstep : exists g1, after_call g (m, e) = g1
                /\ game_board g1 = push (game_board g) m
                /\ game_moves g1 = game_moves g ++ [uci m]
                /\ game_timestamps g1 = game_timestamps g ++ [e]
                /\ game_white g1 = game_white g /\ game_black g1 = game_black g
                /\ game_id g1 = game_id g
                /\ game_created_at g1 = game_created_at g
                /\ (is_over g1 = true -> game_result g1 = Some (get_result g1))).
      { unfold after_call, apply_move. cbn [fst snd].
        rewrite bool_decide_eq_true_2 by exact Hd. cbn [negb].
        match goal with |- context [if is_over ?x then _ else _] =>
          destruct (is_over x) eqn:Hover end.
        - eexists. split; [reflexivity|].
          cbn [game_board game_moves game_timestamps game_white game_black
               game_id game_result game_created_at].
          repeat (split; [reflexivity|]). intros _. reflexivity.
        - eexists. split; [reflexivity|].
          cbn [game_board game_moves game_timestamps game_white game_black
               game_id game_result game_created_at].
          repeat (split; [reflexivity|]). intros Hov. congruence. }
      destruct Hstep as (g1 & -> & Hb1 & Hm1 & Ht1 & Hw1 & Hk1 & Hi1 & Hc1 & Hr1).
      specialize (IH g1). cbv zeta in IH. rewrite Hb1 in IH.
      destruct IH as (Hplay & Hb & Hm & Ht & Hw & Hk & Hi & Hc & Hnil & Hres).
      cbn [map fst snd fold_left playable].
      split; [split; [exact Hin|exact Hplay]|].
      split; [exact Hb|].
      split; [rewrite Hm, Hm1, <- app_assoc; reflexivity|].
      split; [rewrite Ht, Ht1, <- app_assoc; reflexivity|].
      split; [congruence|]. split; [congruence|]. split; [congruence|].
      split; [congruence|]. split; [discriminate|].
      intros _ Hover.
      destruct (accepted_calls (push (game_board g) m) rest) as [|c l] eqn:Hacc.
      * simpl in Hb.
        assert (Hsame : game_board (after_calls g1 rest) = game_board g1)
          by congruence.
        rewrite (Hnil eq_refl), (get_result_board _ _ Hsame).
        apply Hr1. unfold is_over in *. rewrite <- Hsame. exact Hover.
      * apply Hres; [discriminate|exact Hover].
    + rewrite bool_decide_eq_false_2 by exact Hd.
      assert (Hstep : after_call g (m, e) = g).
      { unfold after_call, apply_move. cbn [fst snd].
        rewrite bool_decide_eq_false_2 by exact Hd. reflexivity. }
      rewrite Hstep. exact (IH g).
Qed.

(** After any series of [apply_move] calls on a new game, the record is
    that of the calls the game accepted, those whose move was legal in the
    position reached by the calls accepted before it: the board is the
    starting position with their moves played in order, each legal where
    it was played; [moves] holds the UCI strings of these moves and
    [timestamps] their elapsed times, in order; the id, the players and
    the creation time are as given; [result] is [None] while no call has
    been accepted, and holds [get_result()] when the game is over after an
    accepted call. *)
Theorem game_record_consistent (id white black created_at : string)
    (calls : list (Move * float)) :
  let g := after_calls (new_game id white black created_at) calls in
  let accepted := accepted_calls starting_board calls in
  game_id g = id /\ game_white g = white /\ game_black g = black
  /\ game_created_at g = created_at
  /\ playable starting_board (map fst accepted)
  /\ game_board g = fold_left push (map fst accepted) starting_board
  /\ game_moves g = map uci (map fst accepted)
  /\ game_timestamps g = map snd accepted
  /\ (accepted = [] -> game_result g = None)
  /\ (accepted <> [] -> is_over g = true ->
      game_result g = Some (get_result g)).
Proof.
  cbv zeta.
  destruct (after_calls_record calls (new_game id white black created_at))
    as (Hplay & Hb & Hm & Ht & Hw & Hk & Hi & Hc & Hnil & Hres).
  cbn [new_game game_board game_moves game_timestamps game_white game_black
       game_id game_created_at game_result app] in *.
  repeat (split; [assumption|]). exact Hres.
Qed.

Lemma heavy_unfold (board : Board) (c : Color) :
  _heavy_material board c
  = count_pieces board KNIGHT c SQUARES * 3 + count_pieces board BISHOP c SQUARES * 3
    + count_pieces board ROOK c SQUARES * 5 + count_pieces board QUEEN c SQUARES * 9.
Proof. unfold _heavy_material, pieces_count. cbn [fold_left analysis_value]. lia. Qed.

Lemma heavy_total_bound (board : Board) (l : list Square) :
  0 <= (count_pieces board KNIGHT WHITE l * 3 + count_pieces board BISHOP WHITE l * 3
        + count_pieces board ROOK WHITE l * 5 + count_pieces board QUEEN WHITE l * 9)
       + (count_pieces board KNIGHT BLACK l * 3 + count_pieces board BISHOP BLACK l * 3
          + count_pieces board ROOK BLACK l * 5 + count_pieces board QUEEN BLACK l * 9)
    <= 9 * Z.of_nat (length l).
Proof.
  induction l as [|sq l IH].
  - unfold count_pieces. simpl. lia.
  - unfold count_pieces in *. cbn [List.filter length].
    destruct (piece_at board sq) as [[k c]|].
    + destruct k, c; simpl; lia.
    + simpl. lia.
Qed.

Lemma phase_of_total_points (t : Z) :
  0 <= t <= 576 -> phase_of_total t = phase_by_points t.
Proof.
  intros Ht.
  assert (Hall : forallb (fun n => bool_decide
            (phase_of_total (Z.of_nat n) = phase_by_points (Z.of_nat n)))
            (seq 0 577) = true) by (vm_compute; reflexivity).
  rewrite forallb_forall in Hall. specialize (Hall (Z.to_nat t)).
  rewrite Z2Nat.id in Hall by lia.
  assert (Hin : In (Z.to_nat t) (seq 0 577)) by (apply in_seq; lia).
  apply Hall in Hin. apply bool_decide_eq_true_1 in Hin. exact Hin.
Qed.

(** The game phase in points: with the non-pawn material of both sides
    counted at knight 3, bishop 3, rook 5, queen 9, the position is an
    opening from 47 points on, a middlegame from 19 to 46, an endgame at 18
    or less. *)
Theorem game_phase_by_points (board : Board) :
  _game_phase board
  = phase_by_points (_heavy_material board WHITE + _heavy_material board BLACK).
Proof.
  unfold _game_phase. cbv zeta. apply phase_of_total_points.
  rewrite !heavy_unfold.
  pose proof (heavy_total_bound board SQUARES) as Hb.
  change (length SQUARES) with 64%nat in Hb. lia.
Qed.

Lemma make_move_cases (games : gmap string Game) (agents : gmap string Agent)
    (id : string) (start stop : float) :
  match make_move games agents id start stop with
  | (games', Respond r) =>
      exists game m game',
        games !! id = Some game /\ is_over game = false
        /\ In m (legal_moves (game_board game))
        /\ apply_move game m (PrimFloat.sub stop start) = Ok tt game'
        /\ games' = <[id := game']> games
        /\ r = mkMoveResponse (uci m) (fen (game_board game')) (is_over game')
                 (game_result game') (round6 (PrimFloat.sub stop start))
  | (games', _) => games' = games
  end.
Proof.
  unfold make_move.
  destruct (games !! id) as [game|] eqn:Hg; [|reflexivity].
  destruct (is_over game) eqn:Hover; [reflexivity|].
  destruct (agents !! _) as [agent|]; [|reflexivity].
  destruct (agent (game_board game)) as [m|e|]; [|destruct e; reflexivity|reflexivity].
  destruct (bool_decide (m ∈ legal_moves (game_board game))) eqn:Hd; simpl;
    [|reflexivity].
  pose proof Hd as Hin. apply bool_decide_eq_true_1 in Hin.
  apply list_elem_of_In in Hin.
  destruct (apply_move_legal game m (PrimFloat.sub stop start) Hin)
    as (game' & Ha & _).
  rewrite Ha. exists game, m, game'. repeat split; auto.
Qed.

(** The move endpoint applies legal moves only, whatever the agent returns:
    when it answers, the game was not over, the move reported is a legal
    move of the game's position, and the stored game is that game with the
    move applied; no other game changes. *)
Theorem make_move_applies_legal_move (games games' : gmap string Game)
    (agents : gmap string Agent) (id : string) (start stop : float)
    (r : MoveResponse) :
  make_move games agents id start stop = (games', Respond r) ->
  exists game m game',
    games !! id = Some game /\ is_over game = false
    /\ In m (legal_moves (game_board game))
    /\ games' !! id = Some game'
    /\ game_board game' = push (game_board game) m
    /\ game_moves game' = game_moves game ++ [uci m]
    /\ response_move r = uci m
    /\ response_fen r = fen (game_board game')
    /\ (forall other, other <> id -> games' !! other = games !! other).
Proof.
  intros E. pose proof (make_move_cases games agents id start stop) as Hc.
  rewrite E in Hc. destruct Hc as (game & m & game' & Hg & Hover & Hin & Ha & -> & ->).
  exists game, m, game'. split; [exact Hg|]. split; [exact Hover|].
  split; [exact Hin|]. split; [apply lookup_insert_eq|].
  assert (Hfields : game_board game' = push (game_board game) m
                    /\ game_moves game' = game_moves game ++ [uci m]).
  { destruct (apply_move_legal game m (PrimFloat.sub stop start) Hin)
      as (g1 & Hg1 & Hb1 & Hm1 & _).
    assert (g1 = game') by congruence. subst g1. auto. }
  destruct Hfields as [Hb Hm]. split; [exact Hb|]. split; [exact Hm|].
  split; [reflexivity|]. split; [reflexivity|].
  intros other Hne. apply lookup_insert_ne. congruence.
Qed.

(** A call of the move endpoint that fails, with whatever status, changes
    no game. *)
Theorem make_move_failure_changes_nothing (games games' : gmap string Game)
    (agents : gmap string Agent) (id : string) (start stop : float) (status : Z) :
  make_move games agents id start stop = (games', Fail status) ->
  games' = games
  /\ (status = 404 \/ status = 400 \/ status = 500)
  /\ (games !! id = None -> status = 404).
Proof.
  intros E. pose proof (make_move_cases games agents id start stop) as Hc.
  rewrite E in Hc. split; [exact Hc|].
  unfold make_move in E.
  destruct (games !! id) as [game|] eqn:Hg.
  2:{ inversion E. auto. }
  split; [|discriminate].
  destruct (is_over game); [inversion E; auto|].
  destruct (agents !! _) as [agent|]; [|inversion E; auto].
  destruct (agent (game_board game)) as [m|e|];
    [|destruct e; inversion E; auto|discriminate].
  destruct (negb _); [inversion E; auto|].
  destruct (apply_move _ _ _); inversion E; auto.
Qed.

Lemma registry_lookup (rng : Rng) (name : string) (agent : Agent) :
  _AGENT_REGISTRY rng !! name = Some agent ->
  name = "random"%string /\ agent = random_agent rng.
Proof.
  unfold _AGENT_REGISTRY. intros E.
  apply lookup_singleton_Some in E. destruct E as [-> ->]. auto.
Qed.

(** The players of every game the service holds are registered agents. *)
Lemma reachable_players (games : gmap string Game) :
  reachable games ->
  forall id game, games !! id = Some game ->
    game_white game = "random"%string /\ game_black game = "random"%string.
Proof.
  induction 1 as [|games rng white black game_id created_at Hr IH
                  |games rng id0 start stop Hr IH]; intros id game Hg.
  - rewrite lookup_empty in Hg. discriminate.
  - unfold new_game_endpoint in Hg.
    destruct (_AGENT_REGISTRY rng !! white) as [aw|] eqn:Hw; [|eauto].
    destruct (_AGENT_REGISTRY rng !! black) as [ab|] eqn:Hb; [|eauto].
    apply registry_lookup in Hw. apply registry_lookup in Hb.
    destruct Hw as [-> _]. destruct Hb as [-> _]. cbn [fst] in Hg.
    destruct (decide (id = game_id)) as [->|Hne].
    + rewrite lookup_insert_eq in Hg. inversion Hg. auto.
    + rewrite lookup_insert_ne in Hg by congruence. eauto.
  - pose proof (make_move_cases games (_AGENT_REGISTRY rng) id0 start stop) as Hc.
    destruct (make_move games (_AGENT_REGISTRY rng) id0 start stop)
      as [games' [r| |]]; cbn [fst] in Hg; try (subst games'; eauto).
    destruct Hc as (game0 & m & game' & Hg0 & _ & Hin & Ha & -> & _).
    destruct (decide (id = id0)) as [->|Hne].
    + rewrite lookup_insert_eq in Hg. inversion Hg; subst game'.
      destruct (apply_move_legal game0 m (PrimFloat.sub stop start) Hin)
        as (g1 & Ha1 & _ & _ & _ & Hw & Hb & _).
      assert (g1 = game) by congruence. subst g1.
      destruct (IH id0 game0 Hg0) as [Hw0 Hb0]. split; congruence.
    + rewrite lookup_insert_ne in Hg by congruence. eauto.
Qed.

(** The service as [main.py] sets it up, with the random agent registered,
    answers every request for a move in a game it holds that is not over:
    if a game that is not over has a legal move and [random.choice] returns
    a member of its list, the move endpoint raises no HTTP error, whatever
    requests for new games and for moves the service has served before. *)
Theorem make_move_answers_running_game (games : gmap string Game)
    (rng : Rng) (id : string) (start stop : float) (game : Game) :
  running_law -> choice_law -> reachable games ->
  games !! id = Some game -> is_over game = false ->
  exists games' r,
    make_move games (_AGENT_REGISTRY rng) id start stop = (games', Respond r).
Proof.
  intros Hlaw Hch Hreach Hg Hover.
  destruct (reachable_players games Hreach id game Hg) as [Hw Hb].
  assert (Hlegal : legal_moves (game_board game) <> []) by (apply Hlaw; exact Hover).
  pose proof (Hch rng _ Hlegal) as Hin.
  destruct (choice rng (legal_moves (game_board game))) as [m rng'] eqn:Hc.
  cbn [fst] in Hin.
  destruct (apply_move_legal game m (PrimFloat.sub stop start) Hin)
    as (game' & Ha & _).
  assert (Hname : match turn (game_board game) with
                  | WHITE => game_white game
                  | BLACK => game_black game
                  end = "random"%string).
  { destruct (turn (game_board game)); assumption. }
  eexists _, _. unfold make_move. rewrite Hg, Hover. cbv zeta. rewrite Hname.
  unfold _AGENT_REGISTRY, Agent in *. rewrite lookup_singleton_eq.
  unfold random_agent, random_select_move.
  destruct (legal_moves (game_board game)) as [|m0 l] eqn:Hl; [congruence|].
  rewrite Hc. rewrite <- Hl.
  rewrite bool_decide_eq_true_2 by (apply list_elem_of_In; rewrite Hl; exact Hin).
  cbn [negb]. rewrite Ha. reflexivity.
Qed.
End ServiceExtras.

(** ** The further properties on the fixtures *)

Lemma mate_undo_law : undo_law (Board := MateBoard).
Proof. intros [fx hist] m. reflexivity. Qed.

Lemma fixture_choice_law : choice_law (Rng := unit).
Proof. intros g [|m l] Hne; [congruence|]. left. reflexivity. Qed.

Lemma fixture_running_law : running_law (Board := FixtureBoard).
Proof.
  intros [fx hist]. cbn. unfold fx_stuck, fx_played. cbn.
  destruct hist; cbn; [|discriminate].
  destruct (fx_moves fx); cbn; [discriminate|]. intros _. discriminate.
Qed.

Lemma two_captures_mirror : mirrored two_captures two_captures_mirrored.
Proof.
  split; [|repeat split].
  intros sq Hsq.
  assert (Hall : forallb (fun sq => bool_decide
            (piece_at two_captures_mirrored (mirror_square sq)
             = option_map swap_color (piece_at two_captures sq)))
            (seq 0 64) = true) by (vm_compute; reflexivity).
  rewrite forallb_forall in Hall.
  assert (Hin : In sq (seq 0 64)) by (apply in_seq; lia).
  apply Hall in Hin. apply bool_decide_eq_true_1 in Hin. exact Hin.
Qed.

Lemma negamax_fail_soft_witness :
  exists v, _negamax 3 two_captures 2 (-50) 50 = Some (v, two_captures)
            /\ fail_soft v (exhaustive_negamax (Z.to_nat 2) two_captures) (-50) 50.
Proof.
  apply (negamax_fail_soft 3 two_captures 2 (-50) 50 fixture_undo_law); lia.
Defined.

Lemma negamax_full_window_exact_witness :
  _negamax 3 two_captures 2 (- CHECKMATE_SCORE - 1) (CHECKMATE_SCORE + 1)
  = Some (exhaustive_negamax (Z.to_nat 2) two_captures, two_captures).
Proof.
  apply (negamax_full_window_exact 3 two_captures 2 fixture_undo_law); lia.
Defined.

Lemma mate_in_one_found_witness :
  exists m', search_root_scored 1 back_rank_mate 1
             = Ok (m', CHECKMATE_SCORE) back_rank_mate
             /\ In m' (legal_moves back_rank_mate)
             /\ is_checkmate (push back_rank_mate m') = true.
Proof.
  apply (mate_in_one_found back_rank_mate Rb8 1 mate_undo_law);
    [lia|vm_compute; auto|reflexivity].
Defined.

Lemma evaluate_mirror_symmetric_witness :
  evaluate two_captures_mirrored = evaluate two_captures.
Proof.
  apply (evaluate_mirror_symmetric two_captures two_captures_mirrored
           two_captures_mirror).
Defined.

Lemma rollout_plays_legal_line_witness :
  exists r line,
    _rollout two_captures tt = Ret (r, tt)
    /\ (length line <= 40)%nat /\ legal_line two_captures line
    /\ ((length line < 40)%nat ->
        is_game_over (fold_left push line two_captures) = true)
    /\ r = rollout_value (fold_left push line two_captures).
Proof.
  destruct (rollout_plays_legal_line two_captures tt tt 0%float
              fixture_choice_law) as (line & Hline);
    [vm_compute; reflexivity|].
  exists 0%float, line. split; [vm_compute; reflexivity|exact Hline].
Defined.

Lemma passes_follow_the_clock_witness :
  exists arena iterations,
    mcts_tree 7 two_captures 4%float tt 0 = Ret (arena, iterations)
    /\ iterations
       = Z.of_nat (readings_below 7 (PrimFloat.add (fst (monotonic 0)) 4%float)
                     (snd (monotonic 0)))
    /\ 1 <= Z.of_nat (length arena) <= iterations + 1.
Proof.
  eexists _, _. split; [vm_compute; reflexivity|].
  apply (passes_follow_the_clock two_captures 7 4%float tt 0).
  vm_compute. reflexivity.
Defined.

Lemma search_tree_well_formed_witness :
  exists arena iterations,
    mcts_tree 7 two_captures 4%float tt 0 = Ret (arena, iterations)
    /\ tree_ok arena /\ root_board arena two_captures /\ boards_ok arena
    /\ (shuffle_law (Rng := unit) ->
        moves_ok arena /\ reached_by_legal_moves arena).
Proof.
  eexists _, _. split; [vm_compute; reflexivity|].
  apply (search_tree_well_formed two_captures 7 4%float tt 0 _ 3).
  vm_compute. reflexivity.
Defined.

Lemma select_reaches_frontier_witness :
  exists arena iterations s,
    mcts_tree 7 two_captures 6%float tt 0 = Ret (arena, iterations)
    /\ _select 7 arena 0 = Ret s
    /\ (0 <= s)%nat
    /\ exists ns, arena !! s = Some ns
         /\ (is_game_over (node_board ns) = true \/ node_untried_moves ns <> []).
Proof.
  eexists _, _, _. split; [vm_compute; reflexivity|].
  split; [vm_compute; reflexivity|].
  apply select_reaches_frontier with (fuel := 7%nat);
    [|vm_compute; lia|vm_compute; reflexivity].
  destruct (initial_tree tt two_captures) as (Hok & Hrb & _).
  pose proof (search_loop_ok 7 (PrimFloat.add 0%float 6%float) two_captures 7
                _ tt 1 0 Hok Hrb) as Hloop.
  vm_compute in Hloop. exact (proj1 Hloop).
Defined.

Lemma most_visited_child_is_chosen_witness :
  exists arena iterations root om,
    mcts_tree 7 two_captures 4%float tt 0 = Ret (arena, iterations)
    /\ arena !! 0%nat = Some root
    /\ mcts_finish (legal_moves two_captures) arena tt = Ret (om, tt)
    /\ exists best bn,
         In best (node_children root) /\ arena !! best = Some bn
         /\ om = node_move bn
         /\ forall c, In c (node_children root) ->
              visits_at arena c <= node_visits bn.
Proof.
  eexists _, _, _, _. split; [vm_compute; reflexivity|].
  split; [vm_compute; reflexivity|]. split; [vm_compute; reflexivity|].
  eapply (most_visited_child_is_chosen _ (legal_moves two_captures) tt tt);
    [vm_compute; reflexivity|vm_compute; discriminate|vm_compute; reflexivity].
Defined.

Lemma tree_nodes_are_visited_witness :
  exists arena iterations n,
    mcts_tree 7 two_captures 4%float tt 0 = Ret (arena, iterations)
    /\ arena !! 1%nat = Some n
    /\ 1 <= node_visits n
    /\ q n = float_div_int (node_total_value n) (node_visits n)
    /\ forall parent_visits,
         _ucb1 n parent_visits
         = (exploitation ← q n;
            l ← math_log parent_visits;
            ratio ← float_div_int l (node_visits n);
            root ← math_sqrt ratio;
            Ret (PrimFloat.add exploitation (PrimFloat.mul _UCB1_C root))).
Proof.
  eexists _, _, _. split; [vm_compute; reflexivity|].
  split; [vm_compute; reflexivity|].
  eapply (tree_nodes_are_visited two_captures 7 4%float tt 0 _ _ 1%nat);
    [vm_compute; reflexivity|vm_compute; reflexivity|lia].
Defined.

Lemma random_agent_contract_witness :
  ((exists e, random_select_move two_captures tt = Err e)
   <-> legal_moves two_captures = [])
  /\ (legal_moves two_captures = [] ->
      random_select_move two_captures tt = Err ValueError)
  /\ (forall m rng', random_select_move two_captures tt = Ret (m, rng') ->
        In m (legal_moves two_captures)).
Proof.
  apply (random_agent_contract two_captures tt fixture_choice_law).
Defined.

Lemma fixture_agent_on_move :
  fixture_agents
  !! (match turn (game_board (new_game "g1" "random" "random" "t0")) with
      | WHITE => game_white (new_game "g1" "random" "random" "t0")
      | BLACK => game_black (new_game "g1" "random" "random" "t0")
      end) = Some (random_agent tt).
Proof.
  change (fixture_agents !! "random"%string = Some (random_agent tt)).
  apply lookup_singleton_eq.
Qed.

Lemma fixture_make_move :
  exists games' r,
    make_move fixture_games fixture_agents "g1" 0%float 1%float
    = (games', Respond r).
Proof.
  eexists _, _. unfold make_move, fixture_games.
  rewrite lookup_singleton_eq.
  change (is_over (new_game "g1" "random" "random" "t0")) with false.
  cbv zeta. pose proof fixture_agent_on_move as Hagent.
  unfold Agent in *. rewrite Hagent.
  match goal with |- context [random_agent ?g ?b] =>
    let v := eval vm_compute in (random_agent g b) in
    change (random_agent g b) with v end.
  cbv iota.
  match goal with |- context [bool_decide ?P] =>
    let v := eval vm_compute in (bool_decide P) in
    change (bool_decide P) with v end.
  cbn [negb].
  match goal with |- context [apply_move ?g ?m ?e] =>
    let v := eval vm_compute in (apply_move g m e) in
    change (apply_move g m e) with v end.
  cbv iota. reflexivity.
Qed.

Lemma fixture_games_reachable : reachable (Rng := unit) fixture_games.
Proof.
  pose proof (reach_new_game ∅ tt "random" "random" "g1" "t0" reach_start) as Hr.
  unfold new_game_endpoint, _AGENT_REGISTRY in Hr.
  rewrite lookup_singleton_eq in Hr. cbn [fst] in Hr.
  rewrite insert_empty in Hr. exact Hr.
Qed.

Lemma make_move_answers_running_game_witness :
  exists games' r,
    make_move fixture_games (_AGENT_REGISTRY tt) "g1" 0%float 1%float
    = (games', Respond r).
Proof.
  apply (make_move_answers_running_game fixture_games tt "g1" 0%float 1%float
           (new_game "g1" "random" "random" "t0")
           fixture_running_law fixture_choice_law fixture_games_reachable);
    [apply lookup_singleton_eq|reflexivity].
Defined.

Lemma make_move_applies_legal_move_witness :
  exists games' r,
    make_move fixture_games fixture_agents "g1" 0%float 1%float
    = (games', Respond r)
    /\ exists game m game',
         fixture_games !! "g1"%string = Some game /\ is_over game = false
         /\ In m (legal_moves (game_board game))
         /\ games' !! "g1"%string = Some game'
         /\ game_board game' = push (game_board game) m
         /\ game_moves game' = game_moves game ++ [uci m]
         /\ response_move r = uci m
         /\ response_fen r = fen (game_board game')
         /\ (forall other, other <> "g1"%string ->
             games' !! other = fixture_games !! other).
Proof.
  destruct fixture_make_move as (games' & r & E).
  exists games', r. split; [exact E|].
  apply (make_move_applies_legal_move fixture_games games' fixture_agents "g1"
           0%float 1%float r E).
Defined.

Lemma make_move_failure_changes_nothing_witness :
  {[ "g0"%string := finished_game ]} = ({[ "g0"%string := finished_game ]} : gmap string (@Game FixtureBoard))
  /\ (400 = 404 \/ 400 = 400 \/ 400 = 500)
  /\ (({[ "g0"%string := finished_game ]} : gmap string (@Game FixtureBoard)) !! "g0"%string = None
      -> 400 = 404).
Proof.
  apply (make_move_failure_changes_nothing {[ "g0"%string := finished_game ]}
           {[ "g0"%string := finished_game ]} fixture_agents "g0"
           0%float 1%float 400).
  unfold make_move. rewrite lookup_singleton_eq. reflexivity.
Defined.
